(** * NeusRendererMixin: a shallow embedding of
      [nr3d_lib/models/fields/neus/renderer_mixin.py]

    The mixin orchestrates ray queries over a NeuS field: it tests rays
    against the space, dispatches to a sampler selected by [query_mode],
    and optionally composites the sampled volume buffer into per-ray
    outputs.  It also carries the training hooks that drive the
    acceleration structure and the [shrink] operation.

    Conventions of the embedding.
    - torch floats are rationals ([Q]); all arithmetic is exact.  The two
      irrational primitives the file needs ([sqrt] inside [F.normalize] and
      [2 ** g] for a float [g]) are fields of the class [FloatOps].
    - a tensor is its shape and its row-major data, as in torch.
    - Python objects that are mutated or shared (dicts, tensors) live in a
      heap; values refer to them by location.  Allocation appends to the
      heap, so a location is the length of the heap at allocation time.
    - the network the mixin is laid over ([super()]), the space, the
      acceleration structure, the samplers of [nr3d_lib.graphics.neus] and
      the logger are collaborators: every call to one of them is recorded
      in the trace of the world and answered by [respond].
    - Python exceptions are the constructors of [exn]; a computation is a
      function from worlds to an outcome and a world. *)

From Stdlib Require Import QArith Qminmax.
From stdpp Require Import gmap strings list fin_maps pretty.

(** ** Python values, objects and exceptions *)

Abbreviation loc := nat (only parsing).

Inductive val :=
  | VNone
  | VBool (b : bool)
  | VInt (n : Z)
  | VFloat (q : Q)
  | VStr (s : string)
  | VList (l : list nat)
  | VRef (l : loc).

(** A float tensor: [shape] and row-major [data]. *)
Record tensor := Tensor { shape : list nat; data : list Q }.

(** An index (long) tensor.  Ray indices and pack infos are non-negative,
    so the entries are naturals. *)
Record ltensor := LTensor { lshape : list nat; ldata : list nat }.

Inductive obj :=
  | ODict (d : gmap string val)
  | OTensor (t : tensor)
  | OLong (t : ltensor).

Inductive exn :=
  | AssertionError (msg : string)
  | NotImplementedError
  | RuntimeError (msg : string)
  | KeyError (key : string)
  | AttributeError (attr : string)
  | TypeError (msg : string)
  | IndexError
  | ZeroDivisionError.

Inductive outcome (A : Type) :=
  | Ok (a : A)
  | Raise (e : exn).
Arguments Ok {A} a.
Arguments Raise {A} e.

Global Instance outcome_ret : MRet outcome := λ A a, Ok a.
Global Instance outcome_bind : MBind outcome := λ A B f m,
  match m with Ok a => f a | Raise e => Raise e end.

(** ** Torch primitives on float tensors *)

Module Torch.

Definition numel (sh : list nat) : nat := foldr Nat.mul 1 sh.

(** [shape[:-1]] and [shape[-1]]. *)
Definition split_last (sh : list nat) : option (list nat * nat) :=
  match reverse sh with
  | [] => None
  | s :: r => Some (reverse r, s)
  end.

Definition dim (t : tensor) : nat := length (shape t).

(** [n] consecutive chunks of [size] entries. *)
Fixpoint chunks {A} (n size : nat) (l : list A) : list (list A) :=
  match n with
  | O => []
  | S n' => take size l :: chunks n' size (drop size l)
  end.

Definition Qsum (l : list Q) : Q := foldr Qplus 0%Q l.

(** Sum of [rows], each of width [c], column by column. *)
Definition colsum (c : nat) (rows : list (list Q)) : list Q :=
  foldr (zip_with Qplus) (replicate c 0%Q) rows.

(** [torch.zeros(sh)] *)
Definition zeros (sh : list nat) : tensor :=
  Tensor sh (replicate (numel sh) 0%Q).

(** [t.sum(dim=-1)] *)
Definition sum_last (t : tensor) : outcome tensor :=
  match split_last (shape t) with
  | None => Raise IndexError
  | Some (init, s) =>
      Ok (Tensor init (Qsum <$> chunks (numel init) s (data t)))
  end.

(** [t.sum(dim=-2)] *)
Definition sum_penult (t : tensor) : outcome tensor :=
  match split_last (shape t) with
  | None => Raise IndexError
  | Some (init1, c) =>
      match split_last init1 with
      | None => Raise IndexError
      | Some (init, s) =>
          Ok (Tensor (init ++ [c])
                (concat ((λ blk, colsum c (chunks s c blk))
                           <$> chunks (numel init) (s * c) (data t))))
      end
  end.

(** [t.unsqueeze(-1)] *)
Definition unsqueeze_last (t : tensor) : tensor :=
  Tensor (shape t ++ [1]) (data t).

(** [t.view(-1)] *)
Definition view_flat (t : tensor) : tensor :=
  Tensor [numel (shape t)] (data t).

(** [t.view(-1, c)] *)
Definition view_rows (c : nat) (t : tensor) : outcome tensor :=
  if decide (c ≠ 0 ∧ (numel (shape t) mod c = 0)%nat)
  then Ok (Tensor [(numel (shape t) / c)%nat; c] (data t))
  else Raise (RuntimeError "shape is invalid for input").

(** [t + c] for a Python float [c] *)
Definition add_scalar (t : tensor) (c : Q) : tensor :=
  Tensor (shape t) ((λ x, x + c)%Q <$> data t).

(** A binary operator on two tensors.  Of torch's broadcasting rules the
    code only uses two: equal shapes, and one operand whose last dimension
    is 1 against the other's full last dimension.  Every other combination
    of shapes is reported as the shape error of torch. *)
Definition bcast_last (op : Q → Q → Q) (a b : tensor) : outcome tensor :=
  if decide (shape a = shape b)
  then Ok (Tensor (shape a) (zip_with op (data a) (data b)))
  else
    match split_last (shape a), split_last (shape b) with
    | Some (ia, sa), Some (ib, sb) =>
        if decide (ia = ib ∧ sb = 1)
        then Ok (Tensor (shape a)
                   (concat (zip_with (λ row y, (λ x, op x y) <$> row)
                              (chunks (numel ia) sa (data a)) (data b))))
        else if decide (ia = ib ∧ sa = 1)
        then Ok (Tensor (shape b)
                   (concat (zip_with (λ x row, op x <$> row)
                              (data a) (chunks (numel ib) sb (data b)))))
        else Raise (RuntimeError "shapes cannot be broadcast")
    | _, _ => Raise (RuntimeError "shapes cannot be broadcast")
    end.

Definition mul := bcast_last Qmult.
Definition div := bcast_last Qdiv.
Definition add := bcast_last Qplus.

(** [torch.addcmul(a, b, c)] is [a + b * c]. *)
Definition addcmul (a b c : tensor) : outcome tensor :=
  bc ← mul b c; add a bc.

(** [x.clamp(lo, hi)] on one entry: [min(max(x, lo), hi)]. *)
Definition clamp1 (lo hi x : Q) : Q := Qmin (Qmax x lo) hi.

Definition clamp (lo hi : Q) (t : tensor) : tensor :=
  Tensor (shape t) (clamp1 lo hi <$> data t).

(** The data of a tensor fill its shape. *)
Definition filled (t : tensor) : Prop :=
  length (data t) = numel (shape t).

Global Instance filled_dec t : Decision (filled t).
Proof. unfold filled. apply _. Defined.

(** The first-dimension index assignment [target[inds] = vals], for an
    index tensor [inds] of rank 1.  [vals] must have one row per index and
    the row shape of [target]; an index past the first dimension raises.
    Later writes win over earlier ones.  Records whose data do not fill
    their shape are not tensors of torch, and are refused. *)
Definition index_put (target : tensor) (inds : list nat) (vals : tensor)
  : outcome tensor :=
  match shape target with
  | [] => Raise IndexError
  | n :: rest =>
      if decide (shape vals = length inds :: rest
                 ∧ filled target ∧ filled vals)
      then
        if decide (Forall (λ i, i < n) inds)
        then
          let w := numel rest in
          Ok (Tensor (shape target)
                (concat (foldl (λ rows ir, <[ir.1 := ir.2]> rows)
                           (chunks n w (data target))
                           (zip inds (chunks (length inds) w (data vals))))))
        else Raise IndexError
      else Raise (RuntimeError "shape mismatch in indexed assignment")
  end.

End Torch.

(** ** Irrational float primitives *)

(** [fsqrt] is the square root of [torch.norm]; [fpow2 g] is Python's
    [2 ** g] for a float [g].  Nothing is assumed about either. *)
Class FloatOps := {
  fsqrt : Q → Q;
  fpow2 : Q → Q
}.

Module Functional.
Section with_floats.
Context `{FloatOps}.

(** [F.normalize] on one vector, with torch's default [eps=1e-12]:
    [v / max(||v||_2, eps)]. *)
Definition normalize_row (v : list Q) : list Q :=
  let n := Qmax (fsqrt (Torch.Qsum ((λ x, x * x)%Q <$> v)))
                (1 # 1000000000000) in
  (λ x, x / n)%Q <$> v.

(** [F.normalize(t, dim=-1)] *)
Definition normalize (t : tensor) : outcome tensor :=
  match Torch.split_last (shape t) with
  | None => Raise IndexError
  | Some (init, c) =>
      Ok (Tensor (shape t)
            (concat (normalize_row
                       <$> Torch.chunks (Torch.numel init) c (data t))))
  end.
End with_floats.
End Functional.

(** ** Helpers of [nr3d_lib.graphics] that the mixin imports *)

Module Graphics.

(** A pack info: the start offset and the sample count of one ray. *)
Definition pack_info : Type := nat * nat.

Definition segment {A} (l : list A) (p : pack_info) : list A :=
  take p.2 (drop p.1 l).

(** Overwrite [l] from offset [off] with [seg]. *)
Definition write_segment {A} (l : list A) (off : nat) (seg : list A)
  : list A :=
  take off l ++ seg ++ drop (off + length seg) l.

(** Modelled from the spec: [ray_alpha_to_vw] and [packed_alpha_to_vw]
    live in [nr3d_lib/graphics/nerf], which is not part of the sources at
    hand.  The spec gives the recurrence: the weight of sample [i] is
    [alpha_i] times the transmittance accumulated over the preceding
    samples of the same ray, and the transmittance is updated
    multiplicatively by [1 - alpha]. *)
Fixpoint alpha_to_vw_from (T : Q) (alphas : list Q) : list Q :=
  match alphas with
  | [] => []
  | a :: r => (a * T)%Q :: alpha_to_vw_from (T * (1 - a))%Q r
  end.

Definition alpha_to_vw_row : list Q → list Q := alpha_to_vw_from 1%Q.

(** Modelled from the spec: the batched form of the recurrence, along the
    sample (last) axis of a batched buffer. *)
Definition ray_alpha_to_vw (alpha : tensor) : outcome tensor :=
  match Torch.split_last (shape alpha) with
  | None => Raise IndexError
  | Some (init, s) =>
      Ok (Tensor (shape alpha)
            (concat (alpha_to_vw_row
                       <$> Torch.chunks (Torch.numel init) s (data alpha))))
  end.

(** Modelled from the spec: the packed form of the recurrence.  Each pack
    info selects the samples of one ray in the flat array; the weights of
    that ray are written back at the same offsets.  Entries that belong to
    no ray are zero. *)
Definition packed_alpha_to_vw (alpha : tensor) (packs : list pack_info)
  : tensor :=
  Tensor (shape alpha)
    (foldl (λ acc p, write_segment acc p.1
                       (alpha_to_vw_row (segment (data alpha) p)))
       (replicate (length (data alpha)) 0%Q) packs).

(** Modelled from the spec: [packed_sum] of [nr3d_lib/graphics/pack_ops]
    (not part of the sources at hand), the segmented reduction keyed by
    pack info.  The first dimension of [x] is the flat sample axis; the
    result has one row per ray. *)
Definition packed_sum (x : tensor) (packs : list pack_info)
  : outcome tensor :=
  match shape x with
  | [] => Raise IndexError
  | m :: rest =>
      let w := Torch.numel rest in
      Ok (Tensor (length packs :: rest)
            (concat ((λ p, Torch.colsum w
                             (segment (Torch.chunks m w (data x)) p))
                       <$> packs)))
  end.

(** Modelled from the spec: [packed_div] of [nr3d_lib/graphics/pack_ops]
    (not part of the sources at hand), the division of every sample of a
    ray by that ray's entry of [y].  Entries that belong to no ray are
    zero. *)
Definition packed_div (x y : tensor) (packs : list pack_info)
  : outcome tensor :=
  if decide (length (data y) = length packs)
  then
    Ok (Tensor (shape x)
          (foldl (λ acc py, write_segment acc py.1.1
                              ((λ v, v / py.2)%Q <$> segment (data x) py.1))
             (replicate (length (data x)) 0%Q) (zip packs (data y))))
  else Raise (RuntimeError "pack infos do not match the per-ray operand").

(** The rows of a [[k, 2]] index tensor as pack infos. *)
Definition pack_infos_of (t : ltensor) : outcome (list pack_info) :=
  match lshape t with
  | [k; 2] =>
      Ok ((λ r, (default 0 (r !! 0), default 0 (r !! 1)))
            <$> Torch.chunks k 2 (ldata t))
  | _ => Raise (RuntimeError "pack infos must have shape [num_rays, 2]")
  end.

End Graphics.

(** ** Collaborators, worlds and computations *)

(** The samplers of [nr3d_lib.graphics.neus]. *)
Inductive sampler :=
  | neus_ray_query_march_occ_multi_upsample
  | neus_ray_query_march_occ_multi_upsample_compressed
  | neus_ray_query_coarse_multi_upsample
  | neus_ray_query_sphere_trace.

(** The arguments [ray_query] hands to a sampler.  [sa_forward_inv_s] is
    absent for sphere tracing, which is not given it. *)
Record sampler_args := SamplerArgs {
  sa_ray_tested : val;
  sa_with_rgb : val;
  sa_with_normal : val;
  sa_upsample_s_divisor : val;
  sa_perturb : val;
  sa_forward_inv_s : option val;
  sa_query_param : gmap string val
}.

(** A call to a collaborator.  [Net...] are the methods of the network
    class reached through [super()], [Accel...] those of [self.accel],
    [Space...] those of [self.space]. *)
Inductive call :=
  | NetForwardSdf (x : val) (kwargs : gmap string val)
  | NetForwardSdfNablas (x : val) (kwargs : gmap string val)
  | NetQuerySdf (x : val) (kwargs : gmap string val)
  | NetTrainingInitialize (config : val)
  | NetTrainingBeforePerStep (cur_it : Z)
  | NetTrainingAfterPerStep (cur_it : Z)
  | NetRescaleVolume (new_aabb : val)
  | NetForwardInvS
  | NetLipshitzBoundFull
  | AccelCollectSamples (x sdf : val)
  | AccelInit
  | AccelTrainingGranularity
  | AccelStep (cur_it : Z)
  | AccelTryShrink
  | AccelRescaleVolume (new_aabb : val)
  | AccelDebugStats
  | SpaceAabb
  | SpaceRescaleVolume (new_aabb : val)
  | SpaceRayTest (rays_o rays_d near far : val) (extra : gmap string val)
  | Sample (s : sampler) (args : sampler_args)
  | LogInfo (old_aabb new_aabb : tensor).

(** [self.accel] when it is not [None]. *)
Record accel_handle := AccelHandle { has_debug_stats : bool }.

(** The attributes of [self] that the mixin reads or writes. *)
Record self_state := SelfState {
  training : bool;
  accel : option accel_handle;
  upsample_s_divisor : val;
  it : option Z;
  shrink_milestones : list Z;
  use_ts : bool;
  use_fidx : bool;
  has_lipshitz_bound : bool
}.

Record world := World {
  heap : list obj;
  trace : list call;
  self : self_state
}.

(** What a collaborator returns: the objects it created, and its return
    value ([f_aux] is the second component when it returns a pair).
    References inside a fragment are relative to the fragment; they are
    shifted to the end of the heap when the call returns, so a
    collaborator never hands back an object of the caller. *)
Record fragment := Fragment {
  f_objs : list obj;
  f_val : val;
  f_aux : val
}.

Definition shift_val (base : nat) (v : val) : val :=
  match v with
  | VRef k => VRef (base + k)
  | _ => v
  end.

Definition shift_obj (base : nat) (o : obj) : obj :=
  match o with
  | ODict d => ODict (shift_val base <$> d)
  | _ => o
  end.

Class Collaborators := {
  respond : world → call → outcome fragment
}.

Definition M (A : Type) : Type := world → outcome A * world.

Global Instance M_ret : MRet M := λ A a w, (Ok a, w).
Global Instance M_bind : MBind M := λ A B f m w,
  match m w with
  | (Ok a, w') => f a w'
  | (Raise e, w') => (Raise e, w')
  end.

Definition raise {A} (e : exn) : M A := λ w, (Raise e, w).

Definition lift {A} (o : outcome A) : M A := λ w, (o, w).

Definition get_self : M self_state := λ w, (Ok (self w), w).

Definition set_self (s : self_state) : M unit :=
  λ w, (Ok (), World (heap w) (trace w) s).

(** A new object; its reference is returned. *)
Definition alloc (o : obj) : M val :=
  λ w, (Ok (VRef (length (heap w))),
        World (heap w ++ [o]) (trace w) (self w)).

Definition load (v : val) : M obj :=
  λ w, match v with
       | VRef l =>
           match heap w !! l with
           | Some o => (Ok o, w)
           | None => (Raise (TypeError "not an object"), w)
           end
       | _ => (Raise (TypeError "not an object"), w)
       end.

Definition store (v : val) (o : obj) : M unit :=
  λ w, match v with
       | VRef l => (Ok (), World (<[l := o]> (heap w)) (trace w) (self w))
       | _ => (Raise (TypeError "not an object"), w)
       end.

(** A call to a collaborator: recorded in the trace, answered by
    [respond]; the objects of the answer are appended to the heap. *)
Definition call_ext `{Collaborators} (c : call) : M (val * val) :=
  λ w,
    let w1 := World (heap w) (trace w ++ [c]) (self w) in
    match respond w c with
    | Raise e => (Raise e, w1)
    | Ok f =>
        let base := length (heap w) in
        (Ok (shift_val base (f_val f), shift_val base (f_aux f)),
         World (heap w ++ (shift_obj base <$> f_objs f))
               (trace w ++ [c]) (self w))
    end.

Definition call1 `{Collaborators} (c : call) : M val :=
  r ← call_ext c; mret r.1.

Definition get_dict (v : val) : M (gmap string val) :=
  o ← load v;
  match o with
  | ODict d => mret d
  | _ => raise (TypeError "not a mapping")
  end.

Definition get_tensor (v : val) : M tensor :=
  o ← load v;
  match o with
  | OTensor t => mret t
  | _ => raise (TypeError "not a float tensor")
  end.

(** [d[key]] *)
Definition getitem (v : val) (key : string) : M val :=
  d ← get_dict v;
  match d !! key with
  | Some x => mret x
  | None => raise (KeyError key)
  end.

(** [d[key] = x] *)
Definition setitem (v : val) (key : string) (x : val) : M unit :=
  d ← get_dict v;
  store v (ODict (<[key := x]> d)).

(** [cfg.name] on a config object. *)
Definition getattr (cfg : val) (name : string) : M val :=
  d ← get_dict cfg;
  match d !! name with
  | Some x => mret x
  | None => raise (AttributeError name)
  end.

(** [cfg.get(name, dflt)] *)
Definition cfg_get (cfg : val) (name : string) (dflt : val) : M val :=
  d ← get_dict cfg;
  mret (default dflt (d !! name)).

(** [isinstance(v, torch.Tensor)] *)
Definition is_tensor (v : val) : M bool :=
  λ w, match v with
       | VRef l =>
           match heap w !! l with
           | Some (OTensor _) | Some (OLong _) => (Ok true, w)
           | _ => (Ok false, w)
           end
       | _ => (Ok false, w)
       end.

(** The shape of a tensor of either kind; other values have no
    [dim]/[shape]. *)
Definition get_shape (v : val) : M (list nat) :=
  λ w, match v with
       | VRef l =>
           match heap w !! l with
           | Some (OTensor t) => (Ok (shape t), w)
           | Some (OLong t) => (Ok (lshape t), w)
           | _ => (Raise (AttributeError "shape"), w)
           end
       | _ => (Raise (AttributeError "shape"), w)
       end.

(** Python truth value. *)
Definition truthy (v : val) : M bool :=
  match v with
  | VNone => mret false
  | VBool b => mret b
  | VInt n => mret (negb (n =? 0)%Z)
  | VFloat q => mret (negb (Qeq_bool q 0))
  | VStr s => mret (negb (String.eqb s ""))
  | VList l => mret (negb (bool_decide (l = [])))
  | VRef _ =>
      o ← load v;
      match o with
      | ODict d => mret (negb (bool_decide (d = ∅)))
      | OTensor (Tensor _ [x]) => mret (negb (Qeq_bool x 0))
      | OLong (LTensor _ [x]) => mret (negb (bool_decide (x = 0)))
      | _ => raise (RuntimeError "Boolean value of Tensor is ambiguous")
      end
  end.

(** [v == 0] as a condition. *)
Definition eq_zero (v : val) : M bool :=
  match v with
  | VBool _ | VInt _ | VFloat _ => b ← truthy v; mret (negb b)
  | VRef _ =>
      o ← load v;
      match o with
      | OTensor _ | OLong _ => b ← truthy v; mret (negb b)
      | _ => mret false
      end
  | _ => mret false
  end.

(** An index for [target[inds] = ...]: a rank-1 long tensor or a list of
    integers. *)
Definition get_index (v : val) : M (list nat) :=
  match v with
  | VList l => mret l
  | _ =>
      o ← load v;
      match o with
      | OLong (LTensor [_] l) => mret l
      | _ => raise (TypeError "unsupported index")
      end
  end.

Definition get_pack_infos (v : val) : M (list Graphics.pack_info) :=
  o ← load v;
  match o with
  | OLong t => lift (Graphics.pack_infos_of t)
  | _ => raise (TypeError "pack infos must be a long tensor")
  end.

(** ** The methods of [NeusRendererMixin] *)

Section mixin.
Context `{FloatOps} `{Collaborators}.

(** A method call on [self.accel]; on [None] the attribute lookup
    fails. *)
Definition accel_call (attr : string) (c : call) : M val :=
  s ← get_self;
  match accel s with
  | None => raise (AttributeError attr)
  | Some _ => call1 c
  end.

(** [self.accel.collect_samples(x, val=ret['sdf'].data)] *)
Definition collect_samples (x ret : val) : M unit :=
  sdf ← getitem ret "sdf";
  b ← is_tensor sdf;
  if b : bool
  then accel_call "collect_samples" (AccelCollectSamples x sdf);; mret ()
  else raise (AttributeError "data").

Definition forward_sdf (x : val) (skip_accel : bool)
    (kwargs : gmap string val) : M val :=
  ret ← call1 (NetForwardSdf x kwargs);
  s ← get_self;
  if training s && negb skip_accel && bool_decide (accel s ≠ None)
  then collect_samples x ret;; mret ret
  else mret ret.

Definition forward_sdf_nablas (x : val) (skip_accel : bool)
    (kwargs : gmap string val) : M val :=
  ret ← call1 (NetForwardSdfNablas x kwargs);
  s ← get_self;
  if training s && negb skip_accel && bool_decide (accel s ≠ None)
  then collect_samples x ret;; mret ret
  else mret ret.

Definition query_sdf (x : val) (kwargs : gmap string val) : M val :=
  call1 (NetQuerySdf x kwargs).

Definition training_initialize (config : val) (skip_accel : bool)
  : M val :=
  updated ← call1 (NetTrainingInitialize config);
  s ← get_self;
  if negb skip_accel && bool_decide (accel s ≠ None)
  then accel_call "init" AccelInit;; mret updated
  else mret updated.

(** Python's [2 ** g]. *)
Definition pow2 (g : val) : M val :=
  match g with
  | VBool b => mret (VInt (if b then 2 else 1))
  | VInt n =>
      if (0 <=? n)%Z then mret (VInt (2 ^ n)) else mret (VFloat (2 ^ n))
  | VFloat q => mret (VFloat (fpow2 q))
  | _ => raise (TypeError "unsupported operand type(s) for **")
  end.

(** [self.it = cur_it] *)
Definition set_it (cur_it : Z) : M unit :=
  s ← get_self;
  set_self (SelfState (training s) (accel s) (upsample_s_divisor s)
              (Some cur_it) (shrink_milestones s) (use_ts s) (use_fidx s)
              (has_lipshitz_bound s)).

(** [self.upsample_s_divisor = d] *)
Definition set_upsample_s_divisor (d : val) : M unit :=
  s ← get_self;
  set_self (SelfState (training s) (accel s) d (it s)
              (shrink_milestones s) (use_ts s) (use_fidx s)
              (has_lipshitz_bound s)).

Definition training_before_per_step (cur_it : Z) (skip_accel : bool)
  : M unit :=
  set_it cur_it;;
  call1 (NetTrainingBeforePerStep cur_it);;
  s ← get_self;
  if negb skip_accel && bool_decide (accel s ≠ None)
  then
    g ← accel_call "training_granularity" AccelTrainingGranularity;
    d ← pow2 g;
    set_upsample_s_divisor d;;
    s ← get_self;
    if training s
    then accel_call "step" (AccelStep cur_it);; mret ()
    else mret ()
  else mret ().

(** [t.tolist()] followed by an iteration over the outer list: [t] has
    to be a tensor of rank at least 1. *)
Definition tolist_rows (v : val) : M tensor :=
  λ w, match v with
       | VRef l =>
           match heap w !! l with
           | Some (OTensor (Tensor [] _)) | Some (OLong (LTensor [] _)) =>
               (Raise (TypeError "object is not iterable"), w)
           | Some (OTensor t) => (Ok t, w)
           | Some (OLong t) =>
               (Ok (Tensor (lshape t) ((λ n, inject_Z (Z.of_nat n))
                                         <$> ldata t)), w)
           | _ => (Raise (AttributeError "tolist"), w)
           end
       | _ => (Raise (AttributeError "tolist"), w)
       end.

Definition shrink : M unit :=
  old_aabb ← call1 SpaceAabb;
  new_aabb ← accel_call "try_shrink" AccelTryShrink;
  (* Rescale network *)
  call1 (NetRescaleVolume new_aabb);;
  (* Rescale acceleration struct *)
  accel_call "rescale_volume" (AccelRescaleVolume new_aabb);;
  (* Rescale space: always at the last step, since the old space is
     required by the previous steps *)
  call1 (SpaceRescaleVolume new_aabb);;
  old_rows ← tolist_rows old_aabb;
  new_rows ← tolist_rows new_aabb;
  call1 (LogInfo old_rows new_rows);;
  mret ().

Definition training_after_per_step (cur_it : Z) (skip_accel : bool)
  : M unit :=
  call1 (NetTrainingAfterPerStep cur_it);;
  s ← get_self;
  if negb skip_accel && bool_decide (accel s ≠ None)
  then
    (* Shrink according to actual occupied space. *)
    if bool_decide (cur_it ∈ shrink_milestones s)
    then shrink
    else mret ()
  else mret ().

(** The body of the [for k, v in extra_ray_data.items()] loop of
    [ray_test]. *)
Definition check_extra (n0 : nat) (kv : string * val) : M unit :=
  b ← is_tensor kv.2;
  if b : bool
  then
    sh ← get_shape kv.2;
    match sh with
    | [] => raise IndexError
    | n :: _ =>
        if decide (n = n0) then mret ()
        else raise (AssertionError
                      ("Expect `" +:+ kv.1
                         +:+ "` has the same shape prefix with rays_o "
                         +:+ pretty n0 +:+ ", but got " +:+ pretty n))
    end
  else mret ().

Fixpoint for_each {A} (f : A → M unit) (l : list A) : M unit :=
  match l with
  | [] => mret ()
  | a :: r => f a;; for_each f r
  end.

Definition ray_test (rays_o rays_d near far : val)
    (extra_ray_data : gmap string val) : M val :=
  so ← get_shape rays_o;
  if negb (bool_decide (length so = 2))
  then raise (AssertionError
                "Expect `rays_o` and `rays_d` to be of shape [N, 3]")
  else
    sd ← get_shape rays_d;
    if negb (bool_decide (length sd = 2))
    then raise (AssertionError
                  "Expect `rays_o` and `rays_d` to be of shape [N, 3]")
    else
      match so with
      | [] => raise IndexError
      | n0 :: _ =>
          for_each (check_extra n0) (map_to_list extra_ray_data);;
          call1 (SpaceRayTest rays_o rays_d near far extra_ray_data)
      end.

(** [ray_test] called with the entries of [ray_input] as keyword
    arguments. *)
Definition ray_test_kw (ray_input : val) : M val :=
  d ← get_dict ray_input;
  match d !! "rays_o", d !! "rays_d" with
  | Some rays_o, Some rays_d =>
      ray_test rays_o rays_d
        (default VNone (d !! "near")) (default VNone (d !! "far"))
        (delete "rays_o" (delete "rays_d"
           (delete "near" (delete "far" d))))
  | _, _ => raise (TypeError "missing required positional argument")
  end.
End mixin.

(** ** [ray_query] *)

Section ray_query.
Context `{FloatOps} `{Collaborators}.

(** [v == s] for a string literal [s]. *)
Definition str_eq (v : val) (s : string) : bool :=
  match v with
  | VStr s' => bool_decide (s' = s)
  | _ => false
  end.

(** [t.item()] *)
Definition item (v : val) : M val :=
  o ← load v;
  match o with
  | OTensor (Tensor _ [x]) => mret (VFloat x)
  | OLong (LTensor _ [n]) => mret (VInt (Z.of_nat n))
  | OTensor _ | OLong _ =>
      raise (RuntimeError "only one element tensors can be converted")
  | ODict _ => raise (AttributeError "item")
  end.

(** [1. / v] *)
Definition recip (v : val) : M val :=
  match v with
  | VFloat q =>
      if Qeq_bool q 0 then raise ZeroDivisionError
      else mret (VFloat (1 / q))
  | VInt n =>
      if (n =? 0)%Z then raise ZeroDivisionError
      else mret (VFloat (1 / inject_Z n))
  | VBool b =>
      if b then mret (VFloat 1) else raise ZeroDivisionError
  | _ => raise (TypeError "unsupported operand type(s) for /")
  end.

(** The [details] of a query that do not depend on the sampling. *)
Definition prepare_details (raw_ret forward_inv_s : val) : M val :=
  details ← alloc (ODict ∅);
  setitem raw_ret "details" details;;
  s ← get_self;
  (if bool_decide (accel s ≠ None)
      && from_option has_debug_stats false (accel s)
   then
     st ← accel_call "debug_stats" AccelDebugStats;
     setitem details "accel" st
   else mret ());;
  b ← is_tensor forward_inv_s;
  inv_s ← (if b : bool then item forward_inv_s else mret forward_inv_s);
  setitem details "inv_s" inv_s;;
  inv_s' ← getitem details "inv_s";
  sv ← recip inv_s';
  setitem details "s" sv;;
  (if has_lipshitz_bound s
   then
     lb ← call1 NetLipshitzBoundFull;
     lbv ← item lb;
     setitem details "radiance.lipshitz_bound" lbv
   else mret ());;
  mret details.

(** The zero-filled outputs of the per-object rendering. *)
Definition prepare_rendered (raw_ret ray_input with_rgb with_normal : val)
  : M val :=
  rays_o ← getitem ray_input "rays_o";
  sh ← get_shape rays_o;
  let prefix_rays := removelast sh in
  depth ← alloc (OTensor (Torch.zeros prefix_rays));
  mask ← alloc (OTensor (Torch.zeros prefix_rays));
  rendered ← alloc (ODict (<["depth_volume" := depth]>
                             (<["mask_volume" := mask]> ∅)));
  setitem raw_ret "rendered" rendered;;
  b_rgb ← truthy with_rgb;
  (if b_rgb : bool
   then
     t ← alloc (OTensor (Torch.zeros (prefix_rays ++ [3])));
     setitem rendered "rgb_volume" t
   else mret ());;
  b_normal ← truthy with_normal;
  (if b_normal : bool
   then
     t ← alloc (OTensor (Torch.zeros (prefix_rays ++ [3])));
     setitem rendered "normals_volume" t
   else mret ());;
  mret rendered.

(** The keywords that [ray_query] passes to a sampler by name;
    [forward_inv_s] is not passed to the sphere tracing. *)
Definition explicit_keywords (with_inv_s : bool) : list string :=
  ["with_rgb"; "with_normal"; "upsample_s_divisor"; "perturb"]
  ++ (if with_inv_s then ["forward_inv_s"] else []).

(** [**query_param] next to the keywords passed by name: a key that
    repeats one of them is a [TypeError] of the call expression. *)
Definition repeats_keyword (with_inv_s : bool)
    (query_param : gmap string val) : bool :=
  existsb (λ k, bool_decide (is_Some (query_param !! k)))
    (explicit_keywords with_inv_s).

(** The sampler selected by [query_mode].  The arguments of the call are
    evaluated first, [config.perturb] before [config.query_param]; the
    message of the last error holds the text of [query_mode] when it is a
    string (the text Python gives of another value is not modelled). *)
Definition dispatch (ray_tested config query_mode with_rgb with_normal
    forward_inv_s : val) : M (val * val) :=
  let sample (smp : sampler) (with_inv_s : bool) : M (val * val) :=
    s ← get_self;
    perturb ← getattr config "perturb";
    qp ← getattr config "query_param";
    query_param ← get_dict qp;
    if repeats_keyword with_inv_s query_param
    then raise (TypeError "got multiple values for keyword argument")
    else
      call_ext (Sample smp
                  (SamplerArgs ray_tested with_rgb with_normal
                     (upsample_s_divisor s) perturb
                     (if with_inv_s then Some forward_inv_s else None)
                     query_param)) in
  if str_eq query_mode "march_occ_multi_upsample"
  then sample neus_ray_query_march_occ_multi_upsample true
  else if str_eq query_mode "march_occ_multi_upsample_compressed"
  then sample neus_ray_query_march_occ_multi_upsample_compressed true
  else if str_eq query_mode "march_occ_multi_upsample_compressed_strategy"
  then raise NotImplementedError
  else if str_eq query_mode "coarse_multi_upsample"
  then sample neus_ray_query_coarse_multi_upsample true
  else if str_eq query_mode "march_occ"
  then raise NotImplementedError
  else if str_eq query_mode "sphere_trace"
  then sample neus_ray_query_sphere_trace false
  else raise (RuntimeError
                ("Invalid query_mode="
                   +:+ match query_mode with VStr s => s | _ => "" end)).

(** The [with_near_sdf] probe of the details. *)
Definition near_sdf_probe (ray_tested details : val) : M unit :=
  ro ← getitem ray_tested "rays_o";
  rays_o ← get_tensor ro;
  rd ← getitem ray_tested "rays_d";
  rays_d ← get_tensor rd;
  nr ← getitem ray_tested "near";
  near ← get_tensor nr;
  xt ← lift (Torch.addcmul rays_o rays_d (Torch.unsqueeze_last near));
  x ← alloc (OTensor xt);
  s ← get_self;
  kw1 ← (if use_ts s
         then ts ← getitem ray_tested "rays_ts";
              mret (<["ts" := ts]> (∅ : gmap string val))
         else mret ∅);
  kw2 ← (if use_fidx s
         then fidx ← getitem ray_tested "rays_fidx";
              mret (<["fidx" := fidx]> kw1)
         else mret kw1);
  ret ← forward_sdf x false kw2;
  sdf ← getitem ret "sdf";
  setitem details "near_sdf" sdf.

(** [rendered[key][rays_inds_hit] = vals] *)
Definition assign_rendered (rendered : val) (key : string)
    (inds : list nat) (vals : tensor) : M unit :=
  tgt ← getitem rendered key;
  t ← get_tensor tgt;
  t' ← lift (Torch.index_put t inds vals);
  store tgt (OTensor t').

(** [volume_buffer['nablas'].clamp_(-1,1)]: the tensor of the buffer is
    overwritten, and is the result of the expression. *)
Definition clamp_nablas_ (volume_buffer : val) : M tensor :=
  nb ← getitem volume_buffer "nablas";
  n ← get_tensor nb;
  let n' := Torch.clamp (-1) 1 n in
  store nb (OTensor n');;
  mret n'.

Definition buffer_tensor (volume_buffer : val) (key : string) : M tensor :=
  r ← getitem volume_buffer key; get_tensor r.

(** The [batched] branch of the per-object rendering.  No statement of
    [ray_query] writes to an index tensor, so the entries of
    [rays_inds_hit] are read once, at the first indexed assignment. *)
Definition render_batched (volume_buffer rendered : val)
    (rays_inds_hit : val) (depth_use_normalized_vw : val)
    (with_rgb with_normal : val) : M unit :=
  alpha ← buffer_tensor volume_buffer "opacity_alpha";
  vw ← lift (Graphics.ray_alpha_to_vw alpha);
  vwr ← alloc (OTensor vw);
  setitem volume_buffer "vw" vwr;;
  vw_sum ← lift (Torch.sum_last vw);
  inds ← get_index rays_inds_hit;
  assign_rendered rendered "mask_volume" inds vw_sum;;
  b_norm ← truthy depth_use_normalized_vw;
  (if b_norm : bool
   then
     vw_normalized ←
       lift (Torch.div vw
               (Torch.add_scalar (Torch.unsqueeze_last vw_sum)
                  (1 # 10000000000)));
     t ← buffer_tensor volume_buffer "t";
     d ← lift (p ← Torch.mul vw_normalized t; Torch.sum_last p);
     assign_rendered rendered "depth_volume" inds d
   else
     t ← buffer_tensor volume_buffer "t";
     d ← lift (p ← Torch.mul vw t; Torch.sum_last p);
     assign_rendered rendered "depth_volume" inds d);;
  b_rgb ← truthy with_rgb;
  (if b_rgb : bool
   then
     rgb ← buffer_tensor volume_buffer "rgb";
     c ← lift (p ← Torch.mul (Torch.unsqueeze_last vw) rgb;
               Torch.sum_penult p);
     assign_rendered rendered "rgb_volume" inds c
   else mret ());;
  b_normal ← truthy with_normal;
  if b_normal : bool
  then
    s ← get_self;
    if training s
    then
      nablas ← buffer_tensor volume_buffer "nablas";
      n ← lift (p ← Torch.mul (Torch.unsqueeze_last vw) nablas;
                Torch.sum_penult p);
      assign_rendered rendered "normals_volume" inds n
    else
      clamped ← clamp_nablas_ volume_buffer;
      n ← lift (u ← Functional.normalize clamped;
                p ← Torch.mul (Torch.unsqueeze_last vw) u;
                Torch.sum_penult p);
      assign_rendered rendered "normals_volume" inds n
  else mret ().

(** The [packed] branch of the per-object rendering. *)
Definition render_packed (volume_buffer rendered : val)
    (rays_inds_hit : val) (depth_use_normalized_vw : val)
    (with_rgb with_normal : val) : M unit :=
  pi ← getitem volume_buffer "pack_infos_hit";
  alpha ← buffer_tensor volume_buffer "opacity_alpha";
  pack_infos_hit ← get_pack_infos pi;
  let vw := Graphics.packed_alpha_to_vw alpha pack_infos_hit in
  vwr ← alloc (OTensor vw);
  setitem volume_buffer "vw" vwr;;
  vw_sum ← lift (Graphics.packed_sum (Torch.view_flat vw) pack_infos_hit);
  inds ← get_index rays_inds_hit;
  assign_rendered rendered "mask_volume" inds vw_sum;;
  b_norm ← truthy depth_use_normalized_vw;
  (if b_norm : bool
   then
     vw_normalized ←
       lift (Graphics.packed_div vw
               (Torch.add_scalar vw_sum (1 # 10000000000))
               pack_infos_hit);
     t ← buffer_tensor volume_buffer "t";
     d ← lift (p ← Torch.mul vw_normalized (Torch.view_flat t);
               Graphics.packed_sum p pack_infos_hit);
     assign_rendered rendered "depth_volume" inds d
   else
     t ← buffer_tensor volume_buffer "t";
     d ← lift (p ← Torch.mul (Torch.view_flat vw) (Torch.view_flat t);
               Graphics.packed_sum p pack_infos_hit);
     assign_rendered rendered "depth_volume" inds d);;
  b_rgb ← truthy with_rgb;
  (if b_rgb : bool
   then
     rgb ← buffer_tensor volume_buffer "rgb";
     c ← lift (v1 ← Torch.view_rows 1 vw;
               r3 ← Torch.view_rows 3 rgb;
               p ← Torch.mul v1 r3;
               Graphics.packed_sum p pack_infos_hit);
     assign_rendered rendered "rgb_volume" inds c
   else mret ());;
  b_normal ← truthy with_normal;
  if b_normal : bool
  then
    s ← get_self;
    if training s
    then
      nablas ← buffer_tensor volume_buffer "nablas";
      n ← lift (v1 ← Torch.view_rows 1 vw;
                n3 ← Torch.view_rows 3 nablas;
                p ← Torch.mul v1 n3;
                Graphics.packed_sum p pack_infos_hit);
      assign_rendered rendered "normals_volume" inds n
    else
      clamped ← clamp_nablas_ volume_buffer;
      n ← lift (v1 ← Torch.view_rows 1 vw;
                u ← Functional.normalize clamped;
                n3 ← Torch.view_rows 3 u;
                p ← Torch.mul v1 n3;
                Graphics.packed_sum p pack_infos_hit);
      assign_rendered rendered "normals_volume" inds n
  else mret ().

(** The per-object rendering of a sampled buffer. *)
Definition render_per_object (volume_buffer rendered config
    with_rgb with_normal : val) : M unit :=
  buffer_type ← getitem volume_buffer "type";
  if negb (str_eq buffer_type "empty")
  then
    rays_inds_hit ← getitem volume_buffer "rays_inds_hit";
    depth_use_normalized_vw ←
      cfg_get config "depth_use_normalized_vw" (VBool true);
    if str_eq buffer_type "batched"
    then
      render_batched volume_buffer rendered rays_inds_hit
        depth_use_normalized_vw with_rgb with_normal
    else if str_eq buffer_type "packed"
    then
      render_packed volume_buffer rendered rays_inds_hit
        depth_use_normalized_vw with_rgb with_normal
    else mret ()
  else mret ().

(** The locals of [ray_query] at the test [ray_tested['num_rays'] == 0]
    ([q_no_rays] is the value of that test). *)
Record locals := Locals {
  q_ray_tested : val;
  q_query_mode : val;
  q_with_rgb : val;
  q_with_normal : val;
  q_forward_inv_s : val;
  q_raw_ret : val;
  q_details : val;
  q_rendered : val;
  q_no_rays : bool
}.

(** [ray_query] up to and including the test for zero tested rays. *)
Definition ray_query_prepare (ray_input ray_tested config : val)
    (return_buffer return_details render_per_obj_individual : bool)
  : M locals :=
  (* Inputs *)
  ray_tested ←
    (match ray_tested with
     | VNone =>
         match ray_input with
         | VNone => raise (AssertionError "")
         | _ => ray_test_kw ray_input
         end
     | _ => mret ray_tested
     end);
  (* Shortcuts *)
  query_mode ← getattr config "query_mode";
  with_rgb ← getattr config "with_rgb";
  with_normal ← getattr config "with_normal";
  dflt_inv_s ← call1 NetForwardInvS;
  forward_inv_s ← cfg_get config "forward_inv_s" dflt_inv_s;
  (* Prepare outputs & compute outputs that are needed even when
     (num_rays==0) *)
  raw_ret ← alloc (ODict ∅);
  (if return_buffer
   then
     vb ← alloc (ODict (<["type" := VStr "empty"]>
                          (<["rays_inds_hit" := VList []]> ∅)));
     setitem raw_ret "volume_buffer" vb
   else mret ());;
  details ← (if return_details
             then prepare_details raw_ret forward_inv_s
             else mret VNone);
  rendered ← (if render_per_obj_individual
              then prepare_rendered raw_ret ray_input with_rgb with_normal
              else mret VNone);
  num_rays ← getitem ray_tested "num_rays";
  no_rays ← eq_zero num_rays;
  mret (Locals ray_tested query_mode with_rgb with_normal forward_inv_s
          raw_ret details rendered no_rays).

(** The sampled buffer and the details of the sampling, entered in the
    result: the first two steps of the section "Calc outputs". *)
Definition attach_buffer_and_details (q : locals) (config : val)
    (return_buffer return_details : bool)
    (volume_buffer query_details : val) : M unit :=
  (if return_buffer
   then setitem (q_raw_ret q) "volume_buffer" volume_buffer
   else mret ());;
  (if return_details
   then
     d ← get_dict (q_details q);
     qd ← get_dict query_details;
     store (q_details q) (ODict (qd ∪ d));;
     wns ← cfg_get config "with_near_sdf" (VBool false);
     b ← truthy wns;
     if b : bool
     then near_sdf_probe (q_ray_tested q) (q_details q)
     else mret ()
   else mret ()).

(** [ray_query] after the test, when some ray was tested: the sections
    "Ray query" and "Calc outputs". *)
Definition ray_query_finish (q : locals) (config : val)
    (return_buffer return_details render_per_obj_individual : bool)
  : M val :=
  (* Ray query *)
  '(volume_buffer, query_details) ←
    dispatch (q_ray_tested q) config (q_query_mode q) (q_with_rgb q)
      (q_with_normal q) (q_forward_inv_s q);
  (* Calc outputs *)
  attach_buffer_and_details q config return_buffer return_details
    volume_buffer query_details;;
  (if render_per_obj_individual
   then render_per_object volume_buffer (q_rendered q) config
          (q_with_rgb q) (q_with_normal q)
   else mret ());;
  mret (q_raw_ret q).

Definition ray_query (ray_input ray_tested config : val)
    (return_buffer return_details render_per_obj_individual : bool)
  : M val :=
  q ← ray_query_prepare ray_input ray_tested config
        return_buffer return_details render_per_obj_individual;
  if q_no_rays q
  then mret (q_raw_ret q)
  else ray_query_finish q config
         return_buffer return_details render_per_obj_individual.
End ray_query.

(** ** Properties of traces *)

(** In a sequence of calls, every rescale of the space comes after a
    rescale of the network and, after that one, a rescale of the
    acceleration structure, all three with the same bounds. *)
Definition rescales_in_order (evs : list call) : Prop :=
  ∀ i a, evs !! i = Some (SpaceRescaleVolume a) →
    ∃ j k, j < k ∧ k < i
           ∧ evs !! j = Some (NetRescaleVolume a)
           ∧ evs !! k = Some (AccelRescaleVolume a).

(** The calls of a [shrink] that runs to its end. *)
Definition shrink_calls (new_aabb : val) (old_rows new_rows : tensor)
  : list call :=
  [SpaceAabb; AccelTryShrink; NetRescaleVolume new_aabb;
   AccelRescaleVolume new_aabb; SpaceRescaleVolume new_aabb;
   LogInfo old_rows new_rows].

Definition is_accel_call (c : call) : bool :=
  match c with
  | AccelCollectSamples _ _ | AccelInit | AccelTrainingGranularity
  | AccelStep _ | AccelTryShrink | AccelRescaleVolume _
  | AccelDebugStats => true
  | _ => false
  end.

Definition is_sample_call (c : call) : bool :=
  match c with
  | Sample _ _ => true
  | _ => false
  end.

(** ** The shapes [ray_test] accepts *)

(** The shape of the tensor [v] refers to, if it is one. *)
Definition tensor_shape (h : list obj) (v : val) : option (list nat) :=
  match v with
  | VRef l =>
      match h !! l with
      | Some (OTensor t) => Some (shape t)
      | Some (OLong t) => Some (lshape t)
      | _ => None
      end
  | _ => None
  end.

(** An extra attribute passes the loop of [ray_test] when it is not a
    tensor, or a tensor whose first dimension is [n]. *)
Definition extra_passes (h : list obj) (n : nat) (kv : string * val)
  : bool :=
  match tensor_shape h kv.2 with
  | Some (m :: _) => bool_decide (m = n)
  | Some [] => false
  | None => true
  end.

(** What the assertions of [ray_test] let through: origins and
    directions of rank 2, and extras that pass. *)
Definition passes_ray_test (h : list obj) (rays_o rays_d : val)
    (extra : gmap string val) : bool :=
  match tensor_shape h rays_o, tensor_shape h rays_d with
  | Some [n; _], Some [_; _] =>
      forallb (extra_passes h n) (map_to_list extra)
  | _, _ => false
  end.

(** ** Query modes *)

(** The sampler behind a recognised and implemented query mode. *)
Definition sampler_of_mode (query_mode : val) : option sampler :=
  if str_eq query_mode "march_occ_multi_upsample"
  then Some neus_ray_query_march_occ_multi_upsample
  else if str_eq query_mode "march_occ_multi_upsample_compressed"
  then Some neus_ray_query_march_occ_multi_upsample_compressed
  else if str_eq query_mode "coarse_multi_upsample"
  then Some neus_ray_query_coarse_multi_upsample
  else if str_eq query_mode "sphere_trace"
  then Some neus_ray_query_sphere_trace
  else None.

(** The query modes that [ray_query] names and does not implement. *)
Definition declared_unimplemented (query_mode : val) : bool :=
  str_eq query_mode "march_occ_multi_upsample_compressed_strategy"
  || str_eq query_mode "march_occ".

(** The errors of the evaluation of the arguments of a sampler. *)
Definition argument_error (e : exn) : bool :=
  match e with
  | AttributeError _ | TypeError _ => true
  | _ => false
  end.

(** Whether [ray_query] passes [forward_inv_s] to the sampler: to all of
    them but the sphere tracing. *)
Definition takes_inv_s (smp : sampler) : bool :=
  match smp with
  | neus_ray_query_sphere_trace => false
  | _ => true
  end.

(** ** The outputs of the per-object rendering *)

(** The shape of the output [key] for a ray batch of shape [prefix]. *)
Definition out_shape (prefix : list nat) (key : string) : list nat :=
  if bool_decide (key = "depth_volume" ∨ key = "mask_volume")
  then prefix
  else prefix ++ [3].

(** The tensor under [key] of the dict [d], in the heap [h]. *)
Definition tensor_at (h : list obj) (d : gmap string val) (key : string)
  : option tensor :=
  match d !! key with
  | Some (VRef l) =>
      match h !! l with
      | Some (OTensor t) => Some t
      | _ => None
      end
  | _ => None
  end.

(** The dict [v] refers to. *)
Definition dict_at (h : list obj) (v : val) : option (gmap string val) :=
  match v with
  | VRef l =>
      match h !! l with
      | Some (ODict d) => Some d
      | _ => None
      end
  | _ => None
  end.

(** The arguments of the call of the sampler [smp], in the heap [h] and
    with the attributes [s] of [self], when they can be evaluated: the
    config has [perturb] and [query_param], and [query_param] is a dict
    that repeats no keyword passed by name. *)
Definition sampler_args_of (h : list obj) (s : self_state)
    (ray_tested config with_rgb with_normal forward_inv_s : val)
    (smp : sampler) : option sampler_args :=
  cd ← dict_at h config;
  perturb ← cd !! "perturb";
  qp ← cd !! "query_param";
  query_param ← dict_at h qp;
  if repeats_keyword (takes_inv_s smp) query_param then None
  else Some (SamplerArgs ray_tested with_rgb with_normal
               (upsample_s_divisor s) perturb
               (if takes_inv_s smp then Some forward_inv_s else None)
               query_param).

(** The rendered outputs as [prepare_rendered] leaves them in the heap
    [h]: [rendered] is a dict allocated from [lo] on, with a depth and a
    mask, and each of its entries is a tensor of zeros, allocated from
    [lo] on, over the shape of the ray batch. *)
Definition zero_outputs (h : list obj) (lo : nat) (rendered : val)
    (prefix : list nat) : Prop :=
  ∃ rl rd,
    rendered = VRef rl ∧ lo ≤ rl < length h ∧ h !! rl = Some (ODict rd)
    ∧ (∀ key v, rd !! key = Some v →
         ∃ tl, v = VRef tl ∧ lo ≤ tl < length h
               ∧ h !! tl = Some (OTensor (Torch.zeros (out_shape prefix key))))
    ∧ is_Some (rd !! "depth_volume") ∧ is_Some (rd !! "mask_volume").

(** The shape of the ray batch: [ray_input['rays_o'].shape[:-1]]. *)
Definition prefix_rays (h : list obj) (ray_input : val)
  : option (list nat) :=
  d ← dict_at h ray_input;
  ro ← d !! "rays_o";
  sh ← tensor_shape h ro;
  Some (removelast sh).

Definition no_sample_calls (evs : list call) : Prop :=
  Forall (λ c, is_sample_call c = false) evs.

(** From [base] on, the dicts of the heap [h] refer to objects from
    [base] on only. *)
Definition refs_above (base : nat) (h : list obj) : Prop :=
  ∀ l d k l', base ≤ l → h !! l = Some (ODict d) →
              d !! k = Some (VRef l') → base ≤ l'.

(** The volume buffer of an empty query. *)
Definition empty_buffer : gmap string val :=
  <["type" := VStr "empty"]> (<["rays_inds_hit" := VList []]> ∅).

(** The rows of a tensor along its first dimension. *)
Definition rows_of (t : tensor) : list (list Q) :=
  match shape t with
  | [] => []
  | n :: rest => Torch.chunks n (Torch.numel rest) (data t)
  end.

(** The tensor [t] has the shape [sh], and its rows at the indices outside
    [inds] are the rows of zeros it was initialised with. *)
Definition retains_zero (inds : list nat) (sh : list nat) (t : tensor)
  : Prop :=
  shape t = sh ∧ Torch.filled t
  ∧ ∀ i, i ∉ inds → rows_of t !! i = rows_of (Torch.zeros sh) !! i.

(** The index list that [v] stands for: a list of integers, or a long
    tensor of rank 1. *)
Definition index_of (h : list obj) (v : val) : option (list nat) :=
  match v with
  | VList l => Some l
  | VRef l =>
      match h !! l with
      | Some (OLong (LTensor [_] d)) => Some d
      | _ => None
      end
  | _ => None
  end.

(** The ray indices of the buffer [vb] that the rendering writes at: its
    [rays_inds_hit] when its type is [batched] or [packed], none
    otherwise. *)
Definition hit_indices (h : list obj) (vb : val) : list nat :=
  match dict_at h vb with
  | Some bd =>
      match bd !! "type" with
      | Some ty =>
          if str_eq ty "batched" || str_eq ty "packed"
          then default [] (bd !! "rays_inds_hit" ≫= index_of h)
          else []
      | None => []
      end
  | None => []
  end.

(** The objects allocated below [base], in a heap [h] that comes from
    the heap [h0]: the dicts are those of [h0], among them the outputs
    [rendered], whose entries are tensors over the shape of the ray batch
    that are zero outside [inds]. *)
Definition outputs_inv (base : nat) (inds prefix : list nat)
    (rendered : val) (h0 h : list obj) : Prop :=
  ∃ rl outs,
    rendered = VRef rl ∧ rl < base ∧ h0 !! rl = Some (ODict outs)
    ∧ (∀ l d, l < base → h0 !! l = Some (ODict d) →
              h !! l = Some (ODict d))
    ∧ ∀ key v, outs !! key = Some v →
        ∃ tl t, v = VRef tl ∧ tl < base ∧ h !! tl = Some (OTensor t)
                ∧ retains_zero inds (out_shape prefix key) t.

(** What holds of the heap [h] all through the per-object rendering of
    the buffer at [vbl]: the buffer was allocated from [base] on, with its
    type [ty] and its [rays_inds_hit]; the dicts from [base] on refer to
    objects from [base] on; and below [base] the dicts are those of the
    heap [h0] at the start, and the outputs are still zero outside of the
    index list, once it has been read ([oi]). *)
Definition render_inv (base : nat) (prefix : list nat) (rendered : val)
    (h0 : list obj) (vbl : nat) (ty riv : val)
    (oi : option (list nat)) (h : list obj) : Prop :=
  base ≤ length h ∧ base ≤ vbl ∧ refs_above base h
  ∧ (∃ bd, h !! vbl = Some (ODict bd) ∧ bd !! "type" = Some ty
           ∧ bd !! "rays_inds_hit" = Some riv)
  ∧ match oi with
    | Some inds =>
        index_of h riv = Some inds
        ∧ outputs_inv base inds prefix rendered h0 h
    | None => ∀ inds, outputs_inv base inds prefix rendered h0 h
    end.


(** ** The state of a rendering *)

(** The entries of the outputs are separate tensors. *)
Definition distinct_outputs (outs : gmap string val) : Prop :=
  ∀ k k' tl, outs !! k = Some (VRef tl) → outs !! k' = Some (VRef tl) →
             k = k'.

(** The outputs of a rendering, in the heap [h] it starts in: a dict
    [outs], allocated at [rl] below [base], of tensors allocated below
    [base]. *)
Definition outputs_wf (base rl : nat) (outs : gmap string val)
    (h : list obj) : Prop :=
  rl < base ∧ h !! rl = Some (ODict outs)
  ∧ ∀ key v, outs !! key = Some v →
      ∃ tl t, v = VRef tl ∧ tl < base ∧ h !! tl = Some (OTensor t).

(** The buffer of a rendering, in the heap [h] it starts in: a dict [bd]
    allocated from [base] on, that refers to allocated objects from
    [base] on. *)
Definition buffer_wf (base : nat) (vbl : nat) (bd : gmap string val)
    (h : list obj) : Prop :=
  base ≤ vbl ∧ h !! vbl = Some (ODict bd)
  ∧ ∀ k l, bd !! k = Some (VRef l) → base ≤ l < length h.

(** The indexed assignments [rendered[key][inds] = vals] of a log, in
    order, on the tensor [t0] of the output [key]. *)
Definition replay (log : list (string * list nat * tensor)) (key : string)
    (t0 : tensor) : outcome tensor :=
  foldl (λ acc e,
           t ← acc;
           if String.eqb e.1.1 key then Torch.index_put t e.1.2 e.2
           else Ok t)
    (Ok t0) log.

(** The output [key] in the heap [h'] is what the assignment
    [rendered[key][inds] = vals] makes of the output in the heap [h]. *)
Definition scattered (h h' : list obj) (outs : gmap string val)
    (key : string) (inds : list nat) (vals : tensor) : Prop :=
  ∃ old new,
    tensor_at h outs key = Some old
    ∧ Torch.index_put old inds vals = Ok new
    ∧ tensor_at h' outs key = Some new.

Section render_state.
Variables (base : nat) (outs : gmap string val) (vbl : nat)
  (bd0 : gmap string val) (h0 : list obj).

(** The heap [h] of a rendering that started in the heap [h0], after the
    indexed assignments of [log], with the buffer dict now [bdn], with the
    tensors [news] allocated since the start, and with the tensor at [cl]
    clamped. *)
Definition render_st (log : list (string * list nat * tensor))
    (bdn : gmap string val) (cl : option nat) (news : list tensor)
    (h : list obj) : Prop :=
  length h = length h0 + length news
  ∧ h !! vbl = Some (ODict bdn)
  ∧ (∀ k, k ≠ "vw" → bdn !! k = bd0 !! k)
  ∧ (∀ key tl, outs !! key = Some (VRef tl) →
       ∃ t, h !! tl = Some (OTensor t))
  ∧ (distinct_outputs outs →
     ∀ key tl t0, outs !! key = Some (VRef tl) →
       h0 !! tl = Some (OTensor t0) →
       ∃ t, replay log key t0 = Ok t ∧ h !! tl = Some (OTensor t))
  ∧ (∀ l, l < base →
       (∃ key, outs !! key = Some (VRef l)) ∨ h !! l = h0 !! l)
  ∧ (∀ l, base ≤ l < length h0 → l ≠ vbl → cl ≠ Some l →
          h !! l = h0 !! l)
  ∧ (∀ i t, news !! i = Some t →
            h !! (length h0 + i) = Some (OTensor t))
  ∧ (∀ nl, cl = Some nl →
       base ≤ nl < length h0 ∧ bd0 !! "nablas" = Some (VRef nl)
       ∧ ∃ n0, h0 !! nl = Some (OTensor n0)
               ∧ h !! nl = Some (OTensor (Torch.clamp (-1) 1 n0))).
End render_state.

(** ** What the training hooks do to [self] *)

(** The attributes of [self] that the hooks of the training loop do not
    assign: all of them but [it] and [upsample_s_divisor]. *)
Definition same_config (s s' : self_state) : Prop :=
  training s' = training s ∧ accel s' = accel s
  ∧ shrink_milestones s' = shrink_milestones s
  ∧ use_ts s' = use_ts s ∧ use_fidx s' = use_fidx s
  ∧ has_lipshitz_bound s' = has_lipshitz_bound s.

(** ** The outputs a rendering assigns *)

(** The outputs that a rendering with colours ([br]) and normals ([bm])
    assigns. *)
Definition written_outputs (br bm : bool) : list string :=
  ["mask_volume"; "depth_volume"]
    ++ (if br then ["rgb_volume"] else [])
    ++ (if bm then ["normals_volume"] else []).

(** ** Checks on a given heap

    The conditions on the outputs and on the buffer of a rendering, as
    tests on a heap and a dict that are given. *)

(** The tensor an entry of the outputs refers to. *)
Definition output_ref (kv : string * val) : option nat :=
  match kv.2 with
  | VRef l => Some l
  | _ => None
  end.

(** An entry of the outputs refers to a tensor allocated below [base]. *)
Definition output_ok (base : nat) (h : list obj) (kv : string * val)
  : bool :=
  match kv.2 with
  | VRef tl =>
      (tl <? base)
      && match h !! tl with Some (OTensor _) => true | _ => false end
  | _ => false
  end.

(** An entry of the buffer that is a reference refers to an object
    allocated from [base] on. *)
Definition buffer_ref_ok (base : nat) (h : list obj) (kv : string * val)
  : bool :=
  match kv.2 with
  | VRef l => (base <=? l) && (l <? length h)
  | _ => true
  end.

(** ** The calls of a query *)

(** The calls [ray_query] makes before the sampling ... *)
Definition prepare_call (c : call) : bool :=
  match c with
  | SpaceRayTest _ _ _ _ _ | NetForwardInvS | AccelDebugStats
  | NetLipshitzBoundFull => true
  | _ => false
  end.

(** ... the same without the ray test ... *)
Definition shortcut_call (c : call) : bool :=
  match c with
  | NetForwardInvS | AccelDebugStats | NetLipshitzBoundFull => true
  | _ => false
  end.

(** ... and the calls it makes after the sampling. *)
Definition probe_call (c : call) : bool :=
  match c with
  | NetForwardSdf _ _ | AccelCollectSamples _ _ => true
  | _ => false
  end.

(** A computation leaves [self] as it is, and only makes calls that
    satisfy [P], whether it returns or raises. *)
Definition only_calls (P : call → bool) {A} (m : M A) : Prop :=
  ∀ w, self (m w).2 = self w
       ∧ ∃ evs, trace (m w).2 = trace w ++ evs ∧ Forall (λ c, P c = true) evs.

(** A computation leaves [self] as it is and calls one sampler, or
    nothing. *)
Definition samples_once {A} (m : M A) : Prop :=
  ∀ w, self (m w).2 = self w
       ∧ ∃ smp, trace (m w).2 = trace w ++ smp
                ∧ (smp = [] ∨ ∃ s args, smp = [Sample s args]).

(** ** The details of a query *)

(** The number a Python scalar stands for. *)
Definition number_of (v : val) : option Q :=
  match v with
  | VFloat q => Some q
  | VInt n => Some (inject_Z n)
  | VBool b => Some (if b then 1 else 0)%Q
  | _ => None
  end.

(** [v.item() if isinstance(v, torch.Tensor) else v], when it has a
    value. *)
Definition item_or_self (h : list obj) (v : val) : option val :=
  match v with
  | VRef l =>
      match h !! l with
      | Some (OTensor (Tensor _ [x])) => Some (VFloat x)
      | Some (OLong (LTensor _ [n])) => Some (VInt (Z.of_nat n))
      | Some (OTensor _) | Some (OLong _) => None
      | _ => Some v
      end
  | _ => Some v
  end.


(** ** The result of a query *)

(** The keys of the result of a query, for what was asked for. *)
Definition result_keys (return_buffer return_details
    render_per_obj_individual : bool) : list string :=
  (if return_buffer then ["volume_buffer"] else [])
    ++ (if return_details then ["details"] else [])
    ++ (if render_per_obj_individual then ["rendered"] else []).

(** A computation leaves every dict of the heap as it is, but the one
    [vb] refers to, whether it returns or raises. *)
Definition keeps_dicts (vb : val) {A} (m : M A) : Prop :=
  ∀ w l d, vb ≠ VRef l → heap w !! l = Some (ODict d) →
           heap (m w).2 !! l = Some (ODict d).

(** ** A concrete scene

    Collaborators with fixed answers, to run the methods on. *)

Module Scene.

(** A square root on rationals: exact on squares of rationals, rounded
    down on the numerator and denominator otherwise. *)
Definition qsqrt (q : Q) : Q :=
  let r := Qred q in Z.sqrt (Qnum r) # Pos.sqrt (Qden r).

Definition floats : FloatOps := {| fsqrt := qsqrt; fpow2 := λ q, q |}.

(** The bounds [[-1,-1,-1],[1,1,1]] and the tighter bounds the
    acceleration structure proposes. *)
Definition aabb_old : tensor := Tensor [2; 3] [-1; -1; -1; 1; 1; 1]%Q.
Definition aabb_new : tensor :=
  Tensor [2; 3] [-(1#2); -(1#2); -(1#2); 1#2; 1#2; 1#2]%Q.

Definition answer (o : obj) : fragment := Fragment [o] (VRef 0) VNone.
Definition nothing : fragment := Fragment [] VNone VNone.

(** Two rays hit, the first and the third of the batch, with two samples
    each.  The same samples in the batched layout ... *)
Definition batched_buffer : fragment :=
  Fragment
    [ OLong (LTensor [2] [0; 2]);
      OTensor (Tensor [2; 2] [1#2; 1#2; 1#4; 1]%Q);
      OTensor (Tensor [2; 2] [1; 2; 3; 4]%Q);
      OTensor (Tensor [2; 2; 3]
                 [1; 0; 0;  0; 1; 0;  0; 0; 1;  1; 1; 1]%Q);
      OTensor (Tensor [2; 2; 3]
                 [35#16; 3#4; 0;  0; 2; 0;  0; 0; 1;  3; 4; 0]%Q);
      ODict (<["type" := VStr "batched"]>
               (<["rays_inds_hit" := VRef 0]>
                  (<["opacity_alpha" := VRef 1]>
                     (<["t" := VRef 2]>
                        (<["rgb" := VRef 3]>
                           (<["nablas" := VRef 4]> ∅))))));
      ODict ∅ ]
    (VRef 5) (VRef 6).

(** ... and in the packed layout. *)
Definition packed_buffer : fragment :=
  Fragment
    [ OLong (LTensor [2] [0; 2]);
      OTensor (Tensor [4] [1#2; 1#2; 1#4; 1]%Q);
      OTensor (Tensor [4] [1; 2; 3; 4]%Q);
      OTensor (Tensor [4; 3]
                 [1; 0; 0;  0; 1; 0;  0; 0; 1;  1; 1; 1]%Q);
      OTensor (Tensor [4; 3]
                 [35#16; 3#4; 0;  0; 2; 0;  0; 0; 1;  3; 4; 0]%Q);
      OLong (LTensor [2; 2] [0; 2; 2; 2]);
      ODict (<["type" := VStr "packed"]>
               (<["rays_inds_hit" := VRef 0]>
                  (<["pack_infos_hit" := VRef 5]>
                     (<["opacity_alpha" := VRef 1]>
                        (<["t" := VRef 2]>
                           (<["rgb" := VRef 3]>
                              (<["nablas" := VRef 4]> ∅)))))));
      ODict ∅ ]
    (VRef 6) (VRef 7).

(** No ray hit. *)
Definition no_hit_buffer : fragment :=
  Fragment [ ODict empty_buffer; ODict ∅ ] (VRef 0) (VRef 1).

Definition collaborators : Collaborators := {|
  respond := λ w c,
    match c with
    | SpaceAabb => Ok (answer (OTensor aabb_old))
    | AccelTryShrink => Ok (answer (OTensor aabb_new))
    | NetForwardInvS => Ok (Fragment [] (VFloat 64) VNone)
    | Sample neus_ray_query_coarse_multi_upsample _ => Ok batched_buffer
    | Sample neus_ray_query_sphere_trace _ => Ok no_hit_buffer
    | Sample _ _ => Ok packed_buffer
    | _ => Ok nothing
    end
|}.

Definition self_no_accel : self_state :=
  SelfState true None (VFloat 1) None [] false false false.

Definition self_with_accel : self_state :=
  SelfState true (Some (AccelHandle false)) (VFloat 1) None [] false false
    false.

(** The module in evaluation mode ([self.training] is false). *)
Definition self_inference : self_state :=
  SelfState false None (VFloat 1) None [] false false false.

(** Two rays given with four columns instead of three. *)
Definition rays_four_columns : list obj :=
  [ OTensor (Tensor [2; 4] [0; 0; 0; 0; 0; 0; 0; 0]%Q);
    OTensor (Tensor [2; 4] [0; 0; 1; 0; 0; 1; 0; 0]%Q) ].

(** The objects of a query: three rays, the dict of the input rays, the
    dict of the tested rays with its [num_rays], the config with its
    [query_mode], and the empty [query_param]. *)
Definition query_heap (query_mode : string) (num_rays : Z) : list obj :=
  [ OTensor (Torch.zeros [3; 3]);
    ODict (<["rays_o" := VRef 0]> ∅);
    ODict (<["num_rays" := VInt num_rays]> ∅);
    ODict (<["query_mode" := VStr query_mode]>
             (<["with_rgb" := VBool true]>
                (<["with_normal" := VBool true]>
                   (<["perturb" := VBool false]>
                      (<["query_param" := VRef 4]> ∅)))));
    ODict ∅ ].

Definition ray_input : val := VRef 1.
Definition ray_tested : val := VRef 2.
Definition config : val := VRef 3.

Definition query_world (query_mode : string) (num_rays : Z) (s : self_state)
  : world :=
  World (query_heap query_mode num_rays) [] s.

End Scene.

(** ** A scene in training

    A module in training mode with an acceleration structure, whose
    network answers the SDF queries with two values. *)

Module TrainingScene.

(** The answer of the network to [forward_sdf]: a dict with the entry
    [sdf]. *)
Definition sdf_answer : fragment :=
  Fragment
    [ OTensor (Tensor [2] [1#2; -(1#4)]%Q);
      ODict (<["sdf" := VRef 0]> ∅) ]
    (VRef 1) VNone.

Definition collaborators : Collaborators := {|
  respond := λ w c,
    match c with
    | NetForwardSdf _ _ | NetForwardSdfNablas _ _ => Ok sdf_answer
    | NetTrainingInitialize _ => Ok (Fragment [] (VBool true) VNone)
    | AccelTrainingGranularity => Ok (Fragment [] (VInt 3) VNone)
    | SpaceAabb => Ok (Scene.answer (OTensor Scene.aabb_old))
    | AccelTryShrink => Ok (Scene.answer (OTensor Scene.aabb_new))
    | _ => Ok Scene.nothing
    end
|}.

(** Training, with an acceleration structure, and the volume shrunk at
    the iterations 100 and 200. *)
Definition self_training : self_state :=
  SelfState true (Some (AccelHandle false)) (VFloat 1) None [100; 200]%Z
    false false false.

(** Two points to query, and an empty config. *)
Definition points : val := VRef 0.
Definition config : val := VRef 1.

Definition world : world :=
  World [ OTensor (Tensor [2; 3] [0; 0; 0; 1; 1; 1]%Q); ODict ∅ ] []
    self_training.

End TrainingScene.

(** ** A scene for the probe at the near bound *)

Module ProbeScene.
(** Two tested rays with their near bounds, and the details of a
    query. *)
Definition ray_tested : val := VRef 3.
Definition details : val := VRef 4.

End ProbeScene.

(** ** A scene for the test of the input rays *)

Module InputScene.

(** The space tests the rays and finds that none meets it. *)
Definition collaborators : Collaborators := {|
  respond := λ w c,
    match c with
    | SpaceRayTest _ _ _ _ _ =>
        Ok (Fragment [ODict (<["num_rays" := VInt 0]> ∅)] (VRef 0) VNone)
    | NetForwardInvS => Ok (Fragment [] (VFloat 64) VNone)
    | _ => Ok Scene.nothing
    end
|}.

(** Two rays with their near bounds and pixel indices, and a config. *)
Definition ray_input : val := VRef 3.
Definition config : val := VRef 4.

Definition world : world :=
  World [ OTensor (Tensor [2; 3] [0; 0; 0; 1; 1; 1]%Q);
          OTensor (Tensor [2; 3] [0; 0; 1; 0; 1; 0]%Q);
          OTensor (Tensor [2] [1#2; 2]%Q);
          ODict (<["rays_o" := VRef 0]>
                   (<["rays_d" := VRef 1]>
                      (<["near" := VRef 2]>
                         (<["rays_pix" := VRef 2]> ∅))));
          ODict (<["query_mode" := VStr "coarse_multi_upsample"]>
                   (<["with_rgb" := VBool false]>
                      (<["with_normal" := VBool false]> ∅))) ]
    [] Scene.self_no_accel.

End InputScene.

(** ** A scene for the probe of a query

    The objects of a query by sphere tracing, which finds no hit in the
    scene above. *)

Module NearScene.
(** Two tested rays that come without their origins, and a config that
    asks for the SDF at the near bound. *)
Definition ray_input : val := VRef 1.
Definition ray_tested : val := VRef 2.
Definition config : val := VRef 3.

Definition world : world :=
  World [ OTensor (Torch.zeros [3; 3]);
          ODict (<["rays_o" := VRef 0]> ∅);
          ODict (<["num_rays" := VInt 2]> ∅);
          ODict (<["query_mode" := VStr "sphere_trace"]>
                   (<["with_rgb" := VBool true]>
                      (<["with_normal" := VBool true]>
                         (<["perturb" := VBool false]>
                            (<["query_param" := VRef 4]>
                               (<["with_near_sdf" := VBool true]> ∅))))));
          ODict ∅ ]
    [] Scene.self_no_accel.
End NearScene.

(** ** Running computations *)

Section running.
Context `{FloatOps} `{Collaborators}.

Lemma bind_ok {A B} (m : M A) (f : A → M B) w a w1 :
  m w = (Ok a, w1) → (m ≫= f) w = f a w1.
Proof. intros E. unfold mbind, M_bind. by rewrite E. Qed.

Lemma bind_raise {A B} (m : M A) (f : A → M B) w e w1 :
  m w = (Raise e, w1) → (m ≫= f) w = (Raise e, w1).
Proof. intros E. unfold mbind, M_bind. by rewrite E. Qed.

Lemma bind_cases {A B} (m : M A) (f : A → M B) w r w' :
  (m ≫= f) w = (r, w') →
  (∃ a w1, m w = (Ok a, w1) ∧ f a w1 = (r, w'))
  ∨ (∃ e, m w = (Raise e, w') ∧ r = Raise e).
Proof.
  unfold mbind, M_bind. destruct (m w) as [[a|e] w1]; intros E.
  - left. eauto.
  - right. exists e. by inversion E.
Qed.

Lemma call1_inv c w r w' :
  call1 c w = (r, w') →
  trace w' = trace w ++ [c] ∧ self w' = self w
  ∧ ∃ ext, heap w' = heap w ++ ext.
Proof.
  unfold call1, call_ext, mbind, M_bind, mret, M_ret.
  destruct (respond w c); intros E; inversion E; subst; simpl;
    (split; [done|]); (split; [done|]).
  - eauto.
  - exists []. by rewrite app_nil_r.
Qed.

Lemma accel_call_inv attr c w r w' :
  accel_call attr c w = (r, w') →
  (accel (self w) = None ∧ r = Raise (AttributeError attr) ∧ w' = w)
  ∨ (accel (self w) ≠ None ∧ call1 c w = (r, w')).
Proof.
  unfold accel_call, get_self, raise. unfold mbind at 1, M_bind at 1.
  destruct (accel (self w)); intros E.
  - right. done.
  - left. by inversion E.
Qed.

Lemma tolist_rows_inv v w r w' : tolist_rows v w = (r, w') → w' = w.
Proof. unfold tolist_rows. repeat case_match; by inversion 1. Qed.
End running.

Ltac bind_inv E :=
  let a := fresh "a" in
  let w1 := fresh "w" in
  let E1 := fresh "E" in
  let e := fresh "e" in
  apply bind_cases in E as [(a & w1 & E1 & E) | (e & E1 & ->)].

(** ** Computations that only read *)

Definition reads {A} (m : M A) : Prop := ∀ w, (m w).2 = w.

Section reads.
Context `{FloatOps} `{Collaborators}.

Lemma reads_inv {A} (m : M A) w r w' : reads m → m w = (r, w') → w' = w.
Proof. intros Hm E. specialize (Hm w). by rewrite E in Hm. Qed.

Lemma reads_ret {A} (a : A) : reads (mret a).
Proof. done. Qed.

Lemma reads_raise {A} e : reads (@raise A e).
Proof. done. Qed.

Lemma reads_lift {A} (o : outcome A) : reads (lift o).
Proof. done. Qed.

Lemma reads_bind {A B} (m : M A) (f : A → M B) :
  reads m → (∀ a, reads (f a)) → reads (m ≫= f).
Proof.
  intros Hm Hf w. unfold mbind, M_bind. specialize (Hm w).
  destruct (m w) as [[a|e] w1]; simpl in *; subst; [apply Hf|done].
Qed.

Lemma reads_get_self : reads get_self.
Proof. done. Qed.

Lemma reads_load v : reads (load v).
Proof. intros w. unfold load. by repeat case_match. Qed.

Lemma reads_is_tensor v : reads (is_tensor v).
Proof. intros w. unfold is_tensor. by repeat case_match. Qed.

Lemma reads_get_shape v : reads (get_shape v).
Proof. intros w. unfold get_shape. by repeat case_match. Qed.

Lemma reads_get_dict v : reads (get_dict v).
Proof.
  apply reads_bind; [apply reads_load|]. intros []; done.
Qed.

Lemma reads_get_tensor v : reads (get_tensor v).
Proof.
  apply reads_bind; [apply reads_load|]. intros []; done.
Qed.

Lemma reads_getitem v k : reads (getitem v k).
Proof.
  apply reads_bind; [apply reads_get_dict|]. intros d. by case_match.
Qed.

Lemma reads_getattr v k : reads (getattr v k).
Proof.
  apply reads_bind; [apply reads_get_dict|]. intros d. by case_match.
Qed.

Lemma reads_cfg_get v k d : reads (cfg_get v k d).
Proof. apply reads_bind; [apply reads_get_dict|]. done. Qed.

Lemma reads_truthy v : reads (truthy v).
Proof.
  destruct v; try done. apply reads_bind; [apply reads_load|].
  intros o. by repeat case_match.
Qed.

Lemma reads_eq_zero v : reads (eq_zero v).
Proof.
  destruct v; try done;
    try (apply reads_bind; [apply reads_truthy|done]).
  apply reads_bind; [apply reads_load|].
  intros []; try done; (apply reads_bind; [apply reads_truthy|done]).
Qed.

Lemma reads_get_index v : reads (get_index v).
Proof.
  destruct v; try done;
    (apply reads_bind; [apply reads_load|]; intros o;
     by repeat case_match).
Qed.

Lemma reads_get_pack_infos v : reads (get_pack_infos v).
Proof.
  apply reads_bind; [apply reads_load|]. intros []; done.
Qed.

Lemma reads_item v : reads (item v).
Proof.
  apply reads_bind; [apply reads_load|]. intros o. by repeat case_match.
Qed.

Lemma reads_recip v : reads (recip v).
Proof. destruct v; try done; simpl; by case_match. Qed.

Lemma reads_buffer_tensor v k : reads (buffer_tensor v k).
Proof.
  apply reads_bind; [apply reads_getitem|]. intros; apply reads_get_tensor.
Qed.

Lemma reads_tolist_rows v : reads (tolist_rows v).
Proof. intros w. unfold tolist_rows. by repeat case_match. Qed.

Lemma reads_check_extra n kv : reads (check_extra n kv).
Proof.
  apply reads_bind; [apply reads_is_tensor|]. intros []; [|done].
  apply reads_bind; [apply reads_get_shape|]. intros [|m ?]; [done|].
  by case_decide.
Qed.

Lemma reads_for_each {A} (f : A → M unit) l :
  (∀ a, reads (f a)) → reads (for_each f l).
Proof.
  intros Hf. induction l as [|a l IH]; [done|].
  simpl. apply reads_bind; [apply Hf|done].
Qed.
End reads.

Create HintDb reads.

Global Hint Resolve reads_ret reads_raise reads_lift reads_get_self
  reads_load reads_is_tensor reads_get_shape reads_get_dict
  reads_get_tensor reads_getitem reads_getattr reads_cfg_get reads_truthy
  reads_eq_zero reads_get_index reads_get_pack_infos reads_item
  reads_recip reads_buffer_tensor reads_tolist_rows reads_check_extra
  : reads.

(** ** Shapes *)

Section shapes.
Context `{FloatOps} `{Collaborators}.

Lemma get_shape_run v w :
  get_shape v w
  = match tensor_shape (heap w) v with
    | Some s => (Ok s, w)
    | None => (Raise (AttributeError "shape"), w)
    end.
Proof. unfold get_shape, tensor_shape. by repeat case_match. Qed.

Lemma is_tensor_run v w :
  is_tensor v w
  = (Ok (bool_decide (is_Some (tensor_shape (heap w) v))), w).
Proof.
  unfold is_tensor, tensor_shape.
  repeat case_match; simplify_eq; try done;
    rewrite bool_decide_eq_false_2; try done; by intros [? ?].
Qed.

Lemma get_shape_ok_inv v w s w' :
  get_shape v w = (Ok s, w') → w' = w ∧ tensor_shape (heap w) v = Some s.
Proof.
  rewrite get_shape_run. destruct (tensor_shape (heap w) v); by inversion 1.
Qed.
End shapes.

(** ** What a successful step tells *)

(** Two worlds that differ in the heap only. *)
Definition same_calls (w w' : world) : Prop :=
  trace w' = trace w ∧ self w' = self w.

Section inversion.
Context `{FloatOps} `{Collaborators}.

Lemma bind_ok_inv {A B} (m : M A) (f : A → M B) w b w' :
  (m ≫= f) w = (Ok b, w') →
  ∃ a w1, m w = (Ok a, w1) ∧ f a w1 = (Ok b, w').
Proof.
  intros E. apply bind_cases in E as [(a & w1 & ? & ?)|(e & _ & ?)];
    [eauto|done].
Qed.

Lemma mret_inv {A} (a : A) w r w' :
  mret (M := M) a w = (r, w') → r = Ok a ∧ w' = w.
Proof. by inversion 1. Qed.

Lemma raise_inv {A} e w (a : A) w' : raise e w = (Ok a, w') → False.
Proof. by inversion 1. Qed.

Lemma lift_inv {A} (o : outcome A) w r w' :
  lift o w = (r, w') → r = o ∧ w' = w.
Proof. by inversion 1. Qed.

Lemma get_self_inv w r w' :
  get_self w = (r, w') → r = Ok (self w) ∧ w' = w.
Proof. by inversion 1. Qed.

Lemma alloc_inv o w r w' :
  alloc o w = (r, w') →
  r = Ok (VRef (length (heap w))) ∧ heap w' = heap w ++ [o]
  ∧ same_calls w w'.
Proof. by inversion 1. Qed.

Lemma load_inv v w o w' :
  load v w = (Ok o, w') → w' = w ∧ ∃ l, v = VRef l ∧ heap w !! l = Some o.
Proof.
  unfold load. destruct v; try by inversion 1.
  destruct (heap w !! l) eqn:E; inversion 1; subst. eauto.
Qed.

Lemma store_inv v o w u w' :
  store v o w = (Ok u, w') →
  ∃ l, v = VRef l ∧ heap w' = <[l := o]> (heap w) ∧ same_calls w w'.
Proof. unfold store. destruct v; inversion 1; subst. by eexists. Qed.

Lemma get_dict_inv v w d w' :
  get_dict v w = (Ok d, w') →
  w' = w ∧ ∃ l, v = VRef l ∧ heap w !! l = Some (ODict d).
Proof.
  unfold get_dict. intros E.
  apply bind_ok_inv in E as (o & w1 & E1 & E2).
  apply load_inv in E1 as (-> & l & -> & Hl).
  destruct o; inversion E2; subst. eauto.
Qed.

Lemma get_tensor_inv v w t w' :
  get_tensor v w = (Ok t, w') →
  w' = w ∧ ∃ l, v = VRef l ∧ heap w !! l = Some (OTensor t).
Proof.
  unfold get_tensor. intros E.
  apply bind_ok_inv in E as (o & w1 & E1 & E2).
  apply load_inv in E1 as (-> & l & -> & Hl).
  destruct o; inversion E2; subst. eauto.
Qed.

Lemma getitem_inv v k w x w' :
  getitem v k w = (Ok x, w') →
  w' = w ∧ ∃ l d, v = VRef l ∧ heap w !! l = Some (ODict d)
                   ∧ d !! k = Some x.
Proof.
  unfold getitem. intros E.
  apply bind_ok_inv in E as (d & w1 & E1 & E2).
  apply get_dict_inv in E1 as (-> & l & -> & Hl).
  destruct (d !! k) eqn:Ek; inversion E2; subst. eauto 10.
Qed.

Lemma getattr_inv v k w x w' :
  getattr v k w = (Ok x, w') →
  w' = w ∧ ∃ l d, v = VRef l ∧ heap w !! l = Some (ODict d)
                   ∧ d !! k = Some x.
Proof.
  unfold getattr. intros E.
  apply bind_ok_inv in E as (d & w1 & E1 & E2).
  apply get_dict_inv in E1 as (-> & l & -> & Hl).
  destruct (d !! k) eqn:Ek; inversion E2; subst. eauto 10.
Qed.

Lemma cfg_get_inv v k dflt w x w' :
  cfg_get v k dflt w = (Ok x, w') →
  w' = w ∧ ∃ l d, v = VRef l ∧ heap w !! l = Some (ODict d)
                   ∧ x = default dflt (d !! k).
Proof.
  unfold cfg_get. intros E.
  apply bind_ok_inv in E as (d & w1 & E1 & E2).
  apply get_dict_inv in E1 as (-> & l & -> & Hl).
  inversion E2; subst. eauto 10.
Qed.

Lemma setitem_inv v k x w u w' :
  setitem v k x w = (Ok u, w') →
  ∃ l d, v = VRef l ∧ heap w !! l = Some (ODict d)
         ∧ heap w' = <[l := ODict (<[k := x]> d)]> (heap w)
         ∧ same_calls w w'.
Proof.
  unfold setitem. intros E.
  apply bind_ok_inv in E as (d & w1 & E1 & E2).
  apply get_dict_inv in E1 as (-> & l & -> & Hl).
  apply store_inv in E2 as (l' & ? & ? & ?). simplify_eq. eauto 10.
Qed.

Lemma call_ext_inv c w r w' :
  call_ext c w = (Ok r, w') →
  ∃ f, respond w c = Ok f
       ∧ r = (shift_val (length (heap w)) (f_val f),
              shift_val (length (heap w)) (f_aux f))
       ∧ heap w' = heap w ++ (shift_obj (length (heap w)) <$> f_objs f)
       ∧ trace w' = trace w ++ [c] ∧ self w' = self w.
Proof.
  unfold call_ext. destruct (respond w c) as [f|e]; inversion 1; subst.
  by exists f.
Qed.

Lemma call1_ok_inv c w v w' :
  call1 c w = (Ok v, w') →
  ∃ f, respond w c = Ok f
       ∧ v = shift_val (length (heap w)) (f_val f)
       ∧ heap w' = heap w ++ (shift_obj (length (heap w)) <$> f_objs f)
       ∧ trace w' = trace w ++ [c] ∧ self w' = self w.
Proof.
  unfold call1. intros E. apply bind_ok_inv in E as ([a b] & w1 & E1 & E2).
  apply call_ext_inv in E1 as (f & ? & ? & ? & ? & ?).
  inversion E2; subst. simplify_eq. by exists f.
Qed.

Lemma accel_call_ok_inv attr c w v w' :
  accel_call attr c w = (Ok v, w') →
  accel (self w) ≠ None ∧ call1 c w = (Ok v, w').
Proof.
  intros E. apply accel_call_inv in E as [(_ & ? & _)|?]; done.
Qed.

Lemma buffer_tensor_inv v k w t w' :
  buffer_tensor v k w = (Ok t, w') →
  w' = w ∧ ∃ l d lt, v = VRef l ∧ heap w !! l = Some (ODict d)
                      ∧ d !! k = Some (VRef lt)
                      ∧ heap w !! lt = Some (OTensor t).
Proof.
  unfold buffer_tensor. intros E.
  apply bind_ok_inv in E as (r & w1 & E1 & E2).
  apply getitem_inv in E1 as (-> & l & d & -> & Hl & Hk).
  apply get_tensor_inv in E2 as (-> & lt & -> & Ht). eauto 10.
Qed.

Lemma get_index_inv v w inds w' :
  get_index v w = (Ok inds, w') → w' = w ∧ index_of (heap w) v = Some inds.
Proof.
  unfold get_index, index_of. intros E.
  destruct v; try (by inversion E);
    try (apply bind_ok_inv in E as (o & w1 & E1 & E2);
         apply load_inv in E1 as (-> & l' & ? & Hl); by simplify_eq).
  apply bind_ok_inv in E as (o & w1 & E1 & E2).
  apply load_inv in E1 as (-> & l' & ? & Hl). simplify_eq. rewrite Hl.
  repeat case_match; by inversion E2.
Qed.

Lemma assign_rendered_inv rendered key inds vals w u w' :
  assign_rendered rendered key inds vals w = (Ok u, w') →
  ∃ rl rd tl t t',
    rendered = VRef rl ∧ heap w !! rl = Some (ODict rd)
    ∧ rd !! key = Some (VRef tl) ∧ heap w !! tl = Some (OTensor t)
    ∧ Torch.index_put t inds vals = Ok t'
    ∧ heap w' = <[tl := OTensor t']> (heap w) ∧ same_calls w w'.
Proof.
  unfold assign_rendered. intros E.
  apply bind_ok_inv in E as (tgt & w1 & E1 & E).
  apply getitem_inv in E1 as (-> & rl & rd & -> & Hrl & Hk).
  apply bind_ok_inv in E as (t & w1 & E1 & E).
  apply get_tensor_inv in E1 as (-> & tl & -> & Ht).
  apply bind_ok_inv in E as (t' & w1 & E1 & E).
  apply lift_inv in E1 as [Hi ->].
  apply store_inv in E as (l & ? & ? & ?). simplify_eq.
  eexists _, _, _, _, _. split_and!; try done.
Qed.

Lemma clamp_nablas_inv vb w n' w' :
  clamp_nablas_ vb w = (Ok n', w') →
  ∃ vbl bd nl n,
    vb = VRef vbl ∧ heap w !! vbl = Some (ODict bd)
    ∧ bd !! "nablas" = Some (VRef nl) ∧ heap w !! nl = Some (OTensor n)
    ∧ n' = Torch.clamp (-1) 1 n
    ∧ heap w' = <[nl := OTensor n']> (heap w) ∧ same_calls w w'.
Proof.
  unfold clamp_nablas_. intros E.
  apply bind_ok_inv in E as (nb & w1 & E1 & E).
  apply getitem_inv in E1 as (-> & vbl & bd & -> & Hvb & Hk).
  apply bind_ok_inv in E as (n & w1 & E1 & E).
  apply get_tensor_inv in E1 as (-> & nl & -> & Hn).
  apply bind_ok_inv in E as (u & w1 & E1 & E).
  apply store_inv in E1 as (l & ? & ? & ?). simplify_eq.
  apply mret_inv in E as [? ->]. simplify_eq.
  eexists _, _, _, _. split_and!; try done.
Qed.
End inversion.

(** Take a successful run apart, one bind at a time, down to the
    primitives; what is learnt of each step is left in the context.
    Computations the tactic does not know are left as equations. *)
Ltac mrun_step :=
  match goal with
  | E : (_ ≫= _) _ = (Ok _, _) |- _ =>
      let a := fresh "a" in let w1 := fresh "w" in
      let E1 := fresh "E" in
      apply bind_ok_inv in E as (a & w1 & E1 & E)
  | E : @mret M _ _ _ _ = (_, _) |- _ =>
      apply mret_inv in E as [? ?]; simplify_eq
  | E : raise _ _ = (Ok _, _) |- _ => by apply raise_inv in E
  | E : lift _ _ = (_, _) |- _ => apply lift_inv in E as [? ?]; simplify_eq
  | E : get_self _ = (_, _) |- _ =>
      apply get_self_inv in E as [? ?]; simplify_eq
  | E : alloc _ _ = (_, _) |- _ =>
      apply alloc_inv in E as (? & ? & [? ?]); simplify_eq
  | E : store _ _ _ = (Ok _, _) |- _ =>
      apply store_inv in E as (? & ? & ? & [? ?]); simplify_eq
  | E : get_dict _ _ = (Ok _, _) |- _ =>
      apply get_dict_inv in E as (? & ? & ? & ?); simplify_eq
  | E : get_tensor _ _ = (Ok _, _) |- _ =>
      apply get_tensor_inv in E as (? & ? & ? & ?); simplify_eq
  | E : getitem _ _ _ = (Ok _, _) |- _ =>
      apply getitem_inv in E as (? & ? & ? & ? & ? & ?); simplify_eq
  | E : getattr _ _ _ = (Ok _, _) |- _ =>
      apply getattr_inv in E as (? & ? & ? & ? & ? & ?); simplify_eq
  | E : cfg_get _ _ _ _ = (Ok _, _) |- _ =>
      apply cfg_get_inv in E as (? & ? & ? & ? & ? & ?); simplify_eq
  | E : setitem _ _ _ _ = (Ok _, _) |- _ =>
      apply setitem_inv in E as (? & ? & ? & ? & ? & [? ?]); simplify_eq
  | E : call_ext _ _ = (Ok _, _) |- _ =>
      apply call_ext_inv in E as (? & ? & ? & ? & ? & ?); simplify_eq
  | E : call1 _ _ = (Ok _, _) |- _ =>
      apply call1_ok_inv in E as (? & ? & ? & ? & ? & ?); simplify_eq
  | E : accel_call _ _ _ = (Ok _, _) |- _ =>
      apply accel_call_ok_inv in E as (? & E)
  | E : truthy _ ?w = (_, ?w') |- _ =>
      assert_fails (constr_eq w w');
      pose proof (reads_inv _ _ _ _ (reads_truthy _) E); simplify_eq
  | E : eq_zero _ ?w = (_, ?w') |- _ =>
      assert_fails (constr_eq w w');
      pose proof (reads_inv _ _ _ _ (reads_eq_zero _) E); simplify_eq
  | E : is_tensor _ ?w = (_, ?w') |- _ =>
      assert_fails (constr_eq w w');
      pose proof (reads_inv _ _ _ _ (reads_is_tensor _) E); simplify_eq
  | E : get_shape _ _ = (Ok _, _) |- _ =>
      apply get_shape_ok_inv in E as [? ?]; simplify_eq
  | E : get_index _ _ = (Ok _, _) |- _ =>
      apply get_index_inv in E as [? ?]; simplify_eq
  | E : buffer_tensor _ _ _ = (Ok _, _) |- _ =>
      apply buffer_tensor_inv in E as (? & ? & ? & ? & ? & ? & ? & ?);
      simplify_eq
  | E : get_pack_infos _ ?w = (_, ?w') |- _ =>
      assert_fails (constr_eq w w');
      pose proof (reads_inv _ _ _ _ (reads_get_pack_infos _) E); simplify_eq
  | E : item _ ?w = (_, ?w') |- _ =>
      assert_fails (constr_eq w w');
      pose proof (reads_inv _ _ _ _ (reads_item _) E); simplify_eq
  | E : recip _ ?w = (_, ?w') |- _ =>
      assert_fails (constr_eq w w');
      pose proof (reads_inv _ _ _ _ (reads_recip _) E); simplify_eq
  | E : (if ?b then _ else _) _ = (Ok _, _) |- _ =>
      first [ is_var b; destruct b | destruct b eqn:? ]
  | E : (match ?a with (_, _) => _ end) _ = (Ok _, _) |- _ =>
      is_var a; destruct a
  end.

Ltac mrun := repeat mrun_step.

(** The lengths of the heaps of a run, from the equations between them. *)
Ltac heap_lengths :=
  repeat match goal with
    | Hh : heap ?w' = _ |- _ =>
        lazymatch goal with
        | _ : length (heap w') = _ |- _ => fail
        | _ =>
            let L := fresh "L" in
            pose proof (f_equal length Hh) as L;
            rewrite ?length_app, ?length_insert, ?length_fmap in L;
            simpl in L
        end
    end;
  repeat match goal with
    | Hl : ?h !! ?l = Some _ |- _ =>
        lazymatch goal with
        | _ : l < length h |- _ => fail
        | _ => pose proof (lookup_lt_Some _ _ _ Hl)
        end
    end.

Lemma lookup_snoc_eq {A} (l : list A) (o : A) (j : nat) :
  j = length l → (l ++ [o]) !! j = Some o.
Proof. intros ->. by apply list_lookup_middle. Qed.

Lemma lookup_insert_at {A} (l : list A) (o : A) (i j : nat) :
  i = j → j < length l → <[i := o]> l !! j = Some o.
Proof. intros ->. apply list_lookup_insert_eq. Qed.

Lemma ref_ne (l l' : loc) : VRef l ≠ VRef l' → l ≠ l'.
Proof. congruence. Qed.

(** A lookup in the heap of a later world, pushed back through the
    allocations and stores that separate it from an earlier one. *)
Ltac heap_solve :=
  rewrite ?length_insert, ?length_app, ?length_fmap; simpl; lia.

Ltac heap_back :=
  repeat first
    [ match goal with
      | Hh : heap ?w' = _ |- context [heap ?w' !! _] => rewrite Hh
      | Hf : ∀ l, _ → _ → heap ?w' !! l = _ |- context [heap ?w' !! ?j] =>
          rewrite (Hf j) by heap_solve
      | Hf : ∀ l, _ → heap ?w' !! l = _ |- context [heap ?w' !! ?j] =>
          rewrite (Hf j) by heap_solve
      end
    | rewrite list_lookup_insert_ne by heap_solve
    | rewrite lookup_insert_at by heap_solve
    | rewrite lookup_app_l by heap_solve
    | rewrite lookup_snoc_eq by heap_solve ].

Ltac heap_back_in H :=
  repeat first
    [ match type of H with
      | context [heap ?w' !! ?j] =>
          match goal with
          | Hh : heap w' = _ |- _ => rewrite Hh in H
          | Hf : ∀ l, _ → _ → heap w' !! l = _ |- _ =>
              rewrite (Hf j) in H by heap_solve
          | Hf : ∀ l, _ → heap w' !! l = _ |- _ =>
              rewrite (Hf j) in H by heap_solve
          end
      end
    | rewrite list_lookup_insert_ne in H by heap_solve
    | rewrite lookup_insert_at in H by heap_solve
    | rewrite lookup_app_l in H by heap_solve
    | rewrite lookup_snoc_eq in H by heap_solve ].

(** What is known of the heaps of later worlds, brought back to the
    earliest world it holds in. *)
Ltac heap_facts :=
  repeat match goal with
    | Hl : heap _ !! _ = Some _ |- _ =>
        progress (heap_back_in Hl); simplify_eq
    | Hl : <[_ := _]> _ !! _ = Some _ |- _ =>
        progress (heap_back_in Hl); simplify_eq
    | Hl : (_ ++ _) !! _ = Some _ |- _ =>
        progress (heap_back_in Hl); simplify_eq
    end.

(** The trace of a later world, as the trace of an earlier one followed by
    the calls made since. *)
Ltac trace_back :=
  repeat match goal with
    | T : trace ?w' = _ |- context [trace ?w'] => rewrite T
    end;
  rewrite <- ?app_assoc.

Ltac trace_ext :=
  trace_back;
  eexists; split;
    [ first [ reflexivity | symmetry; apply app_nil_r ]
    | repeat constructor ].

(** ** Heaps that grow *)

Lemma dict_at_mono h h' v d :
  (∀ l o, h !! l = Some o → h' !! l = Some o) →
  dict_at h v = Some d → dict_at h' v = Some d.
Proof.
  intros Hm. unfold dict_at. destruct v; try done.
  destruct (h !! l) as [o|] eqn:El; [|done].
  by rewrite (Hm _ _ El).
Qed.

Lemma tensor_shape_mono h h' v s :
  (∀ l o, h !! l = Some o → h' !! l = Some o) →
  tensor_shape h v = Some s → tensor_shape h' v = Some s.
Proof.
  intros Hm. unfold tensor_shape. destruct v; try done.
  destruct (h !! l) as [o|] eqn:El; [|done].
  by rewrite (Hm _ _ El).
Qed.

Lemma prefix_rays_mono h h' ri p :
  (∀ l o, h !! l = Some o → h' !! l = Some o) →
  prefix_rays h ri = Some p → prefix_rays h' ri = Some p.
Proof.
  intros Hm. unfold prefix_rays.
  destruct (dict_at h ri) as [d|] eqn:Ed; [|done].
  rewrite (dict_at_mono _ _ _ _ Hm Ed). simpl.
  destruct (d !! "rays_o") as [ro|]; [|done]. simpl.
  destruct (tensor_shape h ro) as [s|] eqn:Es; [|done].
  by rewrite (tensor_shape_mono _ _ _ _ Hm Es).
Qed.

Lemma zero_outputs_weaken h lo lo' rendered prefix :
  lo' ≤ lo → zero_outputs h lo rendered prefix →
  zero_outputs h lo' rendered prefix.
Proof.
  intros Hlo (rl & rd & ? & ? & ? & Hk & ? & ?).
  exists rl, rd. split_and!; try done; try lia.
  intros key v Hv. destruct (Hk key v Hv) as (tl & ? & ? & ?).
  exists tl. split_and!; try done; lia.
Qed.

Ltac same_lookup :=
  repeat match goal with
    | H1 : ?x = Some _, H2 : ?x = Some _ |- _ =>
        rewrite H1 in H2; simplify_eq
    end.


(** ** Traces that grow *)

(** A computation only ever adds calls to the trace. *)
Definition grows {A} (m : M A) : Prop :=
  ∀ w, ∃ evs, trace (m w).2 = trace w ++ evs.

Create HintDb grows.

Section grows.
Context `{FloatOps} `{Collaborators}.

Lemma grows_reads {A} (m : M A) : reads m → grows m.
Proof. intros Hm w. exists []. by rewrite Hm, app_nil_r. Qed.

Lemma grows_bind {A B} (m : M A) (f : A → M B) :
  grows m → (∀ a, grows (f a)) → grows (m ≫= f).
Proof.
  intros Hm Hf w. unfold mbind, M_bind. destruct (Hm w) as [evs1 E1].
  destruct (m w) as [[a|e] w1]; simpl in *; [|by eexists].
  destruct (Hf a w1) as [evs2 E2]. exists (evs1 ++ evs2).
  by rewrite E2, E1, app_assoc.
Qed.

Lemma grows_after {A B} (m : M A) (f : A → M B) w :
  (∀ a, grows (f a)) →
  ∃ evs, trace ((m ≫= f) w).2 = trace (m w).2 ++ evs.
Proof.
  intros Hf. unfold mbind, M_bind.
  destruct (m w) as [[a|e] w1]; simpl.
  - apply Hf.
  - exists []. by rewrite app_nil_r.
Qed.

Lemma grows_alloc o : grows (alloc o).
Proof. intros w. exists []. by rewrite app_nil_r. Qed.

Lemma grows_store v o : grows (store v o).
Proof. intros w. exists []. rewrite app_nil_r. unfold store. by case_match. Qed.

Lemma grows_set_self s : grows (set_self s).
Proof. intros w. exists []. by rewrite app_nil_r. Qed.

Lemma grows_call_ext c : grows (call_ext c).
Proof. intros w. exists [c]. unfold call_ext. by case_match. Qed.
End grows.

Global Hint Resolve grows_alloc grows_store grows_set_self grows_call_ext
  : grows.

(** Discharge [grows m] for a computation built from binds, conditionals
    and the computations already known to the hint base. *)
Ltac grows_tac :=
  repeat first
    [ solve [ auto with grows ]
    | solve [ apply grows_reads; auto with reads ]
    | apply grows_bind; [|intros ?]
    | progress case_match ].

Section grows_more.
Context `{FloatOps} `{Collaborators}.

Lemma grows_setitem v k x : grows (setitem v k x).
Proof. unfold setitem. grows_tac. Qed.

Lemma grows_call1 c : grows (call1 c).
Proof. unfold call1. grows_tac. Qed.

Hint Resolve grows_setitem grows_call1 : grows.

Lemma grows_accel_call attr c : grows (accel_call attr c).
Proof. unfold accel_call. grows_tac. Qed.

Hint Resolve grows_accel_call : grows.

Lemma grows_collect_samples x ret : grows (collect_samples x ret).
Proof. unfold collect_samples. grows_tac. Qed.

Hint Resolve grows_collect_samples : grows.

Lemma grows_forward_sdf x skip kw : grows (forward_sdf x skip kw).
Proof. unfold forward_sdf. grows_tac. Qed.

Hint Resolve grows_forward_sdf : grows.

Lemma grows_near_sdf_probe rt details : grows (near_sdf_probe rt details).
Proof. unfold near_sdf_probe. grows_tac. Qed.

Lemma grows_assign_rendered r k inds vals :
  grows (assign_rendered r k inds vals).
Proof. unfold assign_rendered. grows_tac. Qed.

Lemma grows_clamp_nablas_ vb : grows (clamp_nablas_ vb).
Proof. unfold clamp_nablas_. grows_tac. Qed.

Hint Resolve grows_near_sdf_probe grows_assign_rendered
  grows_clamp_nablas_ : grows.

Lemma grows_render_batched vb r i d rgb nrm :
  grows (render_batched vb r i d rgb nrm).
Proof. unfold render_batched. grows_tac. Qed.

Lemma grows_render_packed vb r i d rgb nrm :
  grows (render_packed vb r i d rgb nrm).
Proof. unfold render_packed. grows_tac. Qed.

Hint Resolve grows_render_batched grows_render_packed : grows.

Lemma grows_render_per_object vb r cfg rgb nrm :
  grows (render_per_object vb r cfg rgb nrm).
Proof. unfold render_per_object. grows_tac. Qed.

Lemma grows_attach q cfg rb rd vb qd :
  grows (attach_buffer_and_details q cfg rb rd vb qd).
Proof. unfold attach_buffer_and_details. grows_tac. Qed.
End grows_more.

Global Hint Resolve grows_setitem grows_call1 grows_accel_call
  grows_collect_samples grows_forward_sdf grows_near_sdf_probe
  grows_assign_rendered grows_clamp_nablas_ grows_render_batched
  grows_render_packed grows_render_per_object grows_attach : grows.

(** ** Steps that succeed *)

Section forward.
Context `{FloatOps} `{Collaborators}.

Lemma get_dict_run l d w :
  heap w !! l = Some (ODict d) → get_dict (VRef l) w = (Ok d, w).
Proof.
  intros Hl. unfold get_dict, load. unfold mbind, M_bind. by rewrite Hl.
Qed.

Lemma get_tensor_run l t w :
  heap w !! l = Some (OTensor t) → get_tensor (VRef l) w = (Ok t, w).
Proof.
  intros Hl. unfold get_tensor, load. unfold mbind, M_bind. by rewrite Hl.
Qed.

Lemma getitem_run l d k x w :
  heap w !! l = Some (ODict d) → d !! k = Some x →
  getitem (VRef l) k w = (Ok x, w).
Proof.
  intros Hl Hk. unfold getitem.
  rewrite (bind_ok _ _ _ _ _ (get_dict_run _ _ _ Hl)). by rewrite Hk.
Qed.

Lemma getattr_run l d k x w :
  heap w !! l = Some (ODict d) → d !! k = Some x →
  getattr (VRef l) k w = (Ok x, w).
Proof.
  intros Hl Hk. unfold getattr.
  rewrite (bind_ok _ _ _ _ _ (get_dict_run _ _ _ Hl)). by rewrite Hk.
Qed.

Lemma cfg_get_run l d k dflt w :
  heap w !! l = Some (ODict d) →
  cfg_get (VRef l) k dflt w = (Ok (default dflt (d !! k)), w).
Proof.
  intros Hl. unfold cfg_get.
  by rewrite (bind_ok _ _ _ _ _ (get_dict_run _ _ _ Hl)).
Qed.


Lemma buffer_tensor_run l d k lt t w :
  heap w !! l = Some (ODict d) → d !! k = Some (VRef lt) →
  heap w !! lt = Some (OTensor t) →
  buffer_tensor (VRef l) k w = (Ok t, w).
Proof.
  intros Hl Hk Ht. unfold buffer_tensor.
  rewrite (bind_ok _ _ _ _ _ (getitem_run _ _ _ _ _ Hl Hk)).
  by apply get_tensor_run.
Qed.
End forward.

(** ** References of sampled objects *)

Lemma refs_above_length h : refs_above (length h) h.
Proof.
  intros l d k l' Hl Hd _. apply lookup_lt_Some in Hd. lia.
Qed.



Lemma refs_above_app_tensor base h t :
  refs_above base h → refs_above base (h ++ [OTensor t]).
Proof.
  intros Hr l d k l' Hl Hd Hk.
  apply lookup_app_Some in Hd as [Hd|[_ Hd]]; [by eapply Hr|].
  destruct (l - length h); simplify_eq.
Qed.

Lemma refs_above_app_fragment base h objs :
  base ≤ length h → refs_above base h →
  refs_above base (h ++ (shift_obj (length h) <$> objs)).
Proof.
  intros Hb Hr l d k l' Hl Hd Hk.
  apply lookup_app_Some in Hd as [Hd|[_ Hd]]; [by eapply Hr|].
  rewrite list_lookup_fmap in Hd.
  destruct (objs !! (l - length h)) as [[d0| |]|]; simplify_eq/=.
  rewrite lookup_fmap in Hk.
  destruct (d0 !! k) as [[]|]; simplify_eq/=. lia.
Qed.

Lemma refs_above_insert_tensor base h l t :
  refs_above base h → refs_above base (<[l := OTensor t]> h).
Proof.
  intros Hr l1 d k l' Hl Hd Hk.
  destruct (decide (l = l1)) as [->|Hne].
  - apply list_lookup_insert_Some in Hd as [(_ & ? & _)|[? _]]; done.
  - rewrite list_lookup_insert_ne in Hd by done. by eapply Hr.
Qed.

Lemma refs_above_insert_below base h l o :
  l < base → refs_above base h → refs_above base (<[l := o]> h).
Proof.
  intros Hlt Hr l1 d k l' Hl Hd Hk.
  rewrite list_lookup_insert_ne in Hd by lia. by eapply Hr.
Qed.

Lemma refs_above_insert_entry base h l d key l2 :
  h !! l = Some (ODict d) → base ≤ l2 → refs_above base h →
  refs_above base (<[l := ODict (<[key := VRef l2]> d)]> h).
Proof.
  intros Hd0 Hl2 Hr l1 d1 k l' Hl Hd Hk.
  destruct (decide (l = l1)) as [->|Hne].
  - apply list_lookup_insert_Some in Hd as [(_ & ? & _)|[? _]]; [|done].
    simplify_eq. apply lookup_insert_Some in Hk as [[_ ?]|[_ Hk]].
    + by simplify_eq.
    + by eapply Hr.
  - rewrite list_lookup_insert_ne in Hd by done. by eapply Hr.
Qed.

(** [refs_above] along the heaps of a run. *)
Ltac refs_tac :=
  repeat match goal with
    | Hh : heap ?w' = _ |- refs_above _ (heap ?w') => rewrite Hh
    | |- refs_above _ (_ ++ [OTensor _]) => apply refs_above_app_tensor
    | |- refs_above _ (_ ++ (shift_obj _ <$> _)) =>
        apply refs_above_app_fragment; [heap_solve|]
    | |- refs_above _ (<[_ := OTensor _]> _) =>
        apply refs_above_insert_tensor
    | |- refs_above _ (<[_ := _]> _) =>
        first [ apply refs_above_insert_below; [heap_solve|]
              | eapply refs_above_insert_entry;
                [ first [ eassumption | by heap_back ] | heap_solve | ] ]
    end;
  try assumption.

(** ** Rows *)

Section rows.
Context {A : Type}.
Implicit Types (l : list A) (rows : list (list A)).

Lemma chunks_length n w l : length (Torch.chunks n w l) = n.
Proof. revert l. induction n as [|n IH]; intros l; simpl; by rewrite ?IH. Qed.

Lemma chunks_widths n w l :
  length l = n * w → Forall (λ r, length r = w) (Torch.chunks n w l).
Proof.
  revert l. induction n as [|n IH]; intros l Hl; simpl; constructor.
  - rewrite length_take. lia.
  - apply IH. rewrite length_drop. lia.
Qed.

Lemma chunks_concat n w rows :
  length rows = n → Forall (λ r, length r = w) rows →
  Torch.chunks n w (concat rows) = rows.
Proof.
  revert n. induction rows as [|r rows IH]; intros n Hn Hw.
  - by subst.
  - destruct n as [|n]; [done|]. simpl in *.
    apply Forall_cons in Hw as [Hr Hw].
    rewrite take_app_length' by done. rewrite drop_app_length' by done.
    f_equal. apply IH; [lia|done].
Qed.

Lemma concat_widths w rows :
  Forall (λ r, length r = w) rows → length (concat rows) = length rows * w.
Proof.
  induction 1 as [|r rows Hr _ IH]; simpl; [done|].
  rewrite length_app, IH. lia.
Qed.

Definition put_rows rows (irs : list (nat * list A)) : list (list A) :=
  foldl (λ rows ir, <[ir.1 := ir.2]> rows) rows irs.

Lemma put_rows_length rows irs : length (put_rows rows irs) = length rows.
Proof.
  revert rows. induction irs as [|ir irs IH]; intros rows; simpl; [done|].
  unfold put_rows in *. simpl. by rewrite IH, length_insert.
Qed.

Lemma put_rows_widths w rows irs :
  Forall (λ r, length r = w) rows →
  Forall (λ ir, length ir.2 = w) irs →
  Forall (λ r, length r = w) (put_rows rows irs).
Proof.
  revert rows. induction irs as [|ir irs IH]; intros rows Hr Hi; [done|].
  apply Forall_cons in Hi as [Hi1 Hi]. unfold put_rows in *. simpl.
  apply IH; [|done]. by apply Forall_insert.
Qed.

Lemma put_rows_outside rows irs i :
  i ∉ irs.*1 → put_rows rows irs !! i = rows !! i.
Proof.
  revert rows. induction irs as [|ir irs IH]; intros rows Hi; [done|].
  unfold put_rows in *. simpl in *.
  apply not_elem_of_cons in Hi as [Hne Hi].
  rewrite IH by done. by rewrite list_lookup_insert_ne.
Qed.
End rows.

Lemma index_put_retains inds sh t vals t' :
  retains_zero inds sh t → Torch.index_put t inds vals = Ok t' →
  retains_zero inds sh t'.
Proof.
  intros (Hsh & Hf & Hz) E. unfold Torch.index_put in E.
  destruct (shape t) as [|n rest] eqn:Hs; [done|].
  case_decide as Hc; [|done]. destruct Hc as (Hv & _ & Hfv).
  case_decide; [|done]. inversion E; subst t'; clear E.
  fold (put_rows (Torch.chunks n (Torch.numel rest) (data t))
          (zip inds (Torch.chunks (length inds) (Torch.numel rest)
                       (data vals)))).
  set (w := Torch.numel rest) in *.
  assert (Forall (λ r, length r = w)
            (put_rows (Torch.chunks n w (data t))
               (zip inds (Torch.chunks (length inds) w (data vals)))))
    as Hw.
  { apply put_rows_widths.
    - apply chunks_widths. unfold Torch.filled in Hf.
      by rewrite Hf, Hs.
    - apply Forall_forall. intros [i r] Hir.
      apply elem_of_zip_r in Hir. simpl.
      assert (Forall (λ r, length r = w)
                (Torch.chunks (length inds) w (data vals))) as Hcw.
      { apply chunks_widths. unfold Torch.filled in Hfv.
        by rewrite Hfv, Hv. }
      by eapply Forall_forall in Hcw. }
  split_and!.
  - simpl. congruence.
  - unfold Torch.filled. simpl.
    rewrite (concat_widths w) by done.
    by rewrite put_rows_length, chunks_length.
  - intros i Hi. rewrite <- (Hz i Hi). unfold rows_of. simpl. rewrite ?Hs.
    fold w.
    rewrite chunks_concat;
      [|by rewrite put_rows_length, chunks_length|done].
    apply put_rows_outside. rewrite fst_zip; [done|].
    by rewrite chunks_length.
Qed.

Lemma zeros_retains inds sh : retains_zero inds sh (Torch.zeros sh).
Proof.
  split_and!; [done| |done].
  unfold Torch.filled. simpl. by rewrite length_replicate.
Qed.

(** ** The invariant of the rendering, step by step *)

Lemma outputs_inv_frame base inds prefix rendered h0 h h' :
  outputs_inv base inds prefix rendered h0 h →
  (∀ l, l < base → h' !! l = h !! l) →
  outputs_inv base inds prefix rendered h0 h'.
Proof.
  intros (rl & outs & ? & ? & Hrl & Hd & Hk) Hf.
  exists rl, outs. split_and!; try done.
  { intros l d ? ?. rewrite Hf by done. by apply Hd. }
  intros key v Hv. destruct (Hk key v Hv) as (tl & t & ? & ? & ? & ?).
  exists tl, t. split_and!; try done. by rewrite Hf.
Qed.

Lemma index_of_kept h h' v inds :
  index_of h v = Some inds →
  (∀ l lt, h !! l = Some (OLong lt) → h' !! l = Some (OLong lt)) →
  index_of h' v = Some inds.
Proof.
  unfold index_of. intros Hi Hk. destruct v; try done.
  destruct (h !! l) as [[| |lt]|] eqn:Hl; try done.
  by rewrite (Hk _ _ Hl).
Qed.

Lemma render_inv_app_tensor base prefix rendered h0 vbl ty riv oi h
    t :
  render_inv base prefix rendered h0 vbl ty riv oi h →
  render_inv base prefix rendered h0 vbl ty riv oi (h ++ [OTensor t]).
Proof.
  intros (Hb & Hv & Hr & (bd & Hbd & ? & ?) & Ho).
  split_and!; try done.
  - rewrite length_app. lia.
  - by apply refs_above_app_tensor.
  - exists bd. split_and!; try done. by apply lookup_app_l_Some.
  - destruct oi as [inds|].
    + destruct Ho as [Hi Ho]. split.
      * eapply index_of_kept; [done|]. intros. by apply lookup_app_l_Some.
      * eapply outputs_inv_frame; [done|]. intros l ?.
        rewrite lookup_app_l by lia. done.
    + intros inds. eapply outputs_inv_frame; [done|]. intros l ?.
      rewrite lookup_app_l by lia. done.
Qed.

(** A store from [base] on, that does not put a dict or an index tensor
    where there was another kind of object. *)
Lemma render_inv_insert_tensor base prefix rendered h0 vbl ty riv oi h
    l t t' :
  render_inv base prefix rendered h0 vbl ty riv oi h →
  base ≤ l → h !! l = Some (OTensor t) →
  render_inv base prefix rendered h0 vbl ty riv oi (<[l := OTensor t']> h).
Proof.
  intros (Hb & Hv & Hr & (bd & Hbd & ? & ?) & Ho) Hl Ht.
  assert (∀ l1 lt, h !! l1 = Some (OLong lt) →
                   <[l := OTensor t']> h !! l1 = Some (OLong lt)) as Hk.
  { intros l1 lt H1. rewrite list_lookup_insert_ne; [done|]. congruence. }
  assert (∀ l1, l1 < base → <[l := OTensor t']> h !! l1 = h !! l1) as Hf.
  { intros l1 ?. rewrite list_lookup_insert_ne; [done|]. lia. }
  split_and!; try done.
  - by rewrite length_insert.
  - by apply refs_above_insert_tensor.
  - exists bd. split_and!; try done.
    rewrite list_lookup_insert_ne; [done|]. congruence.
  - destruct oi as [inds|].
    + destruct Ho as [Hi Ho]. split.
      * by eapply index_of_kept.
      * by eapply outputs_inv_frame.
    + intros inds. by eapply outputs_inv_frame.
Qed.

Lemma render_inv_set_entry base prefix rendered h0 vbl ty riv oi h bd
    key l2 :
  render_inv base prefix rendered h0 vbl ty riv oi h →
  h !! vbl = Some (ODict bd) →
  key ≠ "type" → key ≠ "rays_inds_hit" → base ≤ l2 →
  render_inv base prefix rendered h0 vbl ty riv oi
    (<[vbl := ODict (<[key := VRef l2]> bd)]> h).
Proof.
  intros (Hb & Hv & Hr & (bd' & Hbd & ? & ?) & Ho) Hd Hk1 Hk2 Hl2.
  assert (bd' = bd) as -> by congruence.
  assert (∀ l1 lt, h !! l1 = Some (OLong lt) →
                   <[vbl := ODict (<[key := VRef l2]> bd)]> h !! l1
                   = Some (OLong lt)) as Hk.
  { intros l1 lt H1. rewrite list_lookup_insert_ne; [done|]. congruence. }
  assert (∀ l1, l1 < base →
                <[vbl := ODict (<[key := VRef l2]> bd)]> h !! l1 = h !! l1)
    as Hf.
  { intros l1 ?. rewrite list_lookup_insert_ne; [done|]. lia. }
  split_and!; try done.
  - by rewrite length_insert.
  - by eapply refs_above_insert_entry.
  - eexists. split_and!.
    + apply list_lookup_insert_eq. by eapply lookup_lt_Some.
    + by rewrite lookup_insert_ne.
    + by rewrite lookup_insert_ne.
  - destruct oi as [inds|].
    + destruct Ho as [Hi Ho]. split.
      * by eapply index_of_kept.
      * by eapply outputs_inv_frame.
    + intros inds. by eapply outputs_inv_frame.
Qed.

Lemma render_inv_index base prefix rendered h0 vbl ty riv h inds :
  render_inv base prefix rendered h0 vbl ty riv None h →
  index_of h riv = Some inds →
  render_inv base prefix rendered h0 vbl ty riv (Some inds) h.
Proof.
  intros (Hb & Hv & Hr & Hbd & Ho) Hi. split_and!; try done.
Qed.

Section invariant_steps.
Context `{FloatOps} `{Collaborators}.

Lemma render_inv_assign base prefix rendered h0 vbl ty riv inds key vals
    w u w' :
  render_inv base prefix rendered h0 vbl ty riv (Some inds) (heap w) →
  assign_rendered rendered key inds vals w = (Ok u, w') →
  render_inv base prefix rendered h0 vbl ty riv (Some inds) (heap w').
Proof.
  intros (Hb & Hv & Hr & (bd & Hbd & ? & ?) & Hi & Ho) E.
  apply assign_rendered_inv in E
    as (rl & rd & tl & t & t' & -> & Hrl & Hk & Ht & Hp & Hh & _).
  destruct Ho as (rl' & outs & ? & Hrlb & Hrl0 & Hd & Hkeys).
  pose proof (Hd _ _ Hrlb Hrl0) as Hrl'. simplify_eq.
  destruct (Hkeys _ _ Hk) as (tl' & t0 & ? & Htl & Ht0 & Hz). simplify_eq.
  rewrite Hh.
  assert (∀ l1 lt, heap w !! l1 = Some (OLong lt) →
                   <[tl' := OTensor t']> (heap w) !! l1 = Some (OLong lt))
    as Hkept.
  { intros l1 lt Hlt. rewrite list_lookup_insert_ne; [done|]. congruence. }
  split_and!; try done.
  - by rewrite length_insert.
  - by apply refs_above_insert_tensor.
  - exists bd. split_and!; try done.
    rewrite list_lookup_insert_ne; [done|]. lia.
  - by eapply index_of_kept.
  - eexists rl', _. split_and!; try eassumption; try done.
    { intros l d ? Hl. apply Hd in Hl; [|done].
      rewrite list_lookup_insert_ne; [done|]. congruence. }
    intros key' v' Hv'.
    destruct (Hkeys _ _ Hv') as (tl1 & t1 & ? & ? & Ht1 & Hz1). subst v'.
    destruct (decide (tl1 = tl')) as [->|Hne].
    + exists tl', t'. simplify_eq. split_and!; try done.
      * apply list_lookup_insert_eq. by eapply lookup_lt_Some.
      * by eapply index_put_retains.
    + exists tl1, t1. split_and!; try done.
      by rewrite list_lookup_insert_ne.
Qed.

Lemma render_inv_clamp base prefix rendered h0 vbl ty riv oi w n' w' :
  render_inv base prefix rendered h0 vbl ty riv oi (heap w) →
  clamp_nablas_ (VRef vbl) w = (Ok n', w') →
  render_inv base prefix rendered h0 vbl ty riv oi (heap w').
Proof.
  intros Hinv E.
  apply clamp_nablas_inv in E
    as (vbl' & bd & nl & n & ? & Hvb & Hk & Hn & -> & Hh & _).
  simplify_eq. rewrite Hh.
  eapply render_inv_insert_tensor; [done| |done].
  destruct Hinv as (Hb & Hv & Hr & _). by eapply Hr.
Qed.
End invariant_steps.

(** [render_inv] along the heaps of a run. *)
Ltac inv_tac :=
  repeat match goal with
    | Hi : index_of (heap ?w) _ = Some ?inds
      |- render_inv _ _ _ _ _ _ _ (Some ?inds) (heap ?w) =>
        eapply render_inv_index; [|exact Hi]
    | Hh : heap ?w' = _ |- render_inv _ _ _ _ _ _ _ _ (heap ?w') =>
        rewrite Hh
    | |- render_inv _ _ _ _ _ _ _ _ (_ ++ [OTensor _]) =>
        apply render_inv_app_tensor
    | |- render_inv _ _ _ _ _ _ _ _ (<[_ := ODict (<[_ := VRef _]> _)]> _) =>
        eapply render_inv_set_entry;
        [ | first [ eassumption | by heap_back ] | done | done | heap_solve ]
    | E : assign_rendered _ _ _ _ ?w = (Ok _, ?w')
      |- render_inv _ _ _ _ _ _ _ _ (heap ?w') =>
        eapply render_inv_assign; [|exact E]
    | E : clamp_nablas_ _ ?w = (Ok _, ?w')
      |- render_inv _ _ _ _ _ _ _ _ (heap ?w') =>
        eapply render_inv_clamp; [|exact E]
    end;
  try eassumption.

(** ** The rendering, step by step, with its values *)

Section render_steps.
Context `{FloatOps} `{Collaborators}.
Context (base rl : nat) (outs : gmap string val) (vbl : nat)
  (bd0 : gmap string val) (h0 : list obj).

Local Abbreviation st := (render_st base outs vbl bd0 h0).
Local Abbreviation wf :=
  (outputs_wf base rl outs h0 ∧ buffer_wf base vbl bd0 h0).

Ltac wf_intro :=
  intros Hwf; pose proof Hwf as [(Hrl & Hrd & Houts) (Hvbl & Hbd & Hrefs)].

Lemma st_init : wf → st [] bd0 None [] h0.
Proof.
  wf_intro. split_and!; try done.
  - intros key tl Hk. destruct (Houts _ _ Hk) as (? & t & ? & ? & ?).
    simplify_eq. by exists t.
  - intros _ key tl t0 Hk Ht. by exists t0.
  - intros l _. by right.
Qed.

Lemma st_rendered log bdn cl news h :
  wf →
  st log bdn cl news h → h !! rl = Some (ODict outs).
Proof.
  wf_intro.
  intros (_ & _ & _ & _ & _ & Hlow & _).
  destruct (Hlow rl Hrl) as [[key Hk]| ->]; [|done].
  destruct (Houts _ _ Hk) as (? & t & ? & ? & ?). simplify_eq.
Qed.

Lemma st_alloc log bdn cl news h t :
  wf →
  st log bdn cl news h →
  st log bdn cl (news ++ [t]) (h ++ [OTensor t]).
Proof.
  wf_intro.
  intros (Hlen & Hb & Hk & Ho & Hr & Hlow & Hhigh & Hnew & Hcl).
  pose proof (lookup_lt_Some _ _ _ Hbd).
  split_and!; try done.
  - rewrite !length_app. simpl. lia.
  - by apply lookup_app_l_Some.
  - intros key tl Hkey. destruct (Ho _ _ Hkey) as [t' ?]. exists t'.
    by apply lookup_app_l_Some.
  - intros Hd key tl t0 Hkey Ht0.
    destruct (Hr Hd _ _ _ Hkey Ht0) as (t' & ? & ?). exists t'.
    split; [done|]. by apply lookup_app_l_Some.
  - intros l Hl. destruct (Hlow l Hl) as [?| <-]; [by left|right].
    apply lookup_app_l. lia.
  - intros l ? ? ?. rewrite lookup_app_l by lia. by apply Hhigh.
  - intros i t' Hi. apply lookup_app_Some in Hi as [Hi|[? Hi]].
    + apply lookup_app_l_Some. by apply Hnew.
    + apply list_lookup_singleton_Some in Hi as [? ->].
      apply lookup_snoc_eq. lia.
  - intros nl Hnl. destruct (Hcl _ Hnl) as ([? ?] & ? & n0 & ? & ?).
    split_and!; try done. exists n0. split; [done|].
    by apply lookup_app_l_Some.
Qed.

Lemma st_set_vw log bdn cl news h d v :
  wf →
  st log bdn cl news h → h !! vbl = Some (ODict d) →
  st log (<["vw" := v]> bdn) cl news
    (<[vbl := ODict (<["vw" := v]> d)]> h).
Proof.
  wf_intro.
  intros (Hlen & Hb & Hk & Ho & Hr & Hlow & Hhigh & Hnew & Hcl) Hd.
  assert (d = bdn) as -> by congruence.
  pose proof (lookup_lt_Some _ _ _ Hbd).
  assert (∀ l o, l ≠ vbl → h !! l = Some o →
                 <[vbl := ODict (<["vw" := v]> bdn)]> h !! l = Some o)
    as Hne.
  { intros l o ? ?. by rewrite list_lookup_insert_ne. }
  split_and!.
  - by rewrite length_insert.
  - apply list_lookup_insert_eq. by eapply lookup_lt_Some.
  - intros k ?. rewrite lookup_insert_ne by done. by apply Hk.
  - intros key tl Hkey. destruct (Ho _ _ Hkey) as [t' ?]. exists t'.
    apply Hne; [congruence|done].
  - intros Hdist key tl t0 Hkey Ht0.
    destruct (Hr Hdist _ _ _ Hkey Ht0) as (t' & ? & ?). exists t'.
    split; [done|]. apply Hne; [congruence|done].
  - intros l Hl. destruct (Hlow l Hl) as [?| <-]; [by left|right].
    apply list_lookup_insert_ne. lia.
  - intros l ? ? ?. rewrite list_lookup_insert_ne by done. by apply Hhigh.
  - intros i t' Hi. apply Hne; [lia|]. by apply Hnew.
  - intros nl Hnl. destruct (Hcl _ Hnl) as ([? ?] & ? & n0 & ? & ?).
    split_and!; try done. exists n0. split; [done|].
    apply Hne; [congruence|done].
Qed.

Lemma replay_snoc log key' inds vals key t0 :
  replay (log ++ [(key', inds, vals)]) key t0
  = (t ← replay log key t0;
     if String.eqb key' key then Torch.index_put t inds vals else Ok t).
Proof. unfold replay. by rewrite foldl_app. Qed.

Lemma st_assign log bdn cl news key inds vals w u w' :
  wf →
  st log bdn cl news (heap w) →
  assign_rendered (VRef rl) key inds vals w = (Ok u, w') →
  st (log ++ [(key, inds, vals)]) bdn cl news (heap w')
  ∧ same_calls w w'.
Proof.
  wf_intro.
  intros S E. pose proof (st_rendered _ _ _ _ _ Hwf S) as Hrl'.
  destruct S as (Hlen & Hb & Hk & Ho & Hr & Hlow & Hhigh & Hnew & Hcl).
  apply assign_rendered_inv in E
    as (rl' & rd & tl & t & t' & [= <-] & Hrl1 & Hkey & Ht & Hp & Hh
        & Hsame).
  assert (rd = outs) as -> by congruence.
  split; [|done]. rewrite Hh.
  destruct (Houts _ _ Hkey) as (tl0 & t0 & [= <-] & Htl & Ht0).
  pose proof (lookup_lt_Some _ _ _ Hbd).
  assert (∀ l o, l ≠ tl → heap w !! l = Some o →
                 <[tl := OTensor t']> (heap w) !! l = Some o) as Hne.
  { intros l o ? ?. by rewrite list_lookup_insert_ne. }
  split_and!.
  - by rewrite length_insert.
  - apply Hne; [lia|done].
  - done.
  - intros key1 tl1 Hkey1. destruct (decide (tl1 = tl)) as [->|].
    + exists t'. apply list_lookup_insert_eq. by eapply lookup_lt_Some.
    + destruct (Ho _ _ Hkey1) as [t1 ?]. exists t1. by apply Hne.
  - intros Hdist key1 tl1 t1 Hkey1 Ht1.
    destruct (Hr Hdist _ _ _ Hkey1 Ht1) as (t2 & Hrep & Ht2).
    rewrite replay_snoc, Hrep. simpl.
    destruct (String.eqb key key1) eqn:Ek.
    + apply String.eqb_eq in Ek as ->. simplify_eq.
      exists t'. split; [done|].
      apply list_lookup_insert_eq. by eapply lookup_lt_Some.
    + exists t2. split; [done|]. apply Hne; [|done].
      intros ->. apply String.eqb_neq in Ek. apply Ek.
      by eapply Hdist.
  - intros l Hl. destruct (decide (l = tl)) as [->|]; [left; eauto|].
    destruct (Hlow l Hl) as [?| <-]; [by left|right].
    by apply list_lookup_insert_ne.
  - intros l ? ? ?. rewrite list_lookup_insert_ne by lia. by apply Hhigh.
  - intros i t1 Hi. apply Hne; [lia|]. by apply Hnew.
  - intros nl Hnl. destruct (Hcl _ Hnl) as ([? ?] & ? & n0 & ? & ?).
    split_and!; try done. exists n0. split; [done|].
    apply Hne; [lia|done].
Qed.

(** A reference of the buffer, in a heap of the rendering before the
    clamping: the object is the one of the start. *)
Lemma st_buffer_ref log bdn news h k l :
  wf →
  st log bdn None news h → k ≠ "vw" → bdn !! k = Some (VRef l) →
  bd0 !! k = Some (VRef l) ∧ base ≤ l < length h0
  ∧ (l ≠ vbl → h !! l = h0 !! l).
Proof.
  wf_intro.
  intros (Hlen & Hb & Hk & Ho & Hr & Hlow & Hhigh & Hnew & Hcl) Hne Hl.
  rewrite Hk in Hl by done. pose proof (Hrefs _ _ Hl) as Hb0.
  split_and!; try done; try lia.
  intros ?. by apply Hhigh.
Qed.

Lemma st_read log bdn news h d k lt t :
  wf →
  st log bdn None news h →
  h !! vbl = Some (ODict d) → d !! k = Some (VRef lt) →
  h !! lt = Some (OTensor t) → k ≠ "vw" →
  tensor_at h0 bd0 k = Some t.
Proof.
  wf_intro.
  intros S Hd Hk Ht Hne.
  assert (d = bdn) as -> by (destruct S as (_ & ? & _); congruence).
  destruct (st_buffer_ref _ _ _ _ _ _ Hwf S Hne Hk) as (Hk0 & _ & Heq).
  unfold tensor_at. rewrite Hk0, <- Heq, Ht; [done|].
  destruct S as (_ & ? & _). congruence.
Qed.

Lemma st_clamp log bdn news w n' w' :
  wf →
  st log bdn None news (heap w) →
  clamp_nablas_ (VRef vbl) w = (Ok n', w') →
  ∃ nl n0,
    tensor_at h0 bd0 "nablas" = Some n0
    ∧ n' = Torch.clamp (-1) 1 n0
    ∧ st log bdn (Some nl) news (heap w')
    ∧ same_calls w w'.
Proof.
  wf_intro.
  intros S E.
  apply clamp_nablas_inv in E
    as (vbl' & d & nl & n & [= <-] & Hd & Hk & Hn & -> & Hh & Hsame).
  pose proof (st_read _ _ _ _ _ _ _ _ Hwf S Hd Hk Hn) as Hn0.
  assert (d = bdn) as -> by (destruct S as (_ & ? & _); congruence).
  destruct (st_buffer_ref _ _ _ _ "nablas" _ Hwf S ltac:(done) Hk)
    as (Hk0 & Hnl & Heq).
  assert (nl ≠ vbl) as Hnv by congruence. specialize (Heq Hnv).
  destruct S as (Hlen & Hb & Hkk & Ho & Hr & Hlow & Hhigh & Hnew & Hcl).
  exists nl, n. split_and!; try done; [by apply Hn0|]. rewrite Hh.
  assert (∀ l o, l ≠ nl → heap w !! l = Some o →
                 <[nl := OTensor (Torch.clamp (-1) 1 n)]> (heap w) !! l
                 = Some o) as Hne.
  { intros l o ? ?. by rewrite list_lookup_insert_ne. }
  split_and!.
  - by rewrite length_insert.
  - apply Hne; [congruence|done].
  - done.
  - intros key tl Hkey. destruct (Ho _ _ Hkey) as [t1 ?]. exists t1.
    apply Hne; [|done]. destruct (Houts _ _ Hkey) as (? & ? & ? & ? & ?).
    simplify_eq. lia.
  - intros Hdist key tl t0 Hkey Ht0.
    destruct (Hr Hdist _ _ _ Hkey Ht0) as (t1 & ? & ?). exists t1.
    split; [done|]. apply Hne; [|done].
    destruct (Houts _ _ Hkey) as (? & ? & ? & ? & ?). simplify_eq. lia.
  - intros l Hl. destruct (Hlow l Hl) as [?| <-]; [by left|right].
    apply list_lookup_insert_ne. lia.
  - intros l ? ? Hne'. rewrite list_lookup_insert_ne by congruence.
    by apply Hhigh.
  - intros i t1 Hi. apply Hne; [lia|]. by apply Hnew.
  - intros nl' [= <-]. destruct Hnl. split_and!; try done.
    exists n. split; [by rewrite <- Heq|].
    apply list_lookup_insert_eq. by eapply lookup_lt_Some.
Qed.

(** The index list that was read in a heap of the rendering is the one
    of the start. *)
Lemma st_index log bdn cl news h v inds :
  wf →
  st log bdn cl news h → index_of h v = Some inds →
  index_of h0 v = Some inds.
Proof.
  wf_intro.
  intros (Hlen & Hb & Hk & Ho & Hr & Hlow & Hhigh & Hnew & Hcl).
  unfold index_of. destruct v as [| | | | | |l']; try done.
  intros Hi. destruct (h !! l') as [o|] eqn:Hl; [|done].
  assert (h0 !! l' = Some o) as ->; [|done].
  destruct o as [| |lt]; try done.
  pose proof (lookup_lt_Some _ _ _ Hl) as Hlt.
  destruct (decide (l' < base)) as [Hlow'|].
  { destruct (Hlow _ Hlow') as [[key Hkey]| <-]; [|done].
    destruct (Ho _ _ Hkey) as [? ?]. congruence. }
  destruct (decide (l' < length h0)) as [Hin|].
  - rewrite <- Hhigh; [done|lia|congruence|].
    intros Hc. destruct (Hcl _ Hc) as (_ & _ & ? & _ & ?). congruence.
  - destruct (lookup_lt_is_Some_2 news (l' - length h0)) as [t Ht]; [lia|].
    apply Hnew in Ht. replace (length h0 + (l' - length h0)) with l' in Ht
      by lia. congruence.
Qed.
End render_steps.

(** The state of a rendering, brought forward along the steps of a run. *)
Ltac st_step Hwf :=
  match goal with
  | S : render_st _ _ ?vbl _ ?h0 _ _ None _ (heap ?w),
    Hd : heap ?w !! ?vbl = Some (ODict ?d),
    Hk : ?d !! ?k = Some (VRef ?lt),
    Ht : heap ?w !! ?lt = Some (OTensor ?t) |- _ =>
      let R := fresh "R" in
      pose proof (st_read _ _ _ _ _ _ _ _ _ _ _ k _ _ Hwf S Hd Hk Ht
                    ltac:(done)) as R;
      clear Ht
  | S : render_st _ _ _ _ ?h0 _ _ _ _ (heap ?w),
    Hi : index_of (heap ?w) _ = Some _ |- _ =>
      lazymatch h0 with
      | heap w => fail
      | _ => apply (st_index _ _ _ _ _ _ _ _ _ _ _ _ _ Hwf S) in Hi
      end
  | S : render_st _ _ _ _ _ _ _ _ _ (heap ?w),
    Hh : heap ?w1 = heap ?w ++ [OTensor ?t] |- _ =>
      apply (st_alloc _ _ _ _ _ _ _ _ _ _ _ t Hwf) in S;
      rewrite <- Hh in S; clear Hh
  | S : render_st _ _ ?vbl _ _ _ _ _ _ (heap ?w),
    Hd : heap ?w !! ?vbl = Some (ODict ?d),
    Hh : heap ?w1 = <[?vbl := ODict (<["vw" := ?v]> ?d)]> (heap ?w) |- _ =>
      apply (λ S, st_set_vw _ _ _ _ _ _ _ _ _ _ _ _ v Hwf S Hd) in S;
      rewrite <- Hh in S; clear Hh
  | S : render_st _ _ _ _ _ _ _ _ _ (heap ?w),
    E : assign_rendered _ _ _ _ ?w = (Ok _, _) |- _ =>
      apply (st_assign _ _ _ _ _ _ _ _ _ _ _ _ _ _ _ _ Hwf S) in E
        as [? [? ?]];
      clear S
  | S : render_st _ _ _ _ _ _ _ None _ (heap ?w),
    E : clamp_nablas_ _ ?w = (Ok _, _) |- _ =>
      apply (st_clamp _ _ _ _ _ _ _ _ _ _ _ _ Hwf S) in E
        as (? & ? & ? & ? & ? & [? ?]);
      clear S; simplify_eq
  end.

Ltac st_fwd Hwf := repeat st_step Hwf.


Lemma outcome_bind_ok {A B} (a : A) (f : A → outcome B) :
  (Ok a ≫= f) = f a.
Proof. done. Qed.

(** The values of a run, read off the equations of its steps. *)
Ltac values :=
  repeat first
    [ match goal with
      | Hx : Ok _ = ?e |- context [?e] => rewrite <- Hx
      end
    | rewrite outcome_bind_ok ];
  reflexivity.

Ltac fin :=
  cbv iota; cbn [andb negb];
  lazymatch goal with
  | |- ∃ _, _ => eexists; fin
  | |- _ ∧ _ => split; [fin | fin]
  | |- same_calls _ _ => split; congruence
  | |- is_Some _ => eauto
  | |- _ => first [ eassumption | symmetry; eassumption | reflexivity
                  | values ]
  end.

Section effects.
Context `{FloatOps} `{Collaborators}.

Lemma render_batched_effects base rl outs vbl bd riv (bn br bm : bool)
    w u w' :
  outputs_wf base rl outs (heap w) ∧ buffer_wf base vbl bd (heap w) →
  render_batched (VRef vbl) (VRef rl) riv (VBool bn) (VBool br) (VBool bm) w
  = (Ok u, w') →
  ∃ alpha vw vw_sum inds t d rgb_log nrm_log cl,
    tensor_at (heap w) bd "opacity_alpha" = Some alpha
    ∧ Graphics.ray_alpha_to_vw alpha = Ok vw
    ∧ Torch.sum_last vw = Ok vw_sum
    ∧ index_of (heap w) riv = Some inds
    ∧ tensor_at (heap w) bd "t" = Some t
    ∧ (if bn
       then vwn ← Torch.div vw
                    (Torch.add_scalar (Torch.unsqueeze_last vw_sum)
                       (1 # 10000000000));
            p ← Torch.mul vwn t; Torch.sum_last p
       else p ← Torch.mul vw t; Torch.sum_last p) = Ok d
    ∧ (if br
       then ∃ rgb c,
           tensor_at (heap w) bd "rgb" = Some rgb
           ∧ (p ← Torch.mul (Torch.unsqueeze_last vw) rgb;
              Torch.sum_penult p) = Ok c
           ∧ rgb_log = [("rgb_volume", inds, c)]
       else rgb_log = [])
    ∧ (if bm
       then ∃ nablas n,
           tensor_at (heap w) bd "nablas" = Some nablas
           ∧ (if training (self w)
              then p ← Torch.mul (Torch.unsqueeze_last vw) nablas;
                   Torch.sum_penult p
              else u ← Functional.normalize (Torch.clamp (-1) 1 nablas);
                   p ← Torch.mul (Torch.unsqueeze_last vw) u;
                   Torch.sum_penult p) = Ok n
           ∧ nrm_log = [("normals_volume", inds, n)]
       else nrm_log = [])
    ∧ (if bm && negb (training (self w)) then is_Some cl else cl = None)
    ∧ render_st base outs vbl bd (heap w)
        ([("mask_volume", inds, vw_sum); ("depth_volume", inds, d)]
           ++ rgb_log ++ nrm_log)
        (<["vw" := VRef (length (heap w))]> bd) cl [vw] (heap w')
    ∧ same_calls w w'.
Proof.
  intros Hwf E. pose proof (st_init _ _ _ _ _ _ Hwf) as S.
  destruct (proj2 Hwf) as (_ & Hbd & _).
  unfold render_batched in E. mrun.
  all: st_fwd Hwf.
  all: repeat match goal with
    | E : truthy (VBool _) _ = (Ok _, _) |- _ =>
        unfold truthy in E; apply mret_inv in E as [? _]; simplify_eq
    end.
  all: try match goal with
    | Ht : training (self ?wx) = ?b |- _ =>
        assert (training (self w) = b) as -> by congruence
    end.
  all: fin.
Qed.

Lemma render_packed_effects base rl outs vbl bd riv (bn br bm : bool)
    w u w' :
  outputs_wf base rl outs (heap w) ∧ buffer_wf base vbl bd (heap w) →
  render_packed (VRef vbl) (VRef rl) riv (VBool bn) (VBool br) (VBool bm) w
  = (Ok u, w') →
  ∃ pi packs alpha vw vw_sum inds t d rgb_log nrm_log cl,
    bd !! "pack_infos_hit" = Some pi
    ∧ get_pack_infos pi w = (Ok packs, w)
    ∧ tensor_at (heap w) bd "opacity_alpha" = Some alpha
    ∧ vw = Graphics.packed_alpha_to_vw alpha packs
    ∧ Graphics.packed_sum (Torch.view_flat vw) packs = Ok vw_sum
    ∧ index_of (heap w) riv = Some inds
    ∧ tensor_at (heap w) bd "t" = Some t
    ∧ (if bn
       then vwn ← Graphics.packed_div vw
                    (Torch.add_scalar vw_sum (1 # 10000000000)) packs;
            p ← Torch.mul vwn (Torch.view_flat t);
            Graphics.packed_sum p packs
       else p ← Torch.mul (Torch.view_flat vw) (Torch.view_flat t);
            Graphics.packed_sum p packs) = Ok d
    ∧ (if br
       then ∃ rgb c,
           tensor_at (heap w) bd "rgb" = Some rgb
           ∧ (v1 ← Torch.view_rows 1 vw;
              r3 ← Torch.view_rows 3 rgb;
              p ← Torch.mul v1 r3;
              Graphics.packed_sum p packs) = Ok c
           ∧ rgb_log = [("rgb_volume", inds, c)]
       else rgb_log = [])
    ∧ (if bm
       then ∃ nablas n,
           tensor_at (heap w) bd "nablas" = Some nablas
           ∧ (if training (self w)
              then v1 ← Torch.view_rows 1 vw;
                   n3 ← Torch.view_rows 3 nablas;
                   p ← Torch.mul v1 n3;
                   Graphics.packed_sum p packs
              else v1 ← Torch.view_rows 1 vw;
                   u ← Functional.normalize (Torch.clamp (-1) 1 nablas);
                   n3 ← Torch.view_rows 3 u;
                   p ← Torch.mul v1 n3;
                   Graphics.packed_sum p packs) = Ok n
           ∧ nrm_log = [("normals_volume", inds, n)]
       else nrm_log = [])
    ∧ (if bm && negb (training (self w)) then is_Some cl else cl = None)
    ∧ render_st base outs vbl bd (heap w)
        ([("mask_volume", inds, vw_sum); ("depth_volume", inds, d)]
           ++ rgb_log ++ nrm_log)
        (<["vw" := VRef (length (heap w))]> bd) cl [vw] (heap w')
    ∧ same_calls w w'.
Proof.
  intros Hwf E. pose proof (st_init _ _ _ _ _ _ Hwf) as S.
  destruct (proj2 Hwf) as (_ & Hbd & _).
  unfold render_packed in E. mrun.
  all: st_fwd Hwf.
  all: repeat match goal with
    | E : truthy (VBool _) _ = (Ok _, _) |- _ =>
        unfold truthy in E; apply mret_inv in E as [? _]; simplify_eq
    end.
  all: try match goal with
    | Ht : training (self ?wx) = ?b |- _ =>
        assert (training (self w) = b) as -> by congruence
    end.
  all: fin.
Qed.
End effects.

(** ** [shrink] *)

(** [shrink] stopped after the calls [evs]: chain the trace equations and
    compare with [shrink_calls]. *)
Ltac shrink_stops a o n :=
  exists a, o, n;
  eexists;
  split;
    [ repeat match goal with T : trace _ = _ |- _ => rewrite T; clear T end;
      rewrite <- ?app_assoc; simpl; try reflexivity;
      symmetry; apply app_nil_r
    | split; [ by eexists | done ] ].

Section shrink.
Context `{FloatOps} `{Collaborators}.

(** The calls of [shrink], in every outcome, are an initial part of
    [shrink_calls]; they are all of them when [shrink] returns. *)
Lemma shrink_trace w r w' :
  shrink w = (r, w') →
  ∃ a o n evs,
    trace w' = trace w ++ evs
    ∧ evs `prefix_of` shrink_calls a o n
    ∧ (r = Ok () → evs = shrink_calls a o n).
Proof.
  unfold shrink, shrink_calls. intros E.
  pose (dummy := Tensor [] []).
  bind_inv E; apply call1_inv in E0 as (T0 & _ & _);
    [|shrink_stops VNone dummy dummy].
  bind_inv E;
    (apply accel_call_inv in E0 as [(_ & ? & ->)|(_ & E0)];
     [|apply call1_inv in E0 as (T1 & _ & _)]);
    simplify_eq; try shrink_stops VNone dummy dummy.
  rename a0 into new_aabb.
  bind_inv E; apply call1_inv in E0 as (T2 & _ & _);
    [|shrink_stops new_aabb dummy dummy].
  bind_inv E;
    (apply accel_call_inv in E0 as [(_ & ? & ->)|(_ & E0)];
     [|apply call1_inv in E0 as (T3 & _ & _)]);
    simplify_eq; try shrink_stops new_aabb dummy dummy.
  bind_inv E; apply call1_inv in E0 as (T4 & _ & _);
    [|shrink_stops new_aabb dummy dummy].
  bind_inv E; apply tolist_rows_inv in E0 as ->;
    [|shrink_stops new_aabb dummy dummy].
  bind_inv E; apply tolist_rows_inv in E0 as ->;
    [|shrink_stops new_aabb dummy dummy].
  bind_inv E; apply call1_inv in E0 as (T5 & _ & _);
    [inversion E; subst|]; shrink_stops new_aabb a3 a4.
Qed.

Lemma prefix_rescales_in_order a o n evs :
  evs `prefix_of` shrink_calls a o n → rescales_in_order evs.
Proof.
  intros [k Hk] i b Hi.
  assert (shrink_calls a o n !! i = Some (SpaceRescaleVolume b)) as Hi'.
  { rewrite Hk. by apply lookup_app_l_Some. }
  assert (i = 4 ∧ b = a) as [-> ->].
  { unfold shrink_calls in Hi'.
    do 6 (destruct i as [|i]; simpl in Hi'; simplify_eq; try done). }
  assert (4 < length evs) as Hlen by (by eapply lookup_lt_Some).
  exists 2, 3. split_and!; try lia.
  - rewrite <- (lookup_app_l evs k) by lia. by rewrite <- Hk.
  - rewrite <- (lookup_app_l evs k) by lia. by rewrite <- Hk.
Qed.

(** C3.  Whatever the outcome of [shrink], the calls it makes are such
    that the space is rescaled only after the network has been rescaled
    and, after that, the acceleration structure, all to the same new
    bounds; and when [shrink] returns, the three rescales have been
    made, in that order, the space last. *)
Theorem shrink_rescales_space_last w :
  ∃ evs,
    trace (shrink w).2 = trace w ++ evs
    ∧ rescales_in_order evs
    ∧ ((shrink w).1 = Ok () →
       ∃ a o n, evs = [SpaceAabb; AccelTryShrink; NetRescaleVolume a;
                       AccelRescaleVolume a; SpaceRescaleVolume a;
                       LogInfo o n]).
Proof.
  destruct (shrink w) as [r w'] eqn:E.
  destruct (shrink_trace _ _ _ E) as (a & o & n & evs & T & P & F).
  exists evs. split_and!; [done| by eapply prefix_rescales_in_order |].
  simpl. intros ->. exists a, o, n. by apply F.
Qed.
End shrink.

(** ** The training hooks without an acceleration structure *)

Section hooks.
Context `{FloatOps} `{Collaborators}.

Lemma skip_when_none w0 w1 (skip_accel : bool) (other : bool) :
  accel (self w0) = None → self w1 = self w0 →
  other && negb skip_accel && bool_decide (accel (self w1) ≠ None) = false.
Proof.
  intros Hn ->. rewrite Hn. rewrite bool_decide_eq_false_2 by auto.
  by rewrite andb_false_r.
Qed.

Lemma forward_sdf_none x skip_accel kwargs w :
  accel (self w) = None →
  forward_sdf x skip_accel kwargs w = call1 (NetForwardSdf x kwargs) w.
Proof.
  intros Hn. unfold forward_sdf.
  destruct (call1 (NetForwardSdf x kwargs) w) as [[ret|e] w1] eqn:E.
  - rewrite (bind_ok _ _ _ _ _ E). apply call1_inv in E as (_ & S & _).
    unfold get_self. unfold mbind at 1, M_bind at 1.
    by rewrite (skip_when_none w w1).
  - by rewrite (bind_raise _ _ _ _ _ E).
Qed.

Lemma forward_sdf_nablas_none x skip_accel kwargs w :
  accel (self w) = None →
  forward_sdf_nablas x skip_accel kwargs w
  = call1 (NetForwardSdfNablas x kwargs) w.
Proof.
  intros Hn. unfold forward_sdf_nablas.
  destruct (call1 (NetForwardSdfNablas x kwargs) w) as [[ret|e] w1] eqn:E.
  - rewrite (bind_ok _ _ _ _ _ E). apply call1_inv in E as (_ & S & _).
    unfold get_self. unfold mbind at 1, M_bind at 1.
    by rewrite (skip_when_none w w1).
  - by rewrite (bind_raise _ _ _ _ _ E).
Qed.

Lemma training_initialize_none config skip_accel w :
  accel (self w) = None →
  training_initialize config skip_accel w
  = call1 (NetTrainingInitialize config) w.
Proof.
  intros Hn. unfold training_initialize.
  destruct (call1 (NetTrainingInitialize config) w) as [[ret|e] w1] eqn:E.
  - rewrite (bind_ok _ _ _ _ _ E). apply call1_inv in E as (_ & S & _).
    unfold get_self. unfold mbind at 1, M_bind at 1.
    pose proof (skip_when_none w w1 skip_accel true Hn S) as Hs.
    simpl in Hs. by rewrite Hs.
  - by rewrite (bind_raise _ _ _ _ _ E).
Qed.

Lemma training_before_per_step_none cur_it skip_accel w :
  accel (self w) = None →
  training_before_per_step cur_it skip_accel w
  = (set_it cur_it;; call1 (NetTrainingBeforePerStep cur_it);; mret ()) w.
Proof.
  intros Hn. unfold training_before_per_step.
  destruct (set_it cur_it w) as [[[]|e] w0] eqn:E0; [|done].
  rewrite !(bind_ok _ _ _ _ _ E0).
  assert (accel (self w0) = None) as Hn0.
  { unfold set_it, get_self, set_self in E0.
    unfold mbind, M_bind in E0. by inversion E0. }
  destruct (call1 (NetTrainingBeforePerStep cur_it) w0)
    as [[ret|e] w1] eqn:E.
  - rewrite !(bind_ok _ _ _ _ _ E). apply call1_inv in E as (_ & S & _).
    unfold get_self. unfold mbind at 1, M_bind at 1.
    pose proof (skip_when_none w0 w1 skip_accel true Hn0 S) as Hs.
    simpl in Hs. by rewrite Hs.
  - by rewrite !(bind_raise _ _ _ _ _ E).
Qed.

Lemma training_after_per_step_none cur_it skip_accel w :
  accel (self w) = None →
  training_after_per_step cur_it skip_accel w
  = (call1 (NetTrainingAfterPerStep cur_it);; mret ()) w.
Proof.
  intros Hn. unfold training_after_per_step.
  destruct (call1 (NetTrainingAfterPerStep cur_it) w)
    as [[ret|e] w1] eqn:E.
  - rewrite !(bind_ok _ _ _ _ _ E). apply call1_inv in E as (_ & S & _).
    unfold get_self. unfold mbind at 1, M_bind at 1.
    pose proof (skip_when_none w w1 skip_accel true Hn S) as Hs.
    simpl in Hs. by rewrite Hs.
  - by rewrite !(bind_raise _ _ _ _ _ E).
Qed.

(** C8, as the code has it.  With [self.accel] at [None], the hooks that
    check for it reduce to the call of the underlying network method:
    [forward_sdf] and [forward_sdf_nablas] collect no samples,
    [training_initialize] does not initialise, [training_before_per_step]
    does not step, and [training_after_per_step] does not shrink.  None
    of them fails unless the network method does. *)
Theorem accel_none_hooks_skip w :
  accel (self w) = None →
  (∀ x skip_accel kwargs,
      forward_sdf x skip_accel kwargs w
      = call1 (NetForwardSdf x kwargs) w)
  ∧ (∀ x skip_accel kwargs,
      forward_sdf_nablas x skip_accel kwargs w
      = call1 (NetForwardSdfNablas x kwargs) w)
  ∧ (∀ config skip_accel,
      training_initialize config skip_accel w
      = call1 (NetTrainingInitialize config) w)
  ∧ (∀ cur_it skip_accel,
      training_before_per_step cur_it skip_accel w
      = (set_it cur_it;;
         call1 (NetTrainingBeforePerStep cur_it);; mret ()) w)
  ∧ (∀ cur_it skip_accel,
      training_after_per_step cur_it skip_accel w
      = (call1 (NetTrainingAfterPerStep cur_it);; mret ()) w).
Proof.
  intros Hn. split_and!; intros.
  - by apply forward_sdf_none.
  - by apply forward_sdf_nablas_none.
  - by apply training_initialize_none.
  - by apply training_before_per_step_none.
  - by apply training_after_per_step_none.
Qed.
End hooks.

(** With [self.accel] at [None], the hooks of the scene run without
    failing. *)
Lemma accel_none_hooks_skip_witness :
  let w := World [] [] Scene.self_no_accel in
  accel (self w) = None
  ∧ (@forward_sdf Scene.collaborators VNone false ∅ w).1 = Ok VNone
  ∧ (@training_before_per_step Scene.floats Scene.collaborators 7 false w).1
    = Ok ().
Proof.
  intros w.
  destruct (@accel_none_hooks_skip Scene.floats Scene.collaborators w eq_refl)
    as (F & _ & _ & B & _).
  split; [reflexivity|]. split.
  - rewrite F. reflexivity.
  - rewrite B. reflexivity.
Defined.

(** C8, as stated, fails for [shrink] itself: it has no check of its own,
    and called with [self.accel] at [None] it raises on the attribute
    lookup [self.accel.try_shrink]. *)
Lemma shrink_without_accel_raises :
  let w := World [] [] Scene.self_no_accel in
  accel (self w) = None
  ∧ (@shrink Scene.collaborators w).1 = Raise (AttributeError "try_shrink").
Proof. split; reflexivity. Qed.

(** ** [ray_test] *)

Section ray_test.
Context `{FloatOps} `{Collaborators}.

Lemma check_extra_run n kv w :
  ∃ r, check_extra n kv w = (r, w)
       ∧ (r = Ok () ↔ extra_passes (heap w) n kv = true).
Proof.
  unfold check_extra, extra_passes. unfold mbind at 1, M_bind at 1.
  rewrite is_tensor_run.
  destruct (tensor_shape (heap w) kv.2) as [[|m rest]|] eqn:Es.
  - rewrite bool_decide_eq_true_2 by eauto.
    unfold mbind, M_bind. rewrite get_shape_run, Es. eexists; split; done.
  - rewrite bool_decide_eq_true_2 by eauto.
    unfold mbind, M_bind. rewrite get_shape_run, Es.
    case_decide; subst.
    + rewrite bool_decide_eq_true_2 by done. by eexists.
    + rewrite bool_decide_eq_false_2 by done. eexists; split; done.
  - rewrite bool_decide_eq_false_2 by (by intros [? ?]). by eexists.
Qed.

Lemma for_each_check_extra_run n l w :
  ∃ r, for_each (check_extra n) l w = (r, w)
       ∧ (r = Ok () ↔ forallb (extra_passes (heap w) n) l = true).
Proof.
  induction l as [|kv l (r & E & IH)]; simpl.
  - by eexists.
  - destruct (check_extra_run n kv w) as (r1 & E1 & H1).
    unfold mbind, M_bind. rewrite E1. destruct r1 as [[]|e].
    + rewrite E. exists r. split; [done|].
      rewrite (proj1 H1 eq_refl). simpl. done.
    + exists (Raise e). split; [done|].
      destruct (extra_passes (heap w) n kv); simpl; [|done].
      split; [done|]. intros _. by apply H1.
Qed.

(** Inputs that pass the assertions are handed on to the space. *)
Lemma ray_test_passes rays_o rays_d near far extra w :
  passes_ray_test (heap w) rays_o rays_d extra = true →
  ray_test rays_o rays_d near far extra w
  = call1 (SpaceRayTest rays_o rays_d near far extra) w.
Proof.
  unfold passes_ray_test, ray_test. intros Hp.
  destruct (tensor_shape (heap w) rays_o) as [so|] eqn:Eo; [|done].
  destruct (tensor_shape (heap w) rays_d) as [sd|] eqn:Ed;
    [|by repeat case_match].
  destruct so as [|n [|c [|]]]; try done.
  destruct sd as [|n' [|c' [|]]]; try done.
  unfold mbind at 1, M_bind at 1. rewrite get_shape_run, Eo. simpl.
  unfold mbind at 1, M_bind at 1. rewrite get_shape_run, Ed. simpl.
  destruct (for_each_check_extra_run n (map_to_list extra) w)
    as (r & E & Hr).
  unfold mbind at 1, M_bind at 1. rewrite E.
  by rewrite (proj2 Hr Hp).
Qed.

(** Inputs that do not pass are rejected before any call is made. *)
Lemma ray_test_rejects rays_o rays_d near far extra w :
  passes_ray_test (heap w) rays_o rays_d extra = false →
  ∃ e, ray_test rays_o rays_d near far extra w = (Raise e, w).
Proof.
  unfold passes_ray_test, ray_test. intros Hp.
  unfold mbind at 1, M_bind at 1. rewrite get_shape_run.
  destruct (tensor_shape (heap w) rays_o) as [so|] eqn:Eo; [|by eexists].
  destruct (decide (length so = 2)) as [Ho|Ho]; cycle 1.
  { rewrite bool_decide_eq_false_2 by done. by eexists. }
  rewrite bool_decide_eq_true_2 by done. simpl.
  unfold mbind at 1, M_bind at 1. rewrite get_shape_run.
  destruct (tensor_shape (heap w) rays_d) as [sd|] eqn:Ed; [|by eexists].
  destruct (decide (length sd = 2)) as [Hd|Hd]; cycle 1.
  { rewrite bool_decide_eq_false_2 by done. by eexists. }
  rewrite bool_decide_eq_true_2 by done. simpl.
  destruct so as [|n [|c [|]]]; try done.
  destruct sd as [|n' [|c' [|]]]; try done.
  destruct (for_each_check_extra_run n (map_to_list extra) w)
    as (r & E & Hr).
  unfold mbind at 1, M_bind at 1. rewrite E.
  destruct r as [[]|e]; [|by eexists].
  rewrite (proj1 Hr eq_refl) in Hp. done.
Qed.
End ray_test.

(** C9, at the failing input.  Origins and directions of shape [[2, 4]]
    pass the assertion of [ray_test], whose message asks for [[N, 3]]: the
    rays are handed to the space, and [ray_test] returns what the space
    returns. *)
Lemma ray_test_accepts_four_columns :
  let w := World Scene.rays_four_columns [] Scene.self_no_accel in
  tensor_shape (heap w) (VRef 0) = Some [2; 4]
  ∧ @ray_test Scene.collaborators (VRef 0) (VRef 1) VNone VNone ∅ w
    = (Ok VNone,
       World Scene.rays_four_columns
         [SpaceRayTest (VRef 0) (VRef 1) VNone VNone ∅]
         Scene.self_no_accel).
Proof. split; reflexivity. Qed.

(** ** The dispatch on [query_mode] *)

Section dispatch.
Context `{FloatOps} `{Collaborators}.

(** A mode without a sampler makes the dispatch raise, in the world it
    starts in: [NotImplementedError] for the two modes that are named
    and not implemented, and for every other mode the [RuntimeError]
    whose message ends with the mode, when it is a string. *)
Lemma dispatch_unsupported ray_tested config query_mode with_rgb
    with_normal forward_inv_s w :
  sampler_of_mode query_mode = None →
  ∃ e, dispatch ray_tested config query_mode with_rgb with_normal
         forward_inv_s w = (Raise e, w)
       ∧ if declared_unimplemented query_mode
         then e = NotImplementedError
         else ∃ msg, e = RuntimeError ("Invalid query_mode=" +:+ msg)
                     ∧ ∀ s, query_mode = VStr s → msg = s.
Proof.
  unfold sampler_of_mode, dispatch, declared_unimplemented. intros Hm.
  repeat (case_match; simplify_eq/=);
    (eexists; split; [done|]); try done.
  all: eexists; split; [done|]; by intros ? [= ->].
Qed.

(** The call of a sampler: its arguments are evaluated, which fails when
    the config lacks one of them or [query_param] repeats a keyword, and
    then the sampler is called. *)
Lemma sample_call_run smp ray_tested config with_rgb with_normal
    forward_inv_s w :
  match sampler_args_of (heap w) (self w) ray_tested config with_rgb
          with_normal forward_inv_s smp with
  | Some args =>
      (s ← get_self;
       perturb ← getattr config "perturb";
       qp ← getattr config "query_param";
       query_param ← get_dict qp;
       if repeats_keyword (takes_inv_s smp) query_param
       then raise (TypeError "got multiple values for keyword argument")
       else
         call_ext (Sample smp
                     (SamplerArgs ray_tested with_rgb with_normal
                        (upsample_s_divisor s) perturb
                        (if takes_inv_s smp then Some forward_inv_s
                         else None)
                        query_param))) w
      = call_ext (Sample smp args) w
  | None =>
      ∃ e,
        (s ← get_self;
         perturb ← getattr config "perturb";
         qp ← getattr config "query_param";
         query_param ← get_dict qp;
         if repeats_keyword (takes_inv_s smp) query_param
         then raise (TypeError "got multiple values for keyword argument")
         else
           call_ext (Sample smp
                       (SamplerArgs ray_tested with_rgb with_normal
                          (upsample_s_divisor s) perturb
                          (if takes_inv_s smp then Some forward_inv_s
                           else None)
                          query_param))) w
        = (Raise e, w)
        ∧ argument_error e = true
  end.
Proof.
  unfold sampler_args_of, dict_at, getattr, get_dict, load, get_self, raise.
  unfold mbind, M_bind, option_bind, mret, M_ret.
  repeat (case_match; simplify_eq/=); try done; eauto.
Qed.

Lemma dispatch_implemented smp ray_tested config query_mode with_rgb
    with_normal forward_inv_s w :
  sampler_of_mode query_mode = Some smp →
  match sampler_args_of (heap w) (self w) ray_tested config with_rgb
          with_normal forward_inv_s smp with
  | Some args =>
      dispatch ray_tested config query_mode with_rgb with_normal
        forward_inv_s w = call_ext (Sample smp args) w
  | None =>
      ∃ e, dispatch ray_tested config query_mode with_rgb with_normal
             forward_inv_s w = (Raise e, w)
           ∧ argument_error e = true
  end.
Proof.
  unfold sampler_of_mode, dispatch. intros Hm.
  pose proof (sample_call_run smp ray_tested config with_rgb with_normal
                forward_inv_s w) as Hs.
  destruct (str_eq query_mode "march_occ_multi_upsample") eqn:E1.
  { by simplify_eq. }
  destruct (str_eq query_mode "march_occ_multi_upsample_compressed")
    eqn:E2.
  { by simplify_eq. }
  destruct (str_eq query_mode
              "march_occ_multi_upsample_compressed_strategy") eqn:E3.
  { destruct query_mode; try done. simpl in *.
    apply bool_decide_eq_true in E3 as ->. done. }
  destruct (str_eq query_mode "coarse_multi_upsample") eqn:E4.
  { by simplify_eq. }
  destruct (str_eq query_mode "march_occ") eqn:E5.
  { destruct query_mode; try done. simpl in *.
    apply bool_decide_eq_true in E5 as ->. done. }
  destruct (str_eq query_mode "sphere_trace") eqn:E6; [|done].
  by simplify_eq.
Qed.

Lemma call_ext_trace c w : trace (call_ext c w).2 = trace w ++ [c].
Proof. unfold call_ext. by destruct (respond w c). Qed.
End dispatch.

(** ** The prepared outputs of [ray_query] *)

Section prepare.
Context `{FloatOps} `{Collaborators}.

(** What [prepare_rendered] leaves in the heap: the dict [rendered],
    entered in [raw_ret], whose entries are new tensors of zeros over the
    shape of the ray batch; nothing else of the heap is touched. *)
Lemma prepare_rendered_inv rawl ray_input with_rgb with_normal w
    rendered w' :
  rawl < length (heap w) →
  prepare_rendered (VRef rawl) ray_input with_rgb with_normal w
  = (Ok rendered, w') →
  ∃ rawd prefix rd,
    heap w !! rawl = Some (ODict rawd)
    ∧ prefix_rays (heap w) ray_input = Some prefix
    ∧ heap w' !! rawl = Some (ODict (<["rendered" := rendered]> rawd))
    ∧ zero_outputs (heap w') (length (heap w)) rendered prefix
    ∧ dict_at (heap w') rendered = Some rd
    ∧ (with_rgb = VBool true → is_Some (rd !! "rgb_volume"))
    ∧ (with_normal = VBool true → is_Some (rd !! "normals_volume"))
    ∧ (∀ l, l < length (heap w) → l ≠ rawl → heap w' !! l = heap w !! l)
    ∧ length (heap w) ≤ length (heap w')
    ∧ trace w' = trace w ∧ self w' = self w.
Proof.
  unfold prepare_rendered. intros Hraw E. mrun.
  all: heap_lengths; heap_facts.
  all: match goal with
       | Hs : tensor_shape _ _ = Some ?sh |- _ =>
           eexists _, (removelast sh), _
       end.
  all: split_and!; try done.
  all: try (heap_back; done).
  all: try lia.
  all: try (intros l ? ?; heap_back; done).
  all: try (unfold prefix_rays, dict_at; by simplify_option_eq).
  all: try (unfold dict_at; heap_back; done).
  all: try (intros ->;
            match goal with
            | E : truthy (VBool true) _ = (Ok false, _) |- _ =>
                by inversion E
            end).
  all: try congruence.
  all: unfold zero_outputs; eexists _, _;
    split_and!; [done|lia|lia|heap_back; done| |done|done].
  all: intros key v Hk;
    repeat (apply lookup_insert_Some in Hk as [[<- <-]|[? Hk]]);
    try (by rewrite lookup_empty in Hk);
    (eexists; split_and!; [done|lia|lia|heap_back; done]).
Qed.

(** [prepare_details] writes to [raw_ret] and to new objects only, and
    calls no sampler. *)
Lemma prepare_details_inv rawl forward_inv_s w details w' :
  rawl < length (heap w) →
  prepare_details (VRef rawl) forward_inv_s w = (Ok details, w') →
  ∃ rawd dl dd,
    heap w !! rawl = Some (ODict rawd)
    ∧ details = VRef dl ∧ length (heap w) ≤ dl < length (heap w')
    ∧ heap w' !! dl = Some (ODict dd)
    ∧ heap w' !! rawl = Some (ODict (<["details" := details]> rawd))
    ∧ (∀ l, l < length (heap w) → l ≠ rawl → heap w' !! l = heap w !! l)
    ∧ (∃ evs, trace w' = trace w ++ evs ∧ no_sample_calls evs)
    ∧ self w' = self w.
Proof.
  unfold prepare_details. intros Hraw E. mrun.
  all: heap_lengths; heap_facts.
  all: eexists _, _, _.
  all: split_and!; try done.
  all: try (heap_back; done).
  all: try lia.
  all: try (intros l ? ?; heap_back; done).
  all: try congruence.
  all: trace_ext.
Qed.
Lemma ray_test_ok_inv rays_o rays_d near far extra w v w' :
  ray_test rays_o rays_d near far extra w = (Ok v, w') →
  call1 (SpaceRayTest rays_o rays_d near far extra) w = (Ok v, w').
Proof.
  intros E.
  destruct (passes_ray_test (heap w) rays_o rays_d extra) eqn:Hp.
  - by rewrite ray_test_passes in E.
  - destruct (ray_test_rejects rays_o rays_d near far extra w Hp) as [e He].
    congruence.
Qed.

Lemma ray_test_kw_ok_inv ray_input w v w' :
  ray_test_kw ray_input w = (Ok v, w') →
  ∃ c, is_sample_call c = false ∧ call1 c w = (Ok v, w').
Proof.
  unfold ray_test_kw. intros E. mrun.
  repeat case_match; try by apply raise_inv in E.
  apply ray_test_ok_inv in E. eexists. split; [|exact E]. done.
Qed.
(** What [ray_query_prepare] leaves: the dict [raw_ret] with the empty
    volume buffer, the details and the zero outputs that were asked
    for; the objects of the caller untouched; no sampler called. *)
Lemma prepare_inv ri rt config rb rd rp w q w1 :
  ray_query_prepare ri rt config rb rd rp w = (Ok q, w1) →
  ∃ rawl rawd cd lo,
    q_raw_ret q = VRef rawl
    ∧ length (heap w) ≤ rawl < lo ∧ lo ≤ length (heap w1)
    ∧ heap w1 !! rawl = Some (ODict rawd)
    ∧ (∀ l, l < length (heap w) → heap w1 !! l = heap w !! l)
    ∧ (∃ evs, trace w1 = trace w ++ evs ∧ no_sample_calls evs)
    ∧ self w1 = self w
    ∧ dict_at (heap w1) config = Some cd
    ∧ cd !! "query_mode" = Some (q_query_mode q)
    ∧ cd !! "with_rgb" = Some (q_with_rgb q)
    ∧ cd !! "with_normal" = Some (q_with_normal q)
    ∧ (if rb
       then ∃ vbl, rawd !! "volume_buffer" = Some (VRef vbl)
                   ∧ heap w1 !! vbl = Some (ODict empty_buffer)
       else rawd !! "volume_buffer" = None)
    ∧ (if rp
       then ∃ prefix rndd,
           rawd !! "rendered" = Some (q_rendered q)
           ∧ zero_outputs (heap w1) lo (q_rendered q) prefix
           ∧ (∀ p, prefix_rays (heap w) ri = Some p → p = prefix)
           ∧ dict_at (heap w1) (q_rendered q) = Some rndd
           ∧ (q_with_rgb q = VBool true → is_Some (rndd !! "rgb_volume"))
           ∧ (q_with_normal q = VBool true
              → is_Some (rndd !! "normals_volume"))
       else rawd !! "rendered" = None)
    ∧ (if rd
       then ∃ dl dd, q_details q = VRef dl
                     ∧ rawl < dl < lo
                     ∧ heap w1 !! dl = Some (ODict dd)
       else True).
Proof.
  unfold ray_query_prepare. intros E.
  apply bind_ok_inv in E as (rt' & w0 & E0 & E).
  assert (∃ ext evs, heap w0 = heap w ++ ext ∧ trace w0 = trace w ++ evs
                     ∧ no_sample_calls evs ∧ self w0 = self w)
    as (ext & evs0 & Hh0 & Ht0 & Hn0 & Hs0).
  { destruct rt; try (apply mret_inv in E0 as [_ ->]; exists [], [];
                     rewrite !app_nil_r; split_and!; try done;
                     by constructor).
    destruct ri; try by apply raise_inv in E0.
    apply ray_test_kw_ok_inv in E0 as (c & Hc & E0).
    apply call1_ok_inv in E0 as (f & _ & _ & ? & ? & ?).
    eexists _, [c]. split_and!; try done. by repeat constructor. }
  clear E0.
  mrun.
  all: repeat match goal with
    | E : prepare_details _ _ _ = _ |- _ =>
        apply prepare_details_inv in E
          as (? & ? & ? & ? & ? & ? & ? & ? & ? & (? & ? & ?) & ?);
        [|heap_lengths; heap_solve]
    | E : prepare_rendered _ _ _ _ _ = _ |- _ =>
        apply prepare_rendered_inv in E
          as (? & ? & ? & ? & ? & ? & ? & ? & ? & ? & ? & ? & ? & ?);
        [|heap_lengths; heap_solve]
    end.
  all: heap_lengths; heap_facts; same_lookup; simpl.
  all: eexists _, _, _.
  all: lazymatch goal with
    | Hz : zero_outputs _ ?lo _ _ |- _ => exists lo
    | |- ∃ lo, _ ∧ _ ∧ lo ≤ length (heap ?wf) ∧ _ =>
        exists (length (heap wf))
    end.
  all: split_and!; try done; try lia.
  all: try first [ eassumption | by (heap_back; reflexivity) ].
  all: try (intros l ?; by heap_back).
  all: try congruence.
  all: try by simplify_map_eq.
  all: try (trace_back; eexists; split; [reflexivity|];
            repeat (apply Forall_app; split); try done; by repeat constructor).
  all: try match goal with
    | |- ∃ vbl, _ !! "volume_buffer" = _ ∧ _ =>
        eexists; split; [by simplify_map_eq | by heap_back]
    | |- ∃ dl dd, VRef _ = VRef dl ∧ _ =>
        eexists _, _; split_and!; [done | lia | lia | by heap_back]
    | Hp : prefix_rays _ _ = Some _ |- ∃ prefix rndd, _ =>
        eexists _, _;
        split_and!;
          [ by simplify_map_eq
          | eassumption
          | intros p Hp';
            eapply (prefix_rays_mono _ (heap _)) in Hp';
              [rewrite Hp in Hp'; by simplify_eq|];
            intros l o Hl; pose proof (lookup_lt_Some _ _ _ Hl);
            by heap_back
          | done | done | done ]
    end.
  all: unfold dict_at; heap_back;
    match goal with Hx : ?t = Some _ |- context [?t] => by rewrite Hx end.
Qed.
End prepare.

(** ** The query mode *)

Section query_mode.
Context `{FloatOps} `{Collaborators}.

(** C4, as the code has it.  Let the preparation of a query succeed; it
    has read the query mode from the config.  When zero rays are tested,
    [ray_query] returns there, whatever the mode.  When rays are tested,
    the mode decides what follows.  A mode without a sampler makes
    [ray_query] raise in the world the preparation left, so that no
    sampler is called: [NotImplementedError] for [march_occ] and
    [march_occ_multi_upsample_compressed_strategy], and for every other
    such mode the [RuntimeError] whose message is [Invalid query_mode=]
    followed by the mode, when it is a string.  For a mode with a
    sampler, the arguments of the call are evaluated: when the config
    has [perturb] and [query_param], a dict that repeats no keyword
    passed by name, the first call after the preparation is the call of
    the sampler of that mode with these arguments; otherwise [ray_query]
    raises an [AttributeError] or a [TypeError] in the world the
    preparation left, and no sampler is called. *)
Theorem ray_query_mode_dispatch ray_input ray_tested config
    return_buffer return_details render_per_obj_individual w q w1 :
  ray_query_prepare ray_input ray_tested config
    return_buffer return_details render_per_obj_individual w = (Ok q, w1) →
  (∃ cd, dict_at (heap w1) config = Some cd
         ∧ cd !! "query_mode" = Some (q_query_mode q))
  ∧ (q_no_rays q = true →
     ray_query ray_input ray_tested config
       return_buffer return_details render_per_obj_individual w
     = (Ok (q_raw_ret q), w1))
  ∧ (q_no_rays q = false →
     match sampler_of_mode (q_query_mode q) with
     | None =>
         ∃ e, ray_query ray_input ray_tested config
                return_buffer return_details render_per_obj_individual w
              = (Raise e, w1)
              ∧ if declared_unimplemented (q_query_mode q)
                then e = NotImplementedError
                else ∃ msg,
                    e = RuntimeError ("Invalid query_mode=" +:+ msg)
                    ∧ ∀ s, q_query_mode q = VStr s → msg = s
     | Some smp =>
         match sampler_args_of (heap w1) (self w1) (q_ray_tested q) config
                 (q_with_rgb q) (q_with_normal q) (q_forward_inv_s q)
                 smp with
         | Some args =>
             ∃ evs,
               trace (ray_query ray_input ray_tested config
                        return_buffer return_details
                        render_per_obj_individual w).2
               = trace w1 ++ Sample smp args :: evs
         | None =>
             ∃ e, ray_query ray_input ray_tested config
                    return_buffer return_details
                    render_per_obj_individual w
                  = (Raise e, w1)
                  ∧ argument_error e = true
         end
     end).
Proof.
  intros E. split_and!.
  { destruct (prepare_inv _ _ _ _ _ _ _ _ _ E)
      as (? & ? & cd & ? & ? & ? & ? & ? & ? & ? & ? & ? & ? & ?).
    eauto. }
  { intros Hn. unfold ray_query. by rewrite (bind_ok _ _ _ _ _ E), Hn. }
  intros Hn. unfold ray_query. rewrite (bind_ok _ _ _ _ _ E), Hn.
  unfold ray_query_finish.
  destruct (sampler_of_mode (q_query_mode q)) as [smp|] eqn:Em.
  - pose proof (dispatch_implemented smp (q_ray_tested q) config
                  (q_query_mode q) (q_with_rgb q) (q_with_normal q)
                  (q_forward_inv_s q) w1 Em) as Hd.
    destruct (sampler_args_of _ _ _ _ _ _ _ _) as [args|].
    + match goal with
      | |- context [(?m ≫= ?f) w1] =>
          pose proof (grows_after m f w1) as Hg
      end.
      destruct Hg as [evs Hg].
      { intros [vb qd]. grows_tac. }
      exists evs. rewrite Hg, Hd, call_ext_trace.
      by rewrite <- app_assoc.
    + destruct Hd as (e & Ed & He). exists e.
      by rewrite (bind_raise _ _ _ _ _ Ed).
  - destruct (dispatch_unsupported (q_ray_tested q) config
                (q_query_mode q) (q_with_rgb q) (q_with_normal q)
                (q_forward_inv_s q) w1 Em) as (e & Ed & He).
    exists e. by rewrite (bind_raise _ _ _ _ _ Ed).
Qed.
End query_mode.

(** In the scene, over two tested rays: a query in the mode [march_occ]
    raises [NotImplementedError]; a query in a mode that [ray_query] does
    not know raises the [RuntimeError] that names the mode; and the first
    call of a query in the mode [coarse_multi_upsample], after the
    preparation, is the call of the coarse sampler. *)
Lemma ray_query_mode_dispatch_witness :
  (let w := Scene.query_world "march_occ" 2 Scene.self_no_accel in
   ∃ e, @ray_query Scene.floats Scene.collaborators Scene.ray_input
          Scene.ray_tested Scene.config true false true w
        = (Raise e,
           (@ray_query_prepare Scene.collaborators Scene.ray_input
              Scene.ray_tested Scene.config true false true w).2)
        ∧ e = NotImplementedError)
  ∧ (let w := Scene.query_world "no_such_mode" 2 Scene.self_no_accel in
     ∃ e, @ray_query Scene.floats Scene.collaborators Scene.ray_input
            Scene.ray_tested Scene.config true false true w
          = (Raise e,
             (@ray_query_prepare Scene.collaborators Scene.ray_input
                Scene.ray_tested Scene.config true false true w).2)
          ∧ e = RuntimeError "Invalid query_mode=no_such_mode")
  ∧ (let w := Scene.query_world "coarse_multi_upsample" 2
                Scene.self_no_accel in
     ∃ args evs,
       trace (@ray_query Scene.floats Scene.collaborators Scene.ray_input
                Scene.ray_tested Scene.config true false true w).2
       = trace (@ray_query_prepare Scene.collaborators Scene.ray_input
                  Scene.ray_tested Scene.config true false true w).2
         ++ Sample neus_ray_query_coarse_multi_upsample args :: evs).
Proof.
  split_and!; intros w.
  - destruct (@ray_query_prepare Scene.collaborators Scene.ray_input
                Scene.ray_tested Scene.config true false true w)
      as [r w1] eqn:E.
    assert (∃ q, r = Ok q ∧ q_no_rays q = false
                 ∧ q_query_mode q = VStr "march_occ")
      as (q & -> & Hn & Hm).
    { vm_compute in E. inversion E. eexists. split; [reflexivity|].
      split; reflexivity. }
    destruct (@ray_query_mode_dispatch Scene.floats Scene.collaborators
                _ _ _ _ _ _ _ _ _ E) as (_ & _ & Hd).
    specialize (Hd Hn). rewrite Hm in Hd. exact Hd.
  - destruct (@ray_query_prepare Scene.collaborators Scene.ray_input
                Scene.ray_tested Scene.config true false true w)
      as [r w1] eqn:E.
    assert (∃ q, r = Ok q ∧ q_no_rays q = false
                 ∧ q_query_mode q = VStr "no_such_mode")
      as (q & -> & Hn & Hm).
    { vm_compute in E. inversion E. eexists. split; [reflexivity|].
      split; reflexivity. }
    destruct (@ray_query_mode_dispatch Scene.floats Scene.collaborators
                _ _ _ _ _ _ _ _ _ E) as (_ & _ & Hd).
    specialize (Hd Hn). rewrite Hm in Hd.
    destruct Hd as (e & He & msg & -> & Hmsg).
    exists (RuntimeError ("Invalid query_mode=" +:+ msg)).
    split; [exact He|]. by rewrite (Hmsg _ eq_refl).
  - destruct (@ray_query_prepare Scene.collaborators Scene.ray_input
                Scene.ray_tested Scene.config true false true w)
      as [r w1] eqn:E.
    assert (∃ q args,
              r = Ok q ∧ q_no_rays q = false
              ∧ q_query_mode q = VStr "coarse_multi_upsample"
              ∧ sampler_args_of (heap w1) (self w1) (q_ray_tested q)
                  Scene.config (q_with_rgb q) (q_with_normal q)
                  (q_forward_inv_s q) neus_ray_query_coarse_multi_upsample
                = Some args)
      as (q & args & -> & Hn & Hm & Ha).
    { vm_compute in E. inversion E. eexists _, _. split; [reflexivity|].
      split; [reflexivity|]. split; [reflexivity|].
      vm_compute. reflexivity. }
    destruct (@ray_query_mode_dispatch Scene.floats Scene.collaborators
                _ _ _ _ _ _ _ _ _ E) as (_ & _ & Hd).
    specialize (Hd Hn). rewrite Hm in Hd. simpl in Hd.
    rewrite Ha in Hd. destruct Hd as [evs Hd]. by exists args, evs.
Defined.

(** C4, as stated, fails when no ray is tested: the test for zero rays
    comes before the dispatch, and a query in a mode that is not
    recognised, or not implemented, returns without an error. *)
Lemma unsupported_mode_no_rays_returns :
  sampler_of_mode (VStr "no_such_mode") = None
  ∧ (@ray_query Scene.floats Scene.collaborators Scene.ray_input
       Scene.ray_tested Scene.config true false true
       (Scene.query_world "no_such_mode" 0 Scene.self_no_accel)).1
    = Ok (VRef 5)
  ∧ sampler_of_mode (VStr "march_occ") = None
  ∧ (@ray_query Scene.floats Scene.collaborators Scene.ray_input
       Scene.ray_tested Scene.config true false true
       (Scene.query_world "march_occ" 0 Scene.self_no_accel)).1
    = Ok (VRef 5).
Proof. split_and!; vm_compute; reflexivity. Qed.

(** ** After the sampling *)

Section after_sampling.
Context `{FloatOps} `{Collaborators}.

(** A dispatch that returns has called one sampler; the objects of its
    answer are the new objects of the heap. *)
Lemma dispatch_ok_inv ray_tested config query_mode with_rgb with_normal
    forward_inv_s w vb qd w' :
  dispatch ray_tested config query_mode with_rgb with_normal forward_inv_s w
  = (Ok (vb, qd), w') →
  ∃ f smp args,
    respond w (Sample smp args) = Ok f
    ∧ vb = shift_val (length (heap w)) (f_val f)
    ∧ qd = shift_val (length (heap w)) (f_aux f)
    ∧ heap w' = heap w ++ (shift_obj (length (heap w)) <$> f_objs f)
    ∧ trace w' = trace w ++ [Sample smp args]
    ∧ self w' = self w.
Proof.
  unfold dispatch. intros E.
  repeat case_match; try (by apply raise_inv in E); mrun;
    eexists _, _, _; split_and!; try done; eassumption.
Qed.

(** The probe of the SDF at the near bound writes to the details and to
    new objects only. *)
Lemma near_sdf_probe_inv base ray_tested dl w u w' :
  dl < base → base ≤ length (heap w) → refs_above base (heap w) →
  near_sdf_probe ray_tested (VRef dl) w = (Ok u, w') →
  length (heap w) ≤ length (heap w')
  ∧ (∀ l, l < length (heap w) → l ≠ dl → heap w' !! l = heap w !! l)
  ∧ refs_above base (heap w')
  ∧ self w' = self w.
Proof.
  unfold near_sdf_probe, forward_sdf, collect_samples.
  intros Hdl Hb Hr E. mrun.
  all: heap_lengths.
  all: split_and!; [lia| |refs_tac|congruence].
  all: intros l ? ?; by heap_back.
Qed.

(** Entering the buffer and the details in the result writes to
    [raw_ret], to the details and to new objects only. *)
Lemma attach_inv base q config return_buffer return_details vb qd rawl dl
    w u w' :
  q_raw_ret q = VRef rawl → rawl < base →
  (return_details = true → q_details q = VRef dl ∧ dl < base) →
  base ≤ length (heap w) → refs_above base (heap w) →
  attach_buffer_and_details q config return_buffer return_details vb qd w
  = (Ok u, w') →
  length (heap w) ≤ length (heap w')
  ∧ (∀ l, l < length (heap w) → l ≠ rawl → l ≠ dl →
          heap w' !! l = heap w !! l)
  ∧ (∀ rawd, heap w !! rawl = Some (ODict rawd) →
       (return_details = true → rawl ≠ dl) →
       heap w' !! rawl
       = Some (ODict (if return_buffer
                      then <["volume_buffer" := vb]> rawd else rawd)))
  ∧ refs_above base (heap w')
  ∧ self w' = self w.
Proof.
  unfold attach_buffer_and_details.
  intros Hraw Hlt Hd Hb Hr E. rewrite Hraw in E.
  destruct return_details; [destruct (Hd eq_refl) as [Hdl ?]; rewrite Hdl in E|].
  all: mrun.
  all: try match goal with
    | E : near_sdf_probe _ _ _ = _ |- _ =>
        eapply (near_sdf_probe_inv base) in E as (? & ? & ? & ?);
        [|lia|heap_lengths; heap_solve|refs_tac]
    end.
  all: heap_lengths.
  all: split_and!; try lia; try congruence; try refs_tac.
  all: try (intros l ? ? ?; by heap_back).
  all: intros rawd Hrd Hne; try specialize (Hne eq_refl);
    heap_back; try done.
  all: rewrite Hrd in *; by simplify_eq.
Qed.
End after_sampling.

(** ** Runs that return

    The steps of a run are followed forwards, from what the heap holds,
    to show that the run returns. *)

Section returns.
Context `{FloatOps} `{Collaborators}.









End returns.





Section returns_more.
Context `{FloatOps} `{Collaborators}.







End returns_more.

(** ** Queries with nothing to composite *)

Section nothing_to_composite.
Context `{FloatOps} `{Collaborators}.


End nothing_to_composite.



(** The conditions of C2 are needed.  In the scene, a query over zero
    tested rays that asks for the per-object rendering and is not given
    the input rays raises [TypeError].  And a query by sphere tracing
    over two tested rays, of which none hits, that asks for the details
    with the SDF at the near bound, raises the [KeyError] of the probe
    when the tested rays come without their origins: the probe is run on
    an empty buffer too. *)
Lemma nothing_to_composite_can_raise :
  (@ray_query Scene.floats Scene.collaborators VNone Scene.ray_tested
     Scene.config true false true
     (Scene.query_world "coarse_multi_upsample" 0 Scene.self_no_accel)).1
  = Raise (TypeError "not an object")
  ∧ let r := @ray_query Scene.floats Scene.collaborators
               NearScene.ray_input NearScene.ray_tested NearScene.config
               true true true NearScene.world in
    r.1 = Raise (KeyError "rays_o")
    ∧ is_sample_call <$> trace r.2 = [false; true].
Proof.
  split; [vm_compute; reflexivity|]. intros r.
  split; vm_compute; reflexivity.
Qed.

(** ** The outputs outside of the rays that hit *)

Section outputs_frame.
Context `{FloatOps} `{Collaborators}.

(** The compositing of a batched buffer keeps the invariant, and reads
    the indices of the rays that hit. *)
Lemma render_batched_inv base prefix rendered h0 vbl ty riv dnv rgb nrm w u w' :
  render_inv base prefix rendered h0 vbl ty riv None (heap w) →
  render_batched (VRef vbl) rendered riv dnv rgb nrm w = (Ok u, w') →
  ∃ inds, render_inv base prefix rendered h0 vbl ty riv (Some inds) (heap w').
Proof.
  unfold render_batched. intros Hinv E. pose proof (proj1 Hinv) as Hbase. mrun.
  all: heap_lengths.
  all: match goal with Hi : index_of _ _ = Some ?inds |- _ => exists inds end.
  all: inv_tac.
Qed.

(** So does the compositing of a packed buffer. *)
Lemma render_packed_inv base prefix rendered h0 vbl ty riv dnv rgb nrm w u w' :
  render_inv base prefix rendered h0 vbl ty riv None (heap w) →
  render_packed (VRef vbl) rendered riv dnv rgb nrm w = (Ok u, w') →
  ∃ inds, render_inv base prefix rendered h0 vbl ty riv (Some inds) (heap w').
Proof.
  unfold render_packed. intros Hinv E. pose proof (proj1 Hinv) as Hbase. mrun.
  all: heap_lengths.
  all: match goal with Hi : index_of _ _ = Some ?inds |- _ => exists inds end.
  all: inv_tac.
Qed.

Lemma hit_indices_of h vbl bd ty riv inds :
  h !! vbl = Some (ODict bd) → bd !! "type" = Some ty →
  bd !! "rays_inds_hit" = Some riv → index_of h riv = Some inds →
  str_eq ty "batched" || str_eq ty "packed" = true →
  hit_indices h (VRef vbl) = inds.
Proof.
  intros Hb Ht Hr Hi Hs. unfold hit_indices, dict_at.
  rewrite Hb, Ht, Hs, Hr. simpl. by rewrite Hi.
Qed.

Lemma render_per_object_inv base prefix rendered h0 vb config rgb nrm w u w' :
  base ≤ length (heap w) → (∀ l, vb = VRef l → base ≤ l) →
  refs_above base (heap w) →
  (∀ inds, outputs_inv base inds prefix rendered h0 (heap w)) →
  render_per_object vb rendered config rgb nrm w = (Ok u, w') →
  outputs_inv base (hit_indices (heap w') vb) prefix rendered h0 (heap w').
Proof.
  unfold render_per_object. intros Hb Hvb Hr Ho E. mrun; try done.
  all: match goal with
    | Hd : heap _ !! ?vbl = Some (ODict ?bd), Ht : ?bd !! "type" = Some ?ty,
      Hi : ?bd !! "rays_inds_hit" = Some ?riv |- _ =>
        assert (render_inv base prefix rendered h0 vbl ty riv None (heap w))
          as Hinv
          by (split_and!; [done|by apply Hvb|done|by exists bd|done])
    end.
  - eapply render_batched_inv in E as (inds & Hi); [|exact Hinv].
    destruct Hi as (_ & _ & _ & (bd' & ? & ? & ?) & ? & ?).
    erewrite hit_indices_of; try done.
    match goal with Hs : str_eq _ "batched" = true |- _ => by rewrite Hs end.
  - eapply render_packed_inv in E as (inds & Hi); [|exact Hinv].
    destruct Hi as (_ & _ & _ & (bd' & ? & ? & ?) & ? & ?).
    erewrite hit_indices_of; try done.
    match goal with Hs : str_eq _ "packed" = true |- _ =>
      rewrite Hs; by rewrite orb_true_r end.
Qed.

Lemma zero_outputs_inv h h' lo rendered prefix inds :
  zero_outputs h lo rendered prefix →
  (∀ l, lo ≤ l < length h → h' !! l = h !! l) →
  outputs_inv (length h) inds prefix rendered h' h'.
Proof.
  intros (rl & rd & -> & ? & Hrl & Hk & _) Hf. exists rl, rd.
  split_and!; try done; [lia|by rewrite Hf|].
  intros key v Hv. destruct (Hk _ _ Hv) as (tl & -> & ? & Ht).
  exists tl, (Torch.zeros (out_shape prefix key)).
  split_and!; try done; [lia|by rewrite Hf|]. apply zeros_retains.
Qed.

Lemma outputs_inv_tensors base inds prefix rendered h0 h :
  outputs_inv base inds prefix rendered h0 h →
  ∃ outs, dict_at h0 rendered = Some outs ∧ dict_at h rendered = Some outs
    ∧ ∀ key, is_Some (outs !! key) →
        ∃ t, tensor_at h outs key = Some t
             ∧ retains_zero inds (out_shape prefix key) t.
Proof.
  intros (rl & outs & -> & Hlt & Hrl & Hd & Hk). exists outs.
  unfold dict_at. rewrite Hrl, (Hd _ _ Hlt Hrl). split_and!; try done.
  intros key [v Hv]. destruct (Hk _ _ Hv) as (tl & t & -> & ? & Ht & ?).
  exists t. unfold tensor_at. by rewrite Hv, Ht.
Qed.

(** X1.  Let a query with per-object rendering return.  Its preparation
    left the outputs as tensors of zeros over the shape of the ray batch
    (the depth and the mask over that shape, the colours and the normals
    with three more columns).  In the heap the query leaves, the result
    refers to the same dict of outputs, and every tensor of it still has
    its shape and is still zero at each ray index outside of the indices
    that hit: no index when no ray was tested, the [rays_inds_hit] of the
    buffer of the sampler when that buffer is batched or packed, and no
    index for any other buffer. *)
Theorem rendered_zero_outside_hits ray_input ray_tested config
    return_buffer return_details w q w1 ret w' :
  ray_query_prepare ray_input ray_tested config
    return_buffer return_details true w = (Ok q, w1) →
  ray_query ray_input ray_tested config
    return_buffer return_details true w = (Ok ret, w') →
  ∃ prefix outs rawd inds,
    (∀ p, prefix_rays (heap w) ray_input = Some p → p = prefix)
    ∧ zero_outputs (heap w1) (length (heap w)) (q_rendered q) prefix
    ∧ dict_at (heap w1) (q_rendered q) = Some outs
    ∧ (if q_no_rays q then inds = []
       else ∃ vb qd w2,
           dispatch (q_ray_tested q) config (q_query_mode q) (q_with_rgb q)
             (q_with_normal q) (q_forward_inv_s q) w1 = (Ok (vb, qd), w2)
           ∧ inds = hit_indices (heap w') vb)
    ∧ dict_at (heap w') ret = Some rawd
    ∧ rawd !! "rendered" = Some (q_rendered q)
    ∧ dict_at (heap w') (q_rendered q) = Some outs
    ∧ ∀ key, is_Some (outs !! key) →
        ∃ t, tensor_at (heap w') outs key = Some t
             ∧ retains_zero inds (out_shape prefix key) t.
Proof.
  intros E Eq.
  destruct (prepare_inv _ _ _ _ _ _ _ _ _ E)
    as (rawl & rawd & cd & lo & Hraw & Hrawl & Hlo & Hrd & Hfr & Htr & Hs
        & Hcd & _ & _ & _ & Hrb & Hrp & Hdet).
  destruct Hrp as (prefix & rndd & Hr & Hz & Hp & Hdict & _).
  assert (zero_outputs (heap w1) (length (heap w)) (q_rendered q) prefix)
    as Hz0 by (eapply zero_outputs_weaken; [|done]; lia).
  unfold ray_query in Eq. rewrite (bind_ok _ _ _ _ _ E) in Eq.
  destruct (q_no_rays q) eqn:Hn.
  - apply mret_inv in Eq as [[= ->] ->].
    destruct (outputs_inv_tensors _ _ _ _ _ _
                (zero_outputs_inv _ _ _ _ _ [] Hz (λ _ _, eq_refl)))
      as (outs & Ho1 & _ & Hk).
    exists prefix, outs, rawd, []. rewrite Hraw. unfold dict_at at 2.
    rewrite Hrd. split_and!; try done.
  - unfold ray_query_finish in Eq.
    apply bind_ok_inv in Eq as ([vb qd] & w2 & Ed & Eq).
    apply bind_ok_inv in Eq as (u & w3 & Ea & Eq).
    apply bind_ok_inv in Eq as (u' & w4 & Er & Eq).
    apply mret_inv in Eq as [[= ->] ->].
    destruct (dispatch_ok_inv _ _ _ _ _ _ _ _ _ _ Ed)
      as (f & smp & args & _ & Hvb & _ & Hh2 & Ht2 & Hs2).
    assert (∃ dl, (return_details = true → q_details q = VRef dl ∧ dl < lo)
                  ∧ (return_details = true → rawl ≠ dl) ∧ dl < lo)
      as (dl & Hdl & Hne & Hdlo).
    { destruct return_details.
      - destruct Hdet as (dl & dd & ? & ? & ?). exists dl.
        split_and!; try lia; intros _; try lia. split; [done|lia].
      - exists rawl. split_and!; try done. lia. }
    assert (length (heap w2) = length (heap w1) + length (f_objs f)) as L2.
    { by rewrite Hh2, length_app, length_fmap. }
    eapply (attach_inv (length (heap w1)) _ _ _ _ _ _ rawl dl) in Ea
      as (L3 & Hf3 & Hraw3 & Hr3 & _); [|done|lia| |lia|]; cycle 1.
    { intros Hd. destruct (Hdl Hd). split; [done|lia]. }
    { rewrite Hh2. apply refs_above_app_fragment; [done|].
      apply refs_above_length. }
    assert (heap w2 !! rawl = Some (ODict rawd)) as Hrd2.
    { rewrite Hh2, lookup_app_l by lia. done. }
    specialize (Hraw3 _ Hrd2 Hne).
    eapply (render_per_object_inv (length (heap w1)) prefix _ (heap w3))
      in Er; [|lia| |done|]; cycle 1.
    { intros l ->. destruct (f_val f); simplify_eq/=. lia. }
    { intros inds. eapply zero_outputs_inv; [exact Hz|].
      intros l ?. rewrite Hf3 by lia. by rewrite Hh2, lookup_app_l by lia. }
    destruct (outputs_inv_tensors _ _ _ _ _ _ Er) as (outs & Ho3 & Ho4 & Hk).
    destruct Er as (rl & ? & Hrv & Hrlb & _ & Hd & _).
    exists prefix, outs,
      (if return_buffer then <["volume_buffer" := vb]> rawd else rawd),
      (hit_indices (heap w4) vb).
    split_and!; try done.
    + rewrite <- Ho3. rewrite Hrv in *.
      destruct Hz as (rl' & ? & ? & ? & _). simplify_eq.
      unfold dict_at. rewrite Hf3 by lia.
      by rewrite Hh2, lookup_app_l by lia.
    + by exists vb, qd, w2.
    + rewrite Hraw. unfold dict_at. by erewrite Hd; [|lia|exact Hraw3].
    + destruct return_buffer; [|done]. by rewrite lookup_insert_ne.
Qed.
End outputs_frame.

(** In the scene, a query in the mode [coarse_multi_upsample] over a
    batch of three rays, of which the rays 0 and 2 hit: the outputs are
    zero at the ray 1. *)
Lemma rendered_zero_outside_hits_witness :
  let w := Scene.query_world "coarse_multi_upsample" 2 Scene.self_no_accel in
  let r := @ray_query Scene.floats Scene.collaborators Scene.ray_input
             Scene.ray_tested Scene.config true false true w in
  hit_indices (heap r.2) (VRef 17) = [0; 2]
  ∧ ∃ outs,
      dict_at (heap r.2) (VRef 9) = Some outs
      ∧ ∀ key, is_Some (outs !! key) →
          ∃ t, tensor_at (heap r.2) outs key = Some t
               ∧ retains_zero [0; 2] (out_shape [3] key) t.
Proof.
  intros w r.
  pose (p := @ray_query_prepare Scene.collaborators Scene.ray_input
               Scene.ray_tested Scene.config true false true w).
  assert (hit_indices (heap r.2) (VRef 17) = [0; 2]) as Hhit
    by (vm_compute; reflexivity).
  assert (prefix_rays (heap w) Scene.ray_input = Some [3]) as Hpre
    by (vm_compute; reflexivity).
  assert (∃ ret,
            @ray_query Scene.floats Scene.collaborators Scene.ray_input
              Scene.ray_tested Scene.config true false true w
            = (Ok ret, r.2)) as [ret Eq]
    by (eexists; vm_compute; reflexivity).
  assert (∃ q,
            @ray_query_prepare Scene.collaborators Scene.ray_input
              Scene.ray_tested Scene.config true false true w
            = (Ok q, p.2)
            ∧ q_no_rays q = false
            ∧ q_rendered q = VRef 9
            ∧ (@dispatch Scene.collaborators (q_ray_tested q) Scene.config
                 (q_query_mode q) (q_with_rgb q) (q_with_normal q)
                 (q_forward_inv_s q) p.2).1
              = Ok (VRef 17, VRef 18)) as (q & E & Hn & Hq & Hd)
    by (eexists; split_and!; vm_compute; reflexivity).
  clearbody w.
  destruct (@rendered_zero_outside_hits Scene.floats Scene.collaborators
              _ _ _ _ _ _ _ _ _ _ E Eq)
    as (prefix & outs & rawd & inds & Hp & _ & _ & Hi & _ & _ & Ho & Hk).
  rewrite (Hp _ Hpre), Hq in *. rewrite Hn in Hi.
  destruct Hi as (vb & qd & w2 & Hd' & ->). rewrite Hd' in Hd.
  injection Hd as -> _. rewrite Hhit in Hk.
  split; [done|]. by exists outs.
Defined.

(** ** The buffer after the rendering *)

Section buffer_effects.
Context `{FloatOps} `{Collaborators}.

(** The per-object rendering is the compositing of the branch that the
    type of the buffer selects. *)
Lemma render_per_object_cases vbl bd rendered config cd with_rgb
    with_normal w u w' :
  heap w !! vbl = Some (ODict bd) →
  dict_at (heap w) config = Some cd →
  render_per_object (VRef vbl) rendered config with_rgb with_normal w
  = (Ok u, w') →
  ∃ ty, bd !! "type" = Some ty
    ∧ if str_eq ty "empty" then w' = w
      else ∃ riv,
          bd !! "rays_inds_hit" = Some riv
          ∧ let dnv :=
              default (VBool true) (cd !! "depth_use_normalized_vw") in
            if str_eq ty "batched"
            then render_batched (VRef vbl) rendered riv dnv with_rgb
                   with_normal w = (Ok u, w')
            else if str_eq ty "packed"
            then render_packed (VRef vbl) rendered riv dnv with_rgb
                   with_normal w = (Ok u, w')
            else w' = w.
Proof.
  unfold render_per_object, dict_at. intros Hbd Hcd E.
  apply bind_ok_inv in E as (ty & w0 & E0 & E).
  apply getitem_inv in E0 as (-> & l & d & [= <-] & Hl & Hty).
  assert (d = bd) as -> by congruence.
  exists ty. split; [done|].
  destruct (str_eq ty "empty"); simpl in E.
  { by apply mret_inv in E as [_ ->]. }
  apply bind_ok_inv in E as (riv & w0 & E0 & E).
  apply getitem_inv in E0 as (-> & l' & d & [= <-] & Hl' & Hriv).
  assert (d = bd) as -> by congruence.
  exists riv. split; [done|].
  apply bind_ok_inv in E as (dnv & w0 & E0 & E).
  apply cfg_get_inv in E0 as (-> & lc & d & -> & Hlc & ->).
  rewrite Hlc in Hcd. simplify_eq. simpl.
  destruct (str_eq ty "batched"); [done|].
  destruct (str_eq ty "packed"); [done|].
  by apply mret_inv in E as [_ ->].
Qed.

(** What a query that tested rays and rendered them went through. *)
Lemma ray_query_finish_inv ray_input ray_tested config return_buffer
    return_details w q w1 ret w' :
  ray_query_prepare ray_input ray_tested config
    return_buffer return_details true w = (Ok q, w1) →
  q_no_rays q = false →
  ray_query ray_input ray_tested config
    return_buffer return_details true w = (Ok ret, w') →
  ∃ vb qd w2 w3 u rawl rawd rl outs,
    dispatch (q_ray_tested q) config (q_query_mode q) (q_with_rgb q)
      (q_with_normal q) (q_forward_inv_s q) w1 = (Ok (vb, qd), w2)
    ∧ render_per_object vb (q_rendered q) config (q_with_rgb q)
        (q_with_normal q) w3 = (Ok u, w')
    ∧ ret = VRef rawl ∧ rawl < length (heap w1)
    ∧ heap w3 !! rawl
      = Some (ODict (if return_buffer
                     then <["volume_buffer" := vb]> rawd else rawd))
    ∧ rawd !! "rendered" = Some (q_rendered q)
    ∧ q_rendered q = VRef rl
    ∧ outputs_wf (length (heap w1)) rl outs (heap w3)
    ∧ length (heap w) ≤ length (heap w1)
    ∧ length (heap w1) ≤ length (heap w2)
    ∧ length (heap w2) ≤ length (heap w3)
    ∧ (∀ l, length (heap w1) ≤ l < length (heap w2) →
            heap w3 !! l = heap w2 !! l)
    ∧ (∀ l, l < length (heap w) → heap w3 !! l = heap w !! l)
    ∧ (∀ l, vb = VRef l → length (heap w1) ≤ l)
    ∧ refs_above (length (heap w1)) (heap w2)
    ∧ self w3 = self w.
Proof.
  intros E Hn Eq.
  destruct (prepare_inv _ _ _ _ _ _ _ _ _ E)
    as (rawl & rawd & cd & lo & Hraw & Hrawl & Hlo & Hrd & Hfr & Htr & Hs
        & Hcd & _ & _ & _ & Hrb & Hrp & Hdet).
  destruct Hrp as (prefix & rndd & Hr & Hz & Hp & Hdict & _).
  unfold ray_query in Eq. rewrite (bind_ok _ _ _ _ _ E), Hn in Eq.
  unfold ray_query_finish in Eq.
  apply bind_ok_inv in Eq as ([vb qd] & w2 & Ed & Eq).
  apply bind_ok_inv in Eq as (u & w3 & Ea & Eq).
  apply bind_ok_inv in Eq as (u' & w4 & Er & Eq).
  apply mret_inv in Eq as [[= ->] ->].
  destruct (dispatch_ok_inv _ _ _ _ _ _ _ _ _ _ Ed)
    as (f & smp & args & _ & Hvb & _ & Hh2 & Ht2 & Hs2).
  assert (∃ dl, (return_details = true → q_details q = VRef dl ∧ dl < lo)
                ∧ (return_details = true → rawl ≠ dl)
                ∧ length (heap w) ≤ dl < lo)
    as (dl & Hdl & Hne & Hdlo).
  { destruct return_details.
    - destruct Hdet as (dl & dd & ? & ? & ?). exists dl.
      split_and!; try lia; intros _; try lia. split; [done|lia].
    - exists rawl. split_and!; try done; lia. }
  assert (length (heap w2) = length (heap w1) + length (f_objs f)) as L2.
  { by rewrite Hh2, length_app, length_fmap. }
  assert (refs_above (length (heap w1)) (heap w2)) as Hr2.
  { rewrite Hh2. apply refs_above_app_fragment; [done|].
    apply refs_above_length. }
  eapply (attach_inv (length (heap w1)) _ _ _ _ _ _ rawl dl) in Ea
    as (L3 & Hf3 & Hraw3 & Hr3 & Hs3); [|done|lia| |lia|done]; cycle 1.
  { intros Hd. destruct (Hdl Hd). split; [done|lia]. }
  assert (heap w2 !! rawl = Some (ODict rawd)) as Hrd2.
  { rewrite Hh2, lookup_app_l by lia. done. }
  specialize (Hraw3 _ Hrd2 Hne).
  destruct Hz as (rl & outs & Hrv & Hrl & Hrl1 & Hk & _).
  assert (∀ l, lo ≤ l < length (heap w1) → heap w3 !! l = heap w1 !! l)
    as Hf31.
  { intros l ?. rewrite Hf3 by lia. by rewrite Hh2, lookup_app_l by lia. }
  exists vb, qd, w2, w3, u', rawl, rawd, rl, outs.
  split_and!; try done; try lia.
  - split_and!; [lia|by rewrite Hf31| ].
    intros key v Hv. destruct (Hk _ _ Hv) as (tl & -> & ? & Ht).
    eexists _, _. split_and!; [done|lia|by rewrite Hf31].
  - intros l ?. apply Hf3; lia.
  - intros l ?. rewrite Hf3 by lia. rewrite Hh2, lookup_app_l by lia.
    by apply Hfr.
  - intros l ->. destruct (f_val f); simplify_eq/=. lia.
  - congruence.
Qed.

(** The state of the heap after the compositing of a batched or packed
    buffer. *)
Lemma render_per_object_state base rl outs vbl bd config cd ty
    (bn br bm : bool) w u w' :
  outputs_wf base rl outs (heap w) ∧ buffer_wf base vbl bd (heap w) →
  dict_at (heap w) config = Some cd →
  default (VBool true) (cd !! "depth_use_normalized_vw") = VBool bn →
  bd !! "type" = Some ty →
  str_eq ty "batched" || str_eq ty "packed" = true →
  render_per_object (VRef vbl) (VRef rl) config (VBool br) (VBool bm) w
  = (Ok u, w') →
  ∃ log vw cl,
    render_st base outs vbl bd (heap w) log
      (<["vw" := VRef (length (heap w))]> bd) cl [vw] (heap w')
    ∧ (if bm && negb (training (self w)) then is_Some cl else cl = None)
    ∧ same_calls w w'.
Proof.
  intros Hwf Hcd Hdn Hty Htyb E.
  destruct (proj2 Hwf) as (_ & Hbd & _).
  destruct (render_per_object_cases _ _ _ _ _ _ _ _ _ _ Hbd Hcd E)
    as (ty' & Hty' & Hc).
  assert (ty' = ty) as -> by congruence.
  assert (str_eq ty "empty" = false) as Hne.
  { destruct ty; try done. simpl in *. repeat case_bool_decide; by subst. }
  rewrite Hne in Hc. destruct Hc as (riv & Hriv & Hc). simpl in Hc.
  rewrite Hdn in Hc.
  destruct (str_eq ty "batched").
  - destruct (render_batched_effects _ _ _ _ _ _ _ _ _ _ _ _ Hwf Hc)
      as (alpha & vw & vw_sum & inds & t & d & rgb_log & nrm_log & cl
          & _ & _ & _ & _ & _ & _ & _ & _ & Hcl & S & Hs).
    eauto 10.
  - simpl in Htyb. rewrite Htyb in Hc.
    destruct (render_packed_effects _ _ _ _ _ _ _ _ _ _ _ _ Hwf Hc)
      as (pi & packs & alpha & vw & vw_sum & inds & t & d & rgb_log
          & nrm_log & cl & _ & _ & _ & _ & _ & _ & _ & _ & _ & _ & Hcl
          & S & Hs).
    eauto 10.
Qed.

(** What the state of a rendering says of the buffer and of the dicts
    below [base]. *)
Lemma st_buffer_facts base rl outs vbl bd h0 log bdn cl vw h :
  outputs_wf base rl outs h0 ∧ buffer_wf base vbl bd h0 →
  render_st base outs vbl bd h0 log bdn cl [vw] h →
  h !! vbl = Some (ODict bdn)
  ∧ h !! length h0 = Some (OTensor vw)
  ∧ (∀ l d, l < base → h0 !! l = Some (ODict d) → h !! l = Some (ODict d))
  ∧ (cl = None → ∀ k, tensor_at h bd k = tensor_at h0 bd k)
  ∧ (∀ nl, cl = Some nl →
       ∃ n0, tensor_at h0 bd "nablas" = Some n0
             ∧ tensor_at h bd "nablas" = Some (Torch.clamp (-1) 1 n0)
             ∧ ∀ k, bd !! k ≠ bd !! "nablas" →
                    tensor_at h bd k = tensor_at h0 bd k).
Proof.
  intros [(Hrl & Hrd & Houts) (Hvbl & Hbd & Hrefs)]
    (Hlen & Hb & Hk & Ho & Hr & Hlow & Hhigh & Hnew & Hcl).
  assert (∀ k l, bd !! k = Some (VRef l) → cl ≠ Some l →
                 tensor_at h bd k = tensor_at h0 bd k) as Hsame.
  { intros k l Hkl Hne. unfold tensor_at. rewrite Hkl.
    destruct (Hrefs _ _ Hkl).
    destruct (decide (l = vbl)) as [->|]; [by rewrite Hb, Hbd|].
    by rewrite Hhigh. }
  split_and!; try done.
  - specialize (Hnew 0 vw eq_refl). by rewrite Nat.add_0_r in Hnew.
  - intros l d Hl Hd. destruct (Hlow l Hl) as [[key Hkey]| ->]; [|done].
    destruct (Houts _ _ Hkey) as (? & ? & ? & ? & ?). simplify_eq.
  - intros -> k. destruct (bd !! k) as [[]|] eqn:Hkl;
      try (unfold tensor_at; by rewrite Hkl).
    by eapply Hsame.
  - intros nl Hnl.
    destruct (Hcl _ Hnl) as (_ & Hnab & n0 & Hn0 & Hn1).
    exists n0. unfold tensor_at at 1 2. rewrite Hnab, Hn0, Hn1.
    split_and!; try done.
    intros k Hne. destruct (bd !! k) as [[]|] eqn:Hkl;
      try (unfold tensor_at; by rewrite Hkl).
    eapply Hsame; [done|]. congruence.
Qed.

(** X2.  Let a query that asks for the buffer and for the per-object
    rendering test some ray, and let its sampler answer with a batched or
    packed buffer [vb], a dict [bd] whose references are allocated.  Then
    the result of the query holds that same object [vb], and in the heap
    the query leaves the dict of [vb] is [bd] with the key [vw] set to a
    tensor allocated after the sampler returned.  At inference with
    normals asked for, the tensor under [nablas] has been overwritten
    with its clamping to [-1, 1], and the other tensors of the buffer are
    as the sampler left them; otherwise all its tensors are. *)
Theorem ray_query_mutates_buffer ray_input ray_tested config
    return_details w q w1 vb qd w2 bd cd (bn br bm : bool) ret w' :
  ray_query_prepare ray_input ray_tested config
    true return_details true w = (Ok q, w1) →
  q_no_rays q = false →
  dispatch (q_ray_tested q) config (q_query_mode q) (q_with_rgb q)
    (q_with_normal q) (q_forward_inv_s q) w1 = (Ok (vb, qd), w2) →
  dict_at (heap w2) vb = Some bd →
  (∃ ty, bd !! "type" = Some ty
         ∧ str_eq ty "batched" || str_eq ty "packed" = true) →
  (∀ k l, bd !! k = Some (VRef l) → l < length (heap w2)) →
  q_with_rgb q = VBool br →
  q_with_normal q = VBool bm →
  dict_at (heap w) config = Some cd →
  default (VBool true) (cd !! "depth_use_normalized_vw") = VBool bn →
  ray_query ray_input ray_tested config
    true return_details true w = (Ok ret, w') →
  ∃ rawd vwl vw,
    dict_at (heap w') ret = Some rawd
    ∧ rawd !! "volume_buffer" = Some vb
    ∧ dict_at (heap w') vb = Some (<["vw" := VRef vwl]> bd)
    ∧ length (heap w2) ≤ vwl
    ∧ heap w' !! vwl = Some (OTensor vw)
    ∧ if bm && negb (training (self w))
      then ∃ nablas,
          tensor_at (heap w2) bd "nablas" = Some nablas
          ∧ tensor_at (heap w') bd "nablas"
            = Some (Torch.clamp (-1) 1 nablas)
          ∧ ∀ k, bd !! k ≠ bd !! "nablas" →
                 tensor_at (heap w') bd k = tensor_at (heap w2) bd k
      else ∀ k, tensor_at (heap w') bd k = tensor_at (heap w2) bd k.
Proof.
  intros E Hn Ed Hbd (ty & Hty & Htyb) Hall Hrgb Hnrm Hcd Hdn Eq.
  destruct (ray_query_finish_inv _ _ _ _ _ _ _ _ _ _ E Hn Eq)
    as (vb' & qd' & w2' & w3 & u & rawl & rawd & rl & outs & Ed' & Er
        & -> & Hrawl & Hraw3 & Hrend & Hrv & Hwf & L1 & L2 & L3 & Hf32
        & Hf30 & Hvb & Hr2 & Hs3).
  rewrite Ed in Ed'. injection Ed' as <- <- <-.
  unfold dict_at in Hbd. destruct vb as [| | | | | |vbl]; try done.
  destruct (heap w2 !! vbl) as [[d| |]|] eqn:Hvbl; try done.
  injection Hbd as ->.
  pose proof (Hvb _ eq_refl) as Hbase.
  pose proof (lookup_lt_Some _ _ _ Hvbl) as Hlt.
  assert (∀ k, tensor_at (heap w3) bd k = tensor_at (heap w2) bd k) as Ht32.
  { intros k. unfold tensor_at. destruct (bd !! k) as [[]|] eqn:Hk; try done.
    rewrite Hf32; [done|]. split; [by eapply Hr2|by eapply Hall]. }
  assert (buffer_wf (length (heap w1)) vbl bd (heap w3)) as Hbwf.
  { split_and!; [done|by rewrite Hf32|].
    intros k l Hk. split; [by eapply Hr2|].
    pose proof (Hall _ _ Hk). lia. }
  assert (dict_at (heap w3) config = Some cd) as Hcd3.
  { unfold dict_at in *. destruct config; try done.
    destruct (heap w !! l) eqn:Hl; [|done].
    rewrite Hf30, Hl; [done|]. by eapply lookup_lt_Some. }
  rewrite Hrv, Hrgb, Hnrm in Er.
  destruct (render_per_object_state _ _ _ _ _ _ _ _ _ _ _ _ _ _
              (conj Hwf Hbwf) Hcd3 Hdn Hty Htyb Er)
    as (log & vw & cl & S & Hcl & _).
  destruct (st_buffer_facts _ _ _ _ _ _ _ _ _ _ _ (conj Hwf Hbwf) S)
    as (Hb' & Hvw & Hd & Hnone & Hsome).
  exists (<["volume_buffer" := VRef vbl]> rawd), (length (heap w3)), vw.
  rewrite Hs3 in Hcl.
  split_and!; try done.
  - unfold dict_at. by rewrite (Hd _ _ Hrawl Hraw3).
  - by simplify_map_eq.
  - unfold dict_at. by rewrite Hb'.
  - destruct (bm && negb (training (self w))).
    + destruct Hcl as [nl ->]. destruct (Hsome _ eq_refl)
        as (n0 & Hn0 & Hn1 & Hk).
      exists n0. rewrite <- Ht32. split_and!; try done.
      intros k Hne. rewrite <- Ht32. by apply Hk.
    + subst cl. intros k. rewrite <- Ht32. by apply Hnone.
Qed.
End buffer_effects.

(** In the scene, at inference, the batched buffer of a query comes back
    with its [vw] and with its [nablas] clamped. *)
Lemma ray_query_mutates_buffer_witness :
  let w := Scene.query_world "coarse_multi_upsample" 2 Scene.self_inference in
  let r := @ray_query Scene.floats Scene.collaborators Scene.ray_input
             Scene.ray_tested Scene.config true false true w in
  ∃ rawd bd vwl vw nablas,
    dict_at (heap r.2) (VRef 5) = Some rawd
    ∧ rawd !! "volume_buffer" = Some (VRef 17)
    ∧ dict_at (heap r.2) (VRef 17) = Some (<["vw" := VRef vwl]> bd)
    ∧ heap r.2 !! vwl = Some (OTensor vw)
    ∧ tensor_at (heap r.2) bd "nablas"
      = Some (Torch.clamp (-1) 1 nablas).
Proof.
  intros w r.
  pose (q := Locals (VRef 2) (VStr "coarse_multi_upsample") (VBool true)
               (VBool true) (VFloat 64) (VRef 5) VNone (VRef 9) false).
  pose (w1 := (@ray_query_prepare Scene.collaborators Scene.ray_input
                 Scene.ray_tested Scene.config true false true w).2).
  pose (w2 := (@dispatch Scene.collaborators (q_ray_tested q) Scene.config
                 (q_query_mode q) (q_with_rgb q) (q_with_normal q)
                 (q_forward_inv_s q) w1).2).
  pose (bd := default ∅ (dict_at (heap w2) (VRef 17))).
  pose (cd := default ∅ (dict_at (heap w) Scene.config)).
  assert (@ray_query Scene.floats Scene.collaborators Scene.ray_input
            Scene.ray_tested Scene.config true false true w
          = (Ok (VRef 5), r.2)) as Eq
    by (vm_compute; reflexivity).
  assert (@ray_query_prepare Scene.collaborators Scene.ray_input
            Scene.ray_tested Scene.config true false true w
          = (Ok q, w1)) as E by (vm_compute; reflexivity).
  assert (@dispatch Scene.collaborators (q_ray_tested q) Scene.config
            (q_query_mode q) (q_with_rgb q) (q_with_normal q)
            (q_forward_inv_s q) w1 = (Ok (VRef 17, VRef 18), w2)) as Ed
    by (vm_compute; reflexivity).
  assert (dict_at (heap w2) (VRef 17) = Some bd) as Hbd
    by (vm_compute; reflexivity).
  assert (bd !! "type" = Some (VStr "batched")) as Hty
    by (vm_compute; reflexivity).
  assert (forallb (λ kv, match kv.2 with
                         | VRef l => l <? length (heap w2)
                         | _ => true
                         end) (map_to_list bd) = true) as Hall
    by (vm_compute; reflexivity).
  assert (training (self w) = false) as Htr by reflexivity.
  assert (dict_at (heap w) Scene.config = Some cd) as Hcd
    by (vm_compute; reflexivity).
  assert (default (VBool true) (cd !! "depth_use_normalized_vw")
          = VBool true) as Hdn by (vm_compute; reflexivity).
  assert (q_no_rays q = false) as Hn by reflexivity.
  assert (q_with_rgb q = VBool true) as Hrgb by reflexivity.
  assert (q_with_normal q = VBool true) as Hnrm by reflexivity.
  clearbody cd bd w2 w1 q r w.
  assert (∀ k l, bd !! k = Some (VRef l) → l < length (heap w2)) as Hall'.
  { intros k l Hk. apply elem_of_map_to_list in Hk.
    rewrite forallb_forall in Hall.
    apply list_elem_of_In in Hk. apply Hall in Hk. cbn [snd] in Hk.
    by apply Nat.ltb_lt. }
  destruct (@ray_query_mutates_buffer Scene.floats Scene.collaborators
              _ _ _ _ _ _ _ _ _ _ _ _ true true true _ _ E Hn Ed Hbd
              (ex_intro _ _ (conj Hty eq_refl)) Hall'
              Hrgb Hnrm Hcd Hdn Eq)
    as (rawd & vwl & vw & Hret & Hvb & Hbd' & _ & Hvw & Hnab).
  rewrite Htr in Hnab. destruct Hnab as (nablas & _ & Hn1 & _).
  by exists rawd, bd, vwl, vw, nablas.
Defined.

(** * More of the mixin

    Properties of the methods that go beyond the statements above. *)

(** ** The ray test and the hooks of the training loop *)

Section hooks_effects.
Context `{FloatOps} `{Collaborators}.

Lemma pow2_reads g w r w' : pow2 g w = (r, w') → w' = w.
Proof.
  unfold pow2. repeat case_match; intros E; by inversion E.
Qed.

Lemma set_self_inv s w r w' :
  set_self s w = (r, w') →
  r = Ok () ∧ heap w' = heap w ∧ trace w' = trace w ∧ self w' = s.
Proof. by inversion 1. Qed.


(** X4.  When [forward_sdf] (or [forward_sdf_nablas], for [nablas] set)
    returns, its result is the result of the network method of the same
    name, called first with the same arguments.  After that call it
    hands the points and the entry [sdf] of the result, a tensor, to
    [accel.collect_samples] when the module is training, [skip_accel] is
    not set and there is an acceleration structure; otherwise it calls
    nothing else. *)
Theorem forward_sdf_collects_in_training (nablas : bool) x skip_accel
    kwargs w r w' :
  (if nablas then forward_sdf_nablas x skip_accel kwargs
   else forward_sdf x skip_accel kwargs) w = (Ok r, w') →
  let c := if nablas then NetForwardSdfNablas x kwargs
           else NetForwardSdf x kwargs in
  ∃ w1, call1 c w = (Ok r, w1)
    ∧ if training (self w) && negb skip_accel
         && bool_decide (accel (self w) ≠ None)
      then ∃ d sdf,
          dict_at (heap w1) r = Some d ∧ d !! "sdf" = Some sdf
          ∧ is_Some (tensor_shape (heap w1) sdf)
          ∧ trace w' = trace w ++ [c; AccelCollectSamples x sdf]
      else w' = w1.
Proof.
  intros E c.
  assert ((ret ← call1 c;
           s ← get_self;
           if training s && negb skip_accel
              && bool_decide (accel s ≠ None)
           then collect_samples x ret;; mret ret
           else mret ret) w = (Ok r, w')) as E'.
  { by destruct nablas. }
  clear E. apply bind_ok_inv in E' as (ret & w1 & E1 & E).
  pose proof (call1_inv _ _ _ _ E1) as (T1 & S1 & _).
  apply bind_ok_inv in E as (s & w0 & E0 & E).
  apply get_self_inv in E0 as [[= ->] ->]. rewrite S1 in E.
  destruct (training (self w) && negb skip_accel
            && bool_decide (accel (self w) ≠ None)).
  - apply bind_ok_inv in E as ([] & w2 & E2 & E).
    apply mret_inv in E as [[= <-] ->]. exists w1. split; [done|].
    unfold collect_samples in E2.
    apply bind_ok_inv in E2 as (sdf & w0 & E0 & E2).
    apply getitem_inv in E0 as (-> & l & d & -> & Hl & Hk).
    apply bind_ok_inv in E2 as (b & w0 & E0 & E2).
    rewrite is_tensor_run in E0. injection E0 as <- <-.
    case_bool_decide as Ht; [|by apply raise_inv in E2].
    apply bind_ok_inv in E2 as (v & w0 & E0 & E2).
    apply mret_inv in E2 as [_ ->].
    apply accel_call_ok_inv in E0 as [_ E0].
    apply call1_inv in E0 as (T2 & _ & _).
    exists d, sdf. unfold dict_at. rewrite Hl. split_and!; try done.
    by rewrite T2, T1, <- app_assoc.
  - apply mret_inv in E as [[= <-] ->]. by exists w1.
Qed.

(** X5.  When [training_initialize] returns, it returns what the
    [training_initialize] of the network returned; the structure
    [self.accel] is initialised after the network, and only when
    [skip_accel] is not set and there is one. *)
Theorem training_initialize_returns_updated config skip_accel w r w' :
  training_initialize config skip_accel w = (Ok r, w') →
  ∃ w1, call1 (NetTrainingInitialize config) w = (Ok r, w1)
    ∧ trace w'
      = trace w
        ++ NetTrainingInitialize config
           :: (if negb skip_accel && bool_decide (accel (self w) ≠ None)
               then [AccelInit] else []).
Proof.
  unfold training_initialize. intros E.
  apply bind_ok_inv in E as (ret & w1 & E1 & E).
  pose proof (call1_inv _ _ _ _ E1) as (T1 & S1 & _).
  apply bind_ok_inv in E as (s & w0 & E0 & E).
  apply get_self_inv in E0 as [[= ->] ->]. rewrite S1 in E.
  destruct (negb skip_accel && bool_decide (accel (self w) ≠ None)).
  - apply bind_ok_inv in E as (v & w2 & E2 & E).
    apply mret_inv in E as [[= <-] ->]. exists w1. split; [done|].
    apply accel_call_ok_inv in E2 as [_ E2].
    apply call1_inv in E2 as (T2 & _ & _).
    by rewrite T2, T1, <- app_assoc.
  - apply mret_inv in E as [[= <-] ->]. by exists w1.
Qed.

(** X6.  When [training_before_per_step] returns, [self.it] is the
    current iteration, and the attributes of [self] other than [it] and
    [upsample_s_divisor] are as before.  With [skip_accel] set or without
    an acceleration structure only the hook of the network is called, and
    [upsample_s_divisor] is as before.  Otherwise [upsample_s_divisor] is
    2 to the power of the granularity that the acceleration structure
    answered after the hook of the network, and the structure is stepped
    after that, when the module is training and only then. *)
Theorem training_before_per_step_effects cur_it skip_accel w u w' :
  training_before_per_step cur_it skip_accel w = (Ok u, w') →
  it (self w') = Some cur_it
  ∧ same_config (self w) (self w')
  ∧ if negb skip_accel && bool_decide (accel (self w) ≠ None)
    then ∃ w1 w2 g d,
        trace w1 = trace w ++ [NetTrainingBeforePerStep cur_it]
        ∧ call1 AccelTrainingGranularity w1 = (Ok g, w2)
        ∧ pow2 g w2 = (Ok d, w2)
        ∧ upsample_s_divisor (self w') = d
        ∧ trace w'
          = trace w2
            ++ (if training (self w) then [AccelStep cur_it] else [])
    else upsample_s_divisor (self w') = upsample_s_divisor (self w)
         ∧ trace w' = trace w ++ [NetTrainingBeforePerStep cur_it].
Proof.
  unfold training_before_per_step, set_it, set_upsample_s_divisor.
  intros E.
  apply bind_ok_inv in E as ([] & w0 & E0 & E).
  apply bind_ok_inv in E0 as (s & w00 & E00 & E0).
  apply get_self_inv in E00 as [[= ->] ->].
  apply set_self_inv in E0 as (_ & Hh0 & Ht0 & Hs0).
  apply bind_ok_inv in E as (v & w1 & E1 & E).
  apply call1_inv in E1 as (T1 & S1 & _).
  apply bind_ok_inv in E as (s & w00 & E00 & E).
  apply get_self_inv in E00 as [[= ->] ->].
  assert (accel (self w1) = accel (self w)) as Ha
    by (by rewrite S1, Hs0).
  assert (training (self w1) = training (self w)) as Htr
    by (by rewrite S1, Hs0).
  rewrite Ha in E.
  destruct (negb skip_accel && bool_decide (accel (self w) ≠ None)).
  - apply bind_ok_inv in E as (g & w2 & E2 & E).
    apply accel_call_ok_inv in E2 as [_ E2].
    pose proof (call1_inv _ _ _ _ E2) as (T2 & S2 & _).
    apply bind_ok_inv in E as (d & w3 & E3 & E).
    pose proof (pow2_reads _ _ _ _ E3) as ->.
    apply bind_ok_inv in E as ([] & w4 & E4 & E).
    apply bind_ok_inv in E4 as (s & w00 & E00 & E4).
    apply get_self_inv in E00 as [[= ->] ->].
    apply set_self_inv in E4 as (_ & Hh4 & Ht4 & Hs4).
    apply bind_ok_inv in E as (s & w00 & E00 & E).
    apply get_self_inv in E00 as [[= ->] ->].
    assert (training (self w4) = training (self w)) as Htr4.
    { rewrite Hs4. simpl. by rewrite S2. }
    rewrite Htr4 in E.
    assert (self w' = self w4 ∧ trace w'
            = trace w2 ++ (if training (self w) then [AccelStep cur_it]
                           else [])) as [Hs' Ht'].
    { destruct (training (self w)).
      - apply bind_ok_inv in E as (v' & w5 & E5 & E).
        apply mret_inv in E as [_ ->].
        apply accel_call_ok_inv in E5 as [_ E5].
        apply call1_inv in E5 as (T5 & S5 & _).
        split; [done|]. by rewrite T5, Ht4.
      - apply mret_inv in E as [_ ->]. split; [done|].
        by rewrite Ht4, app_nil_r. }
    rewrite Hs', Hs4, S2, S1, Hs0. simpl. split_and!; try done.
    exists w1, w2, g, d. split_and!; try done.
    by rewrite T1, Ht0.
  - apply mret_inv in E as [_ ->]. rewrite S1, Hs0. simpl.
    split_and!; try done. by rewrite T1, Ht0.
Qed.

(** X7.  When [training_after_per_step] returns, the hook of the network
    was called first.  The volume is shrunk after it, by a complete run
    of [shrink], when [skip_accel] is not set, there is an acceleration
    structure and the current iteration is one of
    [self.shrink_milestones]; in every other case nothing else is
    called. *)
Theorem training_after_per_step_shrinks_at_milestones cur_it skip_accel
    w u w' :
  training_after_per_step cur_it skip_accel w = (Ok u, w') →
  if negb skip_accel && bool_decide (accel (self w) ≠ None)
     && bool_decide (cur_it ∈ shrink_milestones (self w))
  then ∃ a o n,
      trace w'
      = trace w ++ NetTrainingAfterPerStep cur_it :: shrink_calls a o n
  else trace w' = trace w ++ [NetTrainingAfterPerStep cur_it].
Proof.
  unfold training_after_per_step. intros E.
  apply bind_ok_inv in E as (v & w1 & E1 & E).
  apply call1_inv in E1 as (T1 & S1 & _).
  apply bind_ok_inv in E as (s & w00 & E00 & E).
  apply get_self_inv in E00 as [[= ->] ->]. rewrite S1 in E.
  destruct (negb skip_accel && bool_decide (accel (self w) ≠ None));
    simpl; [|by apply mret_inv in E as [_ ->]].
  destruct (bool_decide (cur_it ∈ shrink_milestones (self w)));
    [|by apply mret_inv in E as [_ ->]].
  destruct u. apply shrink_trace in E as (a & o & n & evs & T & _ & Hev).
  exists a, o, n. rewrite T, T1, (Hev eq_refl), <- app_assoc. done.
Qed.
End hooks_effects.

(** In the training scene, [forward_sdf] on the two points hands them,
    with the SDF the network answered, to the acceleration structure. *)
Lemma forward_sdf_collects_in_training_witness :
  let w := TrainingScene.world in
  let c := NetForwardSdf TrainingScene.points ∅ in
  let r := @forward_sdf TrainingScene.collaborators TrainingScene.points
             false ∅ w in
  ∃ w1 d sdf,
    @call1 TrainingScene.collaborators c w = (Ok (VRef 3), w1)
    ∧ dict_at (heap w1) (VRef 3) = Some d ∧ d !! "sdf" = Some sdf
    ∧ trace r.2 = [c; AccelCollectSamples TrainingScene.points sdf].
Proof.
  intros w c r.
  pose (w' := r.2).
  assert (@forward_sdf TrainingScene.collaborators TrainingScene.points
            false ∅ w = (Ok (VRef 3), w')) as E
    by (vm_compute; reflexivity).
  assert (training (self w) && negb false
          && bool_decide (accel (self w) ≠ None) = true) as Hc
    by (vm_compute; reflexivity).
  assert (trace w = []) as Ht by reflexivity.
  change (r.2) with w'. clearbody w' w. clear r.
  destruct (@forward_sdf_collects_in_training TrainingScene.collaborators
              false _ _ _ _ _ _ E) as (w1 & E1 & Hx).
  rewrite Hc in Hx. destruct Hx as (d & sdf & Hd & Hs & _ & Hx).
  exists w1, d, sdf. rewrite Hx, Ht. done.
Defined.

(** In the training scene, [training_initialize] initialises the
    acceleration structure after the network. *)
Lemma training_initialize_returns_updated_witness :
  let w := TrainingScene.world in
  let r := @training_initialize TrainingScene.collaborators
             TrainingScene.config false w in
  r.1 = Ok (VBool true)
  ∧ trace r.2 = [NetTrainingInitialize TrainingScene.config; AccelInit].
Proof.
  intros w r.
  pose (w' := r.2).
  assert (@training_initialize TrainingScene.collaborators
            TrainingScene.config false w = (Ok (VBool true), w')) as E
    by (vm_compute; reflexivity).
  assert (negb false && bool_decide (accel (self w) ≠ None) = true) as Hc
    by (vm_compute; reflexivity).
  assert (trace w = []) as Ht by reflexivity.
  assert (r.1 = Ok (VBool true)) as Hr by (vm_compute; reflexivity).
  change (r.2) with w'. clearbody w' w.
  destruct (@training_initialize_returns_updated
              TrainingScene.collaborators _ _ _ _ _ E) as (w1 & _ & Hx).
  rewrite Hc, Ht in Hx. done.
Defined.

(** In the training scene, the hook before the step 7 sets [self.it] to
    7 and [self.upsample_s_divisor] to 2 ** 3, and steps the
    acceleration structure. *)
Lemma training_before_per_step_effects_witness :
  let w := TrainingScene.world in
  let r := @training_before_per_step Scene.floats
             TrainingScene.collaborators 7 false w in
  it (self r.2) = Some 7%Z
  ∧ upsample_s_divisor (self r.2) = VInt 8
  ∧ trace r.2
    = [NetTrainingBeforePerStep 7; AccelTrainingGranularity; AccelStep 7].
Proof.
  intros w r.
  pose (w' := r.2).
  assert (@training_before_per_step Scene.floats
            TrainingScene.collaborators 7 false w = (Ok (), w')) as E
    by (vm_compute; reflexivity).
  assert (negb false && bool_decide (accel (self w) ≠ None) = true) as Hc
    by (vm_compute; reflexivity).
  assert (trace w = []) as Ht by reflexivity.
  assert (training (self w) = true) as Htr by reflexivity.
  assert (∀ w1 g w2, @call1 TrainingScene.collaborators
                       AccelTrainingGranularity w1 = (Ok g, w2) →
                     g = VInt 3) as Hg.
  { intros w1 g w2 Eg. apply call1_ok_inv in Eg as (f & Hf & -> & _).
    simpl in Hf. by injection Hf as <-. }
  change (r.2) with w'. clearbody w' w. clear r.
  destruct (@training_before_per_step_effects Scene.floats
              TrainingScene.collaborators _ _ _ _ _ E)
    as (Hit & _ & Hx).
  rewrite Hc in Hx.
  destruct Hx as (w1 & w2 & g & d & T1 & Eg & Ep & Hd & T').
  pose proof (call1_ok_inv _ _ _ _ Eg) as (_ & _ & _ & _ & T2 & _).
  apply Hg in Eg as ->. simpl in Ep. injection Ep as <-.
  rewrite Htr in T'. rewrite T', T2, T1, Ht. done.
Defined.

(** In the training scene, the hook after the step 100, a milestone,
    shrinks the volume. *)
Lemma training_after_per_step_shrinks_at_milestones_witness :
  let w := TrainingScene.world in
  let r := @training_after_per_step TrainingScene.collaborators 100 false
             w in
  ∃ a o n, trace r.2 = NetTrainingAfterPerStep 100 :: shrink_calls a o n.
Proof.
  intros w r.
  pose (w' := r.2).
  assert (@training_after_per_step TrainingScene.collaborators 100 false w
          = (Ok (), w')) as E
    by (vm_compute; reflexivity).
  assert (negb false && bool_decide (accel (self w) ≠ None)
          && bool_decide (100%Z ∈ shrink_milestones (self w)) = true)
    as Hc by (vm_compute; reflexivity).
  assert (trace w = []) as Ht by reflexivity.
  change (r.2) with w'. clearbody w' w. clear r.
  pose proof (@training_after_per_step_shrinks_at_milestones
                TrainingScene.collaborators _ _ _ _ _ E) as Hx.
  rewrite Hc, Ht in Hx. exact Hx.
Defined.

(** ** The values of the compositing *)

Section compositing.
Context `{FloatOps} `{Collaborators}.

(** An indexed assignment that succeeds finds its output in
    [rendered]. *)
Lemma st_assign_key base rl outs vbl bd0 h0 log bdn cl news key inds vals
    w u w' :
  outputs_wf base rl outs h0 ∧ buffer_wf base vbl bd0 h0 →
  render_st base outs vbl bd0 h0 log bdn cl news (heap w) →
  assign_rendered (VRef rl) key inds vals w = (Ok u, w') →
  is_Some (outs !! key).
Proof.
  intros Hwf S E.
  pose proof (st_rendered _ _ _ _ _ _ _ _ _ _ _ Hwf S) as Hrl.
  apply assign_rendered_inv in E
    as (rl' & rd & tl & t & t' & [= <-] & Hrl1 & Hkey & _).
  assert (rd = outs) as -> by congruence. eauto.
Qed.

(** The log of a rendering, replayed on an output. *)
Lemma replay_nil key t0 : replay [] key t0 = Ok t0.
Proof. done. Qed.

Lemma replay_raise (log : list (string * list nat * tensor)) key e :
  foldl (λ acc x,
           t ← acc;
           if String.eqb x.1.1 key then Torch.index_put t x.1.2 x.2
           else Ok t)
    (Raise e) log = Raise e.
Proof. by induction log. Qed.

Lemma replay_cons_ne k inds vals log key t0 :
  k ≠ key → replay ((k, inds, vals) :: log) key t0 = replay log key t0.
Proof.
  intros Hne. unfold replay. simpl.
  apply String.eqb_neq in Hne. by rewrite Hne.
Qed.

Lemma replay_cons_eq inds vals log key t0 t :
  replay ((key, inds, vals) :: log) key t0 = Ok t →
  ∃ t1, Torch.index_put t0 inds vals = Ok t1 ∧ replay log key t1 = Ok t.
Proof.
  unfold replay. simpl. rewrite String.eqb_refl.
  destruct (Torch.index_put t0 inds vals) as [t1|e]; [eauto|].
  by rewrite replay_raise.
Qed.
End compositing.

Ltac st_keys Hwf :=
  repeat first
    [ match goal with
      | S : render_st _ ?outs _ _ _ _ _ _ _ (heap ?w),
        E : assign_rendered _ ?key _ _ ?w = (Ok _, _) |- _ =>
          lazymatch goal with
          | _ : is_Some (outs !! key) |- _ => fail
          | _ =>
              pose proof (st_assign_key _ _ _ _ _ _ _ _ _ _ _ _ _ _ _ _
                            Hwf S E)
          end
      end
    | st_step Hwf ].

(** An assignment is in a log that is given. *)
Ltac log_mem := rewrite ?elem_of_app, ?elem_of_cons; auto 10.

Section compositing_values.
Context `{FloatOps} `{Collaborators}.

Lemma render_batched_keys base rl outs vbl bd riv (bn br bm : bool)
    w u w' :
  outputs_wf base rl outs (heap w) ∧ buffer_wf base vbl bd (heap w) →
  render_batched (VRef vbl) (VRef rl) riv (VBool bn) (VBool br) (VBool bm) w
  = (Ok u, w') →
  is_Some (outs !! "mask_volume") ∧ is_Some (outs !! "depth_volume")
  ∧ (br = true → is_Some (outs !! "rgb_volume"))
  ∧ (bm = true → is_Some (outs !! "normals_volume")).
Proof.
  intros Hwf E. pose proof (st_init _ _ _ _ _ _ Hwf) as S.
  destruct (proj2 Hwf) as (_ & Hbd & _).
  unfold render_batched in E. mrun.
  all: st_keys Hwf.
  all: repeat match goal with
    | E : truthy (VBool _) _ = (Ok _, _) |- _ =>
        unfold truthy in E; apply mret_inv in E as [? _]; simplify_eq
    end.
  all: split_and!; done.
Qed.

Lemma render_packed_keys base rl outs vbl bd riv (bn br bm : bool)
    w u w' :
  outputs_wf base rl outs (heap w) ∧ buffer_wf base vbl bd (heap w) →
  render_packed (VRef vbl) (VRef rl) riv (VBool bn) (VBool br) (VBool bm) w
  = (Ok u, w') →
  is_Some (outs !! "mask_volume") ∧ is_Some (outs !! "depth_volume")
  ∧ (br = true → is_Some (outs !! "rgb_volume"))
  ∧ (bm = true → is_Some (outs !! "normals_volume")).
Proof.
  intros Hwf E. pose proof (st_init _ _ _ _ _ _ Hwf) as S.
  destruct (proj2 Hwf) as (_ & Hbd & _).
  unfold render_packed in E. mrun.
  all: st_keys Hwf.
  all: repeat match goal with
    | E : truthy (VBool _) _ = (Ok _, _) |- _ =>
        unfold truthy in E; apply mret_inv in E as [? _]; simplify_eq
    end.
  all: split_and!; done.
Qed.

Lemma replay_absent log key t0 :
  key ∉ (λ e : string * list nat * tensor, e.1.1) <$> log →
  replay log key t0 = Ok t0.
Proof.
  induction log as [|[[k i] v] log IH]; [done|].
  rewrite fmap_cons, not_elem_of_cons. simpl. intros [Hne Hni].
  rewrite replay_cons_ne by done. by apply IH.
Qed.

Lemma replay_present log key inds vals t0 :
  NoDup ((λ e : string * list nat * tensor, e.1.1) <$> log) →
  (key, inds, vals) ∈ log →
  replay log key t0 = Torch.index_put t0 inds vals.
Proof.
  induction log as [|[[k i] v] log IH]; [by intros _ ?%elem_of_nil|].
  rewrite fmap_cons, NoDup_cons. simpl. intros [Hni Hnd].
  intros [[= <- <- <-]|Hin]%elem_of_cons.
  - unfold replay. simpl. rewrite String.eqb_refl.
    destruct (Torch.index_put t0 inds vals) as [t1|e].
    + by apply replay_absent.
    + apply replay_raise.
  - rewrite replay_cons_ne; [by apply IH|].
    intros ->. apply Hni. apply list_elem_of_fmap. by exists (key, inds, vals).
Qed.

(** What the state of a rendering says of an output that the log assigns
    once, and of one it does not assign. *)
Lemma st_scattered base rl outs vbl bd0 h0 log bdn cl news h key inds vals :
  outputs_wf base rl outs h0 ∧ buffer_wf base vbl bd0 h0 →
  distinct_outputs outs →
  render_st base outs vbl bd0 h0 log bdn cl news h →
  is_Some (outs !! key) →
  NoDup ((λ e : string * list nat * tensor, e.1.1) <$> log) →
  (key, inds, vals) ∈ log →
  scattered h0 h outs key inds vals.
Proof.
  intros [(Hrl & Hrd & Houts) _] Hdist
    (_ & _ & _ & _ & Hr & _) [v Hv] Hnd Hin.
  destruct (Houts _ _ Hv) as (tl & t0 & -> & _ & Ht0).
  destruct (Hr Hdist _ _ _ Hv Ht0) as (t & Hrep & Ht).
  rewrite (replay_present _ _ _ _ _ Hnd Hin) in Hrep.
  exists t0, t. unfold tensor_at. by rewrite Hv, Ht0, Ht.
Qed.

Lemma st_untouched base rl outs vbl bd0 h0 log bdn cl news h key :
  outputs_wf base rl outs h0 ∧ buffer_wf base vbl bd0 h0 →
  distinct_outputs outs →
  render_st base outs vbl bd0 h0 log bdn cl news h →
  key ∉ (λ e : string * list nat * tensor, e.1.1) <$> log →
  tensor_at h outs key = tensor_at h0 outs key.
Proof.
  intros [(Hrl & Hrd & Houts) _] Hdist
    (_ & _ & _ & _ & Hr & _) Hni.
  unfold tensor_at. destruct (outs !! key) as [v|] eqn:Hv; [|done].
  destruct (Houts _ _ Hv) as (tl & t0 & -> & _ & Ht0).
  destruct (Hr Hdist _ _ _ Hv Ht0) as (t & Hrep & Ht).
  rewrite (replay_absent _ _ _ Hni) in Hrep. injection Hrep as <-.
  by rewrite Ht, Ht0.
Qed.

(** X8.  The compositing of a batched buffer, when it succeeds on outputs
    that are separate tensors.  With [vw] the weights
    [ray_alpha_to_vw(opacity_alpha)] and [inds] the hit rays: the mask is
    assigned [vw.sum(-1)] at [inds]; the depth [(vw / (vw_sum + 1e-10)
    * t).sum(-1)] when [depth_use_normalized_vw] holds and [(vw *
    t).sum(-1)] otherwise; the colour, when asked for, [(vw * rgb).sum(-2)];
    the normals, when asked for, [(vw * nablas).sum(-2)] in training and
    [(vw * normalize(clamp(nablas, -1, 1))).sum(-2)] at inference, where
    the gradients are clamped first and normalised after.  Every other
    output is left as it was. *)
Theorem batched_compositing_values base rl outs vbl bd riv
    (bn br bm : bool) w u w' :
  outputs_wf base rl outs (heap w) →
  buffer_wf base vbl bd (heap w) →
  distinct_outputs outs →
  render_batched (VRef vbl) (VRef rl) riv (VBool bn) (VBool br) (VBool bm) w
  = (Ok u, w') →
  ∃ alpha vw vw_sum inds t d,
    tensor_at (heap w) bd "opacity_alpha" = Some alpha
    ∧ Graphics.ray_alpha_to_vw alpha = Ok vw
    ∧ Torch.sum_last vw = Ok vw_sum
    ∧ index_of (heap w) riv = Some inds
    ∧ tensor_at (heap w) bd "t" = Some t
    ∧ (if bn
       then vwn ← Torch.div vw
                    (Torch.add_scalar (Torch.unsqueeze_last vw_sum)
                       (1 # 10000000000));
            p ← Torch.mul vwn t; Torch.sum_last p
       else p ← Torch.mul vw t; Torch.sum_last p) = Ok d
    ∧ scattered (heap w) (heap w') outs "mask_volume" inds vw_sum
    ∧ scattered (heap w) (heap w') outs "depth_volume" inds d
    ∧ (br = true →
       ∃ rgb c,
         tensor_at (heap w) bd "rgb" = Some rgb
         ∧ (p ← Torch.mul (Torch.unsqueeze_last vw) rgb;
            Torch.sum_penult p) = Ok c
         ∧ scattered (heap w) (heap w') outs "rgb_volume" inds c)
    ∧ (bm = true →
       ∃ nablas n,
         tensor_at (heap w) bd "nablas" = Some nablas
         ∧ (if training (self w)
            then p ← Torch.mul (Torch.unsqueeze_last vw) nablas;
                 Torch.sum_penult p
            else u ← Functional.normalize (Torch.clamp (-1) 1 nablas);
                 p ← Torch.mul (Torch.unsqueeze_last vw) u;
                 Torch.sum_penult p) = Ok n
         ∧ scattered (heap w) (heap w') outs "normals_volume" inds n)
    ∧ ∀ key, key ∉ written_outputs br bm →
             tensor_at (heap w') outs key = tensor_at (heap w) outs key.
Proof.
  intros Ho Hb Hdist E. pose proof (conj Ho Hb) as Hwf.
  destruct (render_batched_keys _ _ _ _ _ _ _ _ _ _ _ _ Hwf E)
    as (Km & Kd & Kr & Kn).
  destruct (render_batched_effects _ _ _ _ _ _ _ _ _ _ _ _ Hwf E)
    as (alpha & vw & vw_sum & inds & t & d & rgb_log & nrm_log & cl
        & Ha & Hvw & Hsum & Hi & Ht & Hd & Hrgb & Hnrm & _ & S & _).
  exists alpha, vw, vw_sum, inds, t, d.
  assert (NoDup ((λ e : string * list nat * tensor, e.1.1)
                   <$> ([("mask_volume", inds, vw_sum);
                         ("depth_volume", inds, d)] ++ rgb_log ++ nrm_log))
          ∧ (λ e : string * list nat * tensor, e.1.1)
              <$> ([("mask_volume", inds, vw_sum);
                    ("depth_volume", inds, d)] ++ rgb_log ++ nrm_log)
            = written_outputs br bm) as [Hnd Hkeys].
  { destruct br, bm; simpl in Hrgb, Hnrm.
    all: repeat match goal with
      | Hx : ∃ _, _ |- _ => destruct Hx as [? Hx]
      | Hx : _ ∧ _ |- _ => destruct Hx as [? Hx]
      end; subst rgb_log nrm_log.
    all: split; [|done].
    all: apply (bool_decide_unpack _); by vm_compute. }
  split_and!; try done.
  - eapply st_scattered; try done. log_mem.
  - eapply st_scattered; try done. log_mem.
  - intros ->. destruct Hrgb as (rgb & c & ? & ? & ->).
    exists rgb, c. split_and!; try done.
    eapply st_scattered; try done; [by apply Kr|log_mem].
  - intros ->. destruct Hnrm as (nablas & n & ? & ? & ->).
    exists nablas, n. split_and!; try done.
    eapply st_scattered; try done; [by apply Kn|log_mem].
  - intros key Hkey. eapply st_untouched; try done. by rewrite Hkeys.
Qed.

(** X9.  The compositing of a packed buffer, when it succeeds on outputs
    that are separate tensors.  With [packs] the [pack_infos_hit] of the
    buffer, [vw] the weights [packed_alpha_to_vw(opacity_alpha, packs)]
    and [inds] the hit rays: the mask is assigned [packed_sum(vw, packs)]
    at [inds]; the depth [packed_sum(packed_div(vw, vw_sum + 1e-10) * t)]
    when [depth_use_normalized_vw] holds and [packed_sum(vw * t)]
    otherwise; the colour, when asked for, [packed_sum(vw.view(-1,1) *
    rgb.view(-1,3))]; the normals, when asked for, the same sum over the
    raw [nablas] in training and over [normalize(clamp(nablas, -1, 1))]
    at inference.  Every other output is left as it was. *)
Theorem packed_compositing_values base rl outs vbl bd riv
    (bn br bm : bool) w u w' :
  outputs_wf base rl outs (heap w) →
  buffer_wf base vbl bd (heap w) →
  distinct_outputs outs →
  render_packed (VRef vbl) (VRef rl) riv (VBool bn) (VBool br) (VBool bm) w
  = (Ok u, w') →
  ∃ pi packs alpha vw_sum inds t d,
    let vw := Graphics.packed_alpha_to_vw alpha packs in
    bd !! "pack_infos_hit" = Some pi
    ∧ get_pack_infos pi w = (Ok packs, w)
    ∧ tensor_at (heap w) bd "opacity_alpha" = Some alpha
    ∧ Graphics.packed_sum (Torch.view_flat vw) packs = Ok vw_sum
    ∧ index_of (heap w) riv = Some inds
    ∧ tensor_at (heap w) bd "t" = Some t
    ∧ (if bn
       then vwn ← Graphics.packed_div vw
                    (Torch.add_scalar vw_sum (1 # 10000000000)) packs;
            p ← Torch.mul vwn (Torch.view_flat t);
            Graphics.packed_sum p packs
       else p ← Torch.mul (Torch.view_flat vw) (Torch.view_flat t);
            Graphics.packed_sum p packs) = Ok d
    ∧ scattered (heap w) (heap w') outs "mask_volume" inds vw_sum
    ∧ scattered (heap w) (heap w') outs "depth_volume" inds d
    ∧ (br = true →
       ∃ rgb c,
         tensor_at (heap w) bd "rgb" = Some rgb
         ∧ (v1 ← Torch.view_rows 1 vw;
            r3 ← Torch.view_rows 3 rgb;
            p ← Torch.mul v1 r3;
            Graphics.packed_sum p packs) = Ok c
         ∧ scattered (heap w) (heap w') outs "rgb_volume" inds c)
    ∧ (bm = true →
       ∃ nablas n,
         tensor_at (heap w) bd "nablas" = Some nablas
         ∧ (if training (self w)
            then v1 ← Torch.view_rows 1 vw;
                 n3 ← Torch.view_rows 3 nablas;
                 p ← Torch.mul v1 n3;
                 Graphics.packed_sum p packs
            else v1 ← Torch.view_rows 1 vw;
                 u ← Functional.normalize (Torch.clamp (-1) 1 nablas);
                 n3 ← Torch.view_rows 3 u;
                 p ← Torch.mul v1 n3;
                 Graphics.packed_sum p packs) = Ok n
         ∧ scattered (heap w) (heap w') outs "normals_volume" inds n)
    ∧ ∀ key, key ∉ written_outputs br bm →
             tensor_at (heap w') outs key = tensor_at (heap w) outs key.
Proof.
  intros Ho Hb Hdist E. pose proof (conj Ho Hb) as Hwf.
  destruct (render_packed_keys _ _ _ _ _ _ _ _ _ _ _ _ Hwf E)
    as (Km & Kd & Kr & Kn).
  destruct (render_packed_effects _ _ _ _ _ _ _ _ _ _ _ _ Hwf E)
    as (pi & packs & alpha & vw & vw_sum & inds & t & d & rgb_log & nrm_log
        & cl & Hpi & Hpk & Ha & -> & Hsum & Hi & Ht & Hd & Hrgb & Hnrm & _
        & S & _).
  exists pi, packs, alpha, vw_sum, inds, t, d. cbv zeta.
  assert (NoDup ((λ e : string * list nat * tensor, e.1.1)
                   <$> ([("mask_volume", inds, vw_sum);
                         ("depth_volume", inds, d)] ++ rgb_log ++ nrm_log))
          ∧ (λ e : string * list nat * tensor, e.1.1)
              <$> ([("mask_volume", inds, vw_sum);
                    ("depth_volume", inds, d)] ++ rgb_log ++ nrm_log)
            = written_outputs br bm) as [Hnd Hkeys].
  { destruct br, bm; simpl in Hrgb, Hnrm.
    all: repeat match goal with
      | Hx : ∃ _, _ |- _ => destruct Hx as [? Hx]
      | Hx : _ ∧ _ |- _ => destruct Hx as [? Hx]
      end; subst rgb_log nrm_log.
    all: split; [|done].
    all: apply (bool_decide_unpack _); by vm_compute. }
  split_and!; try done.
  - eapply st_scattered; try done. log_mem.
  - eapply st_scattered; try done. log_mem.
  - intros ->. destruct Hrgb as (rgb & c & ? & ? & ->).
    exists rgb, c. split_and!; try done.
    eapply st_scattered; try done; [by apply Kr|log_mem].
  - intros ->. destruct Hnrm as (nablas & n & ? & ? & ->).
    exists nablas, n. split_and!; try done.
    eapply st_scattered; try done; [by apply Kn|log_mem].
  - intros key Hkey. eapply st_untouched; try done. by rewrite Hkeys.
Qed.
End compositing_values.

Lemma NoDup_omap_inj {A B} (f : A → option B) (l : list A) x y b :
  NoDup (omap f l) → x ∈ l → y ∈ l → f x = Some b → f y = Some b → x = y.
Proof.
  induction l as [|a l IH]; [by intros _ ?%elem_of_nil|].
  simpl. intros Hnd Hx Hy Hfx Hfy.
  assert (∀ z, z ∈ l → f z = Some b → b ∈ omap f l) as Hin.
  { intros z Hz Hfz. apply list_elem_of_omap. by exists z. }
  apply elem_of_cons in Hx as [->|Hx], Hy as [->|Hy]; [done| | |].
  - rewrite Hfx in Hnd. apply NoDup_cons in Hnd as [Hni _].
    destruct Hni. by eapply Hin.
  - rewrite Hfy in Hnd. apply NoDup_cons in Hnd as [Hni _].
    destruct Hni. by eapply Hin.
  - apply IH; try done. destruct (f a); [|done].
    by apply NoDup_cons in Hnd as [_ ?].
Qed.

Lemma distinct_outputs_check (outs : gmap string val) :
  NoDup (omap output_ref (map_to_list outs)) → distinct_outputs outs.
Proof.
  intros Hnd k k' tl Hk Hk'.
  apply elem_of_map_to_list in Hk, Hk'.
  by pose proof (NoDup_omap_inj _ _ _ _ tl Hnd Hk Hk' eq_refl eq_refl)
    as [= ->].
Qed.

Lemma outputs_wf_check base rl outs h :
  rl < base → h !! rl = Some (ODict outs) →
  forallb (output_ok base h) (map_to_list outs) = true →
  outputs_wf base rl outs h.
Proof.
  intros Hrl Hd Hall. split_and!; try done.
  intros key v Hv. apply elem_of_map_to_list, list_elem_of_In in Hv.
  rewrite forallb_forall in Hall. apply Hall in Hv.
  unfold output_ok in Hv. simpl in Hv. destruct v as [| | | | | |tl]; try done.
  apply andb_true_iff in Hv as [Hlt Ht]. apply Nat.ltb_lt in Hlt.
  destruct (h !! tl) as [[d|t|lt]|] eqn:Hl; try done. by exists tl, t.
Qed.

Lemma buffer_wf_check base vbl bd h :
  base ≤ vbl → h !! vbl = Some (ODict bd) →
  forallb (buffer_ref_ok base h) (map_to_list bd) = true →
  buffer_wf base vbl bd h.
Proof.
  intros Hvbl Hd Hall. split_and!; try done.
  intros k l Hk. apply elem_of_map_to_list, list_elem_of_In in Hk.
  rewrite forallb_forall in Hall. apply Hall in Hk.
  unfold buffer_ref_ok in Hk. simpl in Hk.
  apply andb_true_iff in Hk as [H1 H2].
  apply Nat.leb_le in H1. apply Nat.ltb_lt in H2. lia.
Qed.

(** In the scene, at inference, the compositing of the batched buffer
    assigns the mask of the two hit rays. *)
Lemma batched_compositing_values_witness :
  let w := Scene.query_world "coarse_multi_upsample" 2 Scene.self_inference in
  let w1 := (@ray_query_prepare Scene.collaborators Scene.ray_input
               Scene.ray_tested Scene.config true false true w).2 in
  let w2 := (@dispatch Scene.collaborators Scene.ray_tested Scene.config
               (VStr "coarse_multi_upsample") (VBool true) (VBool true)
               (VFloat 64) w1).2 in
  let r := @render_batched Scene.floats (VRef 17) (VRef 9) (VRef 12)
             (VBool true) (VBool true) (VBool true) w2 in
  ∃ outs vw_sum nablas n,
    dict_at (heap w2) (VRef 9) = Some outs
    ∧ scattered (heap w2) (heap r.2) outs "mask_volume" [0; 2] vw_sum
    ∧ (u ← @Functional.normalize Scene.floats (Torch.clamp (-1) 1 nablas);
       p ← Torch.mul
             (Torch.unsqueeze_last (Tensor [2; 2] [1#2; 1#4; 1#4; 3#4]%Q)) u;
       Torch.sum_penult p) = Ok n
    ∧ scattered (heap w2) (heap r.2) outs "normals_volume" [0; 2] n.
Proof.
  intros w w1 w2 r.
  pose (w' := r.2).
  pose (outs := default ∅ (dict_at (heap w2) (VRef 9))).
  pose (bd := default ∅ (dict_at (heap w2) (VRef 17))).
  assert (@render_batched Scene.floats (VRef 17) (VRef 9) (VRef 12)
            (VBool true) (VBool true) (VBool true) w2 = (Ok (), w')) as E
    by (vm_compute; reflexivity).
  assert (heap w2 !! 9 = Some (ODict outs)) as Ho
    by (vm_compute; reflexivity).
  assert (heap w2 !! 17 = Some (ODict bd)) as Hb
    by (vm_compute; reflexivity).
  assert (forallb (output_ok 12 (heap w2)) (map_to_list outs) = true)
    as Hoa by (vm_compute; reflexivity).
  assert (forallb (buffer_ref_ok 12 (heap w2)) (map_to_list bd) = true)
    as Hba by (vm_compute; reflexivity).
  assert (NoDup (omap output_ref (map_to_list outs))) as Hnd
    by (apply (bool_decide_unpack _); vm_compute; reflexivity).
  assert (index_of (heap w2) (VRef 12) = Some [0; 2]) as Hi
    by (vm_compute; reflexivity).
  assert (training (self w2) = false) as Htr by reflexivity.
  assert (tensor_at (heap w2) bd "opacity_alpha"
          = Some (Tensor [2; 2] [1#2; 1#2; 1#4; 1]%Q)) as Ha
    by (vm_compute; reflexivity).
  assert (Graphics.ray_alpha_to_vw (Tensor [2; 2] [1#2; 1#2; 1#4; 1]%Q)
          = Ok (Tensor [2; 2] [1#2; 1#4; 1#4; 3#4]%Q)) as Hvw
    by (vm_compute; reflexivity).
  assert (dict_at (heap w2) (VRef 9) = Some outs) as Hd
    by (vm_compute; reflexivity).
  change (r.2) with w'.
  clearbody w' outs bd w2. clear r w1 w.
  destruct (@batched_compositing_values Scene.floats
              12 9 outs 17 bd _ true true true _ _ _
              (outputs_wf_check 12 9 outs (heap w2) ltac:(lia) Ho Hoa)
              (buffer_wf_check 12 17 bd (heap w2) ltac:(lia) Hb Hba)
              (distinct_outputs_check _ Hnd) E)
    as (alpha & vw & vw_sum & inds & t & d & Ha' & Hvw' & _ & Hi' & _ & _
        & Hmask & _ & _ & Hn & _).
  destruct (Hn eq_refl) as (nablas & n & _ & Hnv & Hns).
  rewrite Htr in Hnv.
  rewrite Ha in Ha'. injection Ha' as <-.
  rewrite Hvw in Hvw'. injection Hvw' as <-.
  rewrite Hi in Hi'. injection Hi' as <-.
  by exists outs, vw_sum, nablas, n.
Defined.

(** In the scene, in training, the compositing of the packed buffer
    assigns the mask and the depth of the two hit rays. *)
Lemma packed_compositing_values_witness :
  let w := Scene.query_world "march_occ_multi_upsample" 2
             Scene.self_with_accel in
  let w1 := (@ray_query_prepare Scene.collaborators Scene.ray_input
               Scene.ray_tested Scene.config true false true w).2 in
  let w2 := (@dispatch Scene.collaborators Scene.ray_tested Scene.config
               (VStr "march_occ_multi_upsample") (VBool true) (VBool true)
               (VFloat 64) w1).2 in
  let r := @render_packed Scene.floats (VRef 18) (VRef 9) (VRef 12)
             (VBool false) (VBool true) (VBool true) w2 in
  ∃ outs vw_sum d,
    dict_at (heap w2) (VRef 9) = Some outs
    ∧ scattered (heap w2) (heap r.2) outs "mask_volume" [0; 2] vw_sum
    ∧ scattered (heap w2) (heap r.2) outs "depth_volume" [0; 2] d.
Proof.
  intros w w1 w2 r.
  pose (w' := r.2).
  pose (outs := default ∅ (dict_at (heap w2) (VRef 9))).
  pose (bd := default ∅ (dict_at (heap w2) (VRef 18))).
  assert (@render_packed Scene.floats (VRef 18) (VRef 9) (VRef 12)
            (VBool false) (VBool true) (VBool true) w2 = (Ok (), w')) as E
    by (vm_compute; reflexivity).
  assert (heap w2 !! 9 = Some (ODict outs)) as Ho
    by (vm_compute; reflexivity).
  assert (heap w2 !! 18 = Some (ODict bd)) as Hb
    by (vm_compute; reflexivity).
  assert (forallb (output_ok 12 (heap w2)) (map_to_list outs) = true)
    as Hoa by (vm_compute; reflexivity).
  assert (forallb (buffer_ref_ok 12 (heap w2)) (map_to_list bd) = true)
    as Hba by (vm_compute; reflexivity).
  assert (NoDup (omap output_ref (map_to_list outs))) as Hnd
    by (apply (bool_decide_unpack _); vm_compute; reflexivity).
  assert (index_of (heap w2) (VRef 12) = Some [0; 2]) as Hi
    by (vm_compute; reflexivity).
  assert (dict_at (heap w2) (VRef 9) = Some outs) as Hd
    by (vm_compute; reflexivity).
  change (r.2) with w'.
  clearbody w' outs bd w2. clear r w1 w.
  destruct (@packed_compositing_values Scene.floats
              12 9 outs 18 bd _ false true true _ _ _
              (outputs_wf_check 12 9 outs (heap w2) ltac:(lia) Ho Hoa)
              (buffer_wf_check 12 18 bd (heap w2) ltac:(lia) Hb Hba)
              (distinct_outputs_check _ Hnd) E)
    as (pi & packs & alpha & vw_sum & inds & t & d & _ & _ & _ & _ & Hi'
        & _ & _ & Hmask & Hdepth & _).
  rewrite Hi in Hi'. injection Hi' as <-.
  by exists outs, vw_sum, d.
Defined.

(** ** The calls of a query *)

Create HintDb only.

Section only.
Context `{FloatOps} `{Collaborators}.
Context (P : call → bool).

Lemma only_reads {A} (m : M A) : reads m → only_calls P m.
Proof.
  intros Hm w. split; [by rewrite Hm|]. exists [].
  rewrite Hm, app_nil_r. split; [done|constructor].
Qed.

Lemma only_bind {A B} (m : M A) (f : A → M B) :
  only_calls P m → (∀ a, only_calls P (f a)) → only_calls P (m ≫= f).
Proof.
  intros Hm Hf w. unfold mbind, M_bind.
  destruct (Hm w) as (S1 & evs1 & E1 & F1).
  destruct (m w) as [[a|e] w1]; simpl in *; [|eauto].
  destruct (Hf a w1) as (S2 & evs2 & E2 & F2). split; [congruence|].
  exists (evs1 ++ evs2). rewrite E2, E1, app_assoc. split; [done|].
  by apply Forall_app.
Qed.

Lemma only_alloc o : only_calls P (alloc o).
Proof.
  intros w. split; [done|]. exists []. simpl. rewrite app_nil_r. split; [done|constructor].
Qed.

Lemma only_store v o : only_calls P (store v o).
Proof.
  intros w. unfold store.
  case_match; (split; [done|]); exists []; simpl; rewrite app_nil_r;
    (split; [done|constructor]).
Qed.

Lemma only_call_ext c : P c = true → only_calls P (call_ext c).
Proof.
  intros Hc w. unfold call_ext.
  case_match; (split; [done|]); exists [c]; split; try done;
    by repeat constructor.
Qed.
End only.

Global Hint Resolve only_alloc only_store : only.

(** Discharge [only_calls P m] for a computation built from binds,
    conditionals and the computations already known to the hint base. *)
Ltac only_tac :=
  repeat first
    [ solve [ auto with only ]
    | solve [ apply only_reads; auto with reads ]
    | solve [ apply only_call_ext; reflexivity ]
    | apply only_bind; [|intros ?]
    | progress case_match ].

Section only_more.
Context `{FloatOps} `{Collaborators}.

Lemma only_setitem P v k x : only_calls P (setitem v k x).
Proof. unfold setitem. only_tac. Qed.

Lemma only_call1 (P : call → bool) c :
  P c = true → only_calls P (call1 c).
Proof.
  intros Hc. unfold call1. apply only_bind; [by apply only_call_ext|].
  intros ?. only_tac.
Qed.

Lemma only_accel_call (P : call → bool) attr c :
  P c = true → only_calls P (accel_call attr c).
Proof.
  intros Hc. unfold accel_call. apply only_bind; [only_tac|].
  intros s. case_match; [by apply only_call1|only_tac].
Qed.

Hint Resolve only_setitem : only.

Lemma only_assign_rendered P r k inds vals :
  only_calls P (assign_rendered r k inds vals).
Proof. unfold assign_rendered. only_tac. Qed.

Lemma only_clamp_nablas_ P vb : only_calls P (clamp_nablas_ vb).
Proof. unfold clamp_nablas_. only_tac. Qed.

Hint Resolve only_assign_rendered only_clamp_nablas_ : only.

Lemma only_render_batched P vb r i d rgb nrm :
  only_calls P (render_batched vb r i d rgb nrm).
Proof. unfold render_batched. only_tac. Qed.

Lemma only_render_packed P vb r i d rgb nrm :
  only_calls P (render_packed vb r i d rgb nrm).
Proof. unfold render_packed. only_tac. Qed.

Hint Resolve only_render_batched only_render_packed : only.

Lemma only_render_per_object P vb r cfg rgb nrm :
  only_calls P (render_per_object vb r cfg rgb nrm).
Proof. unfold render_per_object. only_tac. Qed.

Lemma only_forward_sdf x skip kw :
  only_calls probe_call (forward_sdf x skip kw).
Proof.
  unfold forward_sdf, collect_samples.
  apply only_bind; [by apply only_call1|]. intros ret.
  apply only_bind; [only_tac|]. intros s.
  case_match; [|only_tac].
  apply only_bind; [|intros; only_tac].
  apply only_bind; [only_tac|]. intros sdf.
  apply only_bind; [only_tac|]. intros b.
  case_match; [|only_tac].
  apply only_bind; [by apply only_accel_call|]. intros; only_tac.
Qed.

Hint Resolve only_forward_sdf only_render_per_object : only.

Lemma only_near_sdf_probe rt details :
  only_calls probe_call (near_sdf_probe rt details).
Proof. unfold near_sdf_probe. only_tac. Qed.

Hint Resolve only_near_sdf_probe : only.

Lemma only_attach q cfg rb rd vb qd :
  only_calls probe_call (attach_buffer_and_details q cfg rb rd vb qd).
Proof. unfold attach_buffer_and_details. only_tac. Qed.

Lemma only_prepare_details raw_ret fis :
  only_calls shortcut_call (prepare_details raw_ret fis).
Proof.
  unfold prepare_details.
  repeat first
    [ solve [ auto with only ]
    | solve [ apply only_reads; auto with reads ]
    | solve [ by apply only_call1 ]
    | solve [ by apply only_accel_call ]
    | apply only_bind; [|intros ?]
    | progress case_match ].
Qed.

Lemma only_prepare_rendered P raw_ret ri rgb nrm :
  only_calls P (prepare_rendered raw_ret ri rgb nrm).
Proof. unfold prepare_rendered. only_tac. Qed.

Lemma only_weaken (P Q : call → bool) {A} (m : M A) :
  (∀ c, P c = true → Q c = true) → only_calls P m → only_calls Q m.
Proof.
  intros HPQ Hm w. destruct (Hm w) as (? & evs & ? & HF).
  split; [done|]. exists evs. split; [done|].
  eapply Forall_impl; [exact HF|]. done.
Qed.

Lemma only_ray_test rays_o rays_d near far extra :
  only_calls prepare_call (ray_test rays_o rays_d near far extra).
Proof.
  unfold ray_test.
  repeat first
    [ solve [ apply only_reads; auto using reads_for_each with reads ]
    | solve [ by apply only_call1 ]
    | apply only_bind; [|intros ?]
    | progress case_match ].
Qed.

Lemma only_ray_test_kw ri : only_calls prepare_call (ray_test_kw ri).
Proof.
  unfold ray_test_kw. apply only_bind; [only_tac|]. intros d.
  destruct (d !! "rays_o"); [|only_tac].
  destruct (d !! "rays_d"); [apply only_ray_test|only_tac].
Qed.

(** [ray_query] up to the test for zero rays makes the calls of the
    preparation only, and no ray test when [ray_tested] is given. *)
Lemma only_ray_query_prepare ri rt config rb rd rp :
  only_calls (match rt with VNone => prepare_call | _ => shortcut_call end)
    (ray_query_prepare ri rt config rb rd rp).
Proof.
  assert (∀ c, shortcut_call c = true → prepare_call c = true) as Hsp.
  { by intros []. }
  unfold ray_query_prepare. apply only_bind.
  { destruct rt; simpl; try solve [only_tac].
    destruct ri; try apply only_ray_test_kw. only_tac. }
  intros rt'.
  eapply (only_weaken shortcut_call); [by destruct rt|].
  repeat first
    [ solve [ auto with only ]
    | solve [ apply only_reads; auto with reads ]
    | solve [ by apply only_call1 ]
    | solve [ apply only_prepare_details ]
    | solve [ apply only_prepare_rendered ]
    | apply only_bind; [|intros ?]
    | progress case_match ].
Qed.

Lemma samples_once_reads {A} (m : M A) : reads m → samples_once m.
Proof.
  intros Hm w. split; [by rewrite Hm|]. exists [].
  rewrite Hm, app_nil_r. auto.
Qed.

Lemma samples_once_after {A B} (m : M A) (f : A → M B) :
  reads m → (∀ a, samples_once (f a)) → samples_once (m ≫= f).
Proof.
  intros Hm Hf w. unfold mbind, M_bind. specialize (Hm w).
  destruct (m w) as [[a|e] w1]; simpl in *; subst w1; [apply Hf|].
  split; [done|]. exists []. rewrite app_nil_r. auto.
Qed.

Lemma samples_once_sample s args : samples_once (call_ext (Sample s args)).
Proof.
  intros w. unfold call_ext. case_match; simpl; (split; [done|]);
    eexists; (split; [reflexivity|]); right; eauto.
Qed.

(** The dispatch calls one sampler, or nothing. *)
Lemma samples_once_dispatch rt config qm rgb nrm fis :
  samples_once (dispatch rt config qm rgb nrm fis).
Proof.
  unfold dispatch. cbv zeta.
  repeat case_match;
    repeat first
      [ solve [ apply samples_once_reads; auto with reads ]
      | apply samples_once_sample
      | apply samples_once_after; [solve [auto with reads]|intros ?]
      | progress case_match ].
Qed.

(** X10.  Every run of [ray_query], whether it returns or raises, leaves
    the attributes of [self] as they are, and calls its collaborators in
    three stages: first the calls of the preparation ([space.ray_test],
    only when [ray_tested] is not given; [forward_inv_s];
    [accel.debug_stats]; [lipshitz_bound_full]), then at most one
    sampler, then the calls of the probe of the SDF at the near bound
    (the [forward_sdf] of the network and [accel.collect_samples]).  It
    never initialises, steps, shrinks or rescales anything. *)
Theorem ray_query_only_queries ray_input ray_tested config
    return_buffer return_details render_per_obj_individual w :
  let w' := (ray_query ray_input ray_tested config return_buffer
               return_details render_per_obj_individual w).2 in
  self w' = self w
  ∧ ∃ pre smp post,
      trace w' = trace w ++ pre ++ smp ++ post
      ∧ Forall (λ c, match ray_tested with
                     | VNone => prepare_call c
                     | _ => shortcut_call c
                     end = true) pre
      ∧ (smp = [] ∨ ∃ s args, smp = [Sample s args])
      ∧ Forall (λ c, probe_call c = true) post.
Proof.
  cbv zeta.
  destruct (ray_query _ _ _ _ _ _ w) as [r w'] eqn:E. simpl.
  assert (∀ pre, Forall (λ c, match ray_tested with
                              | VNone => prepare_call
                              | _ => shortcut_call
                              end c = true) pre →
                 Forall (λ c, match ray_tested with
                              | VNone => prepare_call c
                              | _ => shortcut_call c
                              end = true) pre) as Hpre.
  { by destruct ray_tested. }
  unfold ray_query in E.
  pose proof (only_ray_query_prepare ray_input ray_tested config
                return_buffer return_details render_per_obj_individual w)
    as (S1 & pre & T1 & F1%Hpre).
  apply bind_cases in E as [(q & w1 & E1 & E)|(e & E1 & ->)];
    rewrite E1 in S1, T1; simpl in S1, T1.
  2: { split; [done|]. exists pre, [], []. rewrite !app_nil_r.
       split_and!; auto. }
  destruct (q_no_rays q).
  { apply mret_inv in E as [_ ->]. split; [done|].
    exists pre, [], []. rewrite !app_nil_r. split_and!; auto. }
  unfold ray_query_finish in E.
  pose proof (samples_once_dispatch (q_ray_tested q) config (q_query_mode q)
                (q_with_rgb q) (q_with_normal q) (q_forward_inv_s q) w1)
    as (S2 & smp & T2 & Hs).
  apply bind_cases in E as [([vb qd] & w2 & E2 & E)|(e & E2 & ->)];
    rewrite E2 in S2, T2; simpl in S2, T2.
  2: { split; [congruence|]. exists pre, smp, []. rewrite app_nil_r.
       rewrite T2, T1, <- app_assoc. split_and!; auto. }
  match type of E with
  | ?m w2 = _ => assert (only_calls probe_call m) as Hrest
  end.
  { apply only_bind; [apply only_attach|]. intros ?.
    apply only_bind; [|intros; only_tac].
    destruct render_per_obj_individual; [|only_tac].
    apply only_render_per_object. }
  destruct (Hrest w2) as (S3 & post & T3 & F3).
  rewrite E in S3, T3. simpl in S3, T3.
  split; [congruence|]. exists pre, smp, post.
  rewrite T3, T2, T1, <- !app_assoc. split_and!; auto.
Qed.
End only_more.

(** ** The shortcuts of a query *)

Section shortcuts.
Context `{FloatOps} `{Collaborators}.

Lemma grows_prepare_details raw_ret fis :
  grows (prepare_details raw_ret fis).
Proof. unfold prepare_details. grows_tac. Qed.

Lemma grows_prepare_rendered raw_ret ri rgb nrm :
  grows (prepare_rendered raw_ret ri rgb nrm).
Proof. unfold prepare_rendered. grows_tac. Qed.

Lemma grows_dispatch rt config qm rgb nrm fis :
  grows (dispatch rt config qm rgb nrm fis).
Proof. unfold dispatch. cbv zeta. grows_tac. Qed.

Lemma grows_ray_query_finish q config rb rd rp :
  grows (ray_query_finish q config rb rd rp).
Proof.
  unfold ray_query_finish. apply grows_bind; [apply grows_dispatch|].
  intros [vb qd]. grows_tac.
Qed.

(** X11.  A query that is given [ray_tested], with a config that has
    [query_mode], [with_rgb] and [with_normal], first of all calls
    [self.forward_inv_s()]: the default of [config.get('forward_inv_s',
    ...)] is evaluated whether or not the config has the key.  So an
    error of [forward_inv_s()] is an error of the query even when the
    config gives a value; and when the preparation succeeds, the value
    it goes on with is the one of the config if there is one, and what
    the call returned otherwise. *)
Theorem forward_inv_s_is_always_evaluated ray_input ray_tested config cd
    return_buffer return_details render_per_obj_individual w :
  ray_tested ≠ VNone →
  dict_at (heap w) config = Some cd →
  is_Some (cd !! "query_mode") →
  is_Some (cd !! "with_rgb") →
  is_Some (cd !! "with_normal") →
  (∃ evs, trace (ray_query ray_input ray_tested config return_buffer
                   return_details render_per_obj_individual w).2
          = trace w ++ NetForwardInvS :: evs)
  ∧ (∀ e, respond w NetForwardInvS = Raise e →
          (ray_query ray_input ray_tested config return_buffer
             return_details render_per_obj_individual w).1 = Raise e)
  ∧ (∀ q w1,
       ray_query_prepare ray_input ray_tested config return_buffer
         return_details render_per_obj_individual w = (Ok q, w1) →
       ∃ f, respond w NetForwardInvS = Ok f
            ∧ q_forward_inv_s q
              = default (shift_val (length (heap w)) (f_val f))
                  (cd !! "forward_inv_s")).
Proof.
  intros Hrt Hcd [qm Hqm] [rgb Hrgb] [nrm Hnrm].
  unfold dict_at in Hcd. destruct config as [| | | | | |cl]; try done.
  destruct (heap w !! cl) as [[d| |]|] eqn:Hcl; try done.
  injection Hcd as ->.
  set (k := λ q : locals,
         if q_no_rays q then mret (q_raw_ret q)
         else ray_query_finish q (VRef cl) return_buffer return_details
                render_per_obj_individual).
  assert (∀ q, grows (k q)) as Hk.
  { intros q. unfold k. destruct (q_no_rays q); [grows_tac|].
    apply grows_ray_query_finish. }
  change (ray_query ray_input ray_tested (VRef cl) return_buffer
            return_details render_per_obj_individual)
    with (ray_query_prepare ray_input ray_tested (VRef cl) return_buffer
            return_details render_per_obj_individual ≫= k).
  destruct (ray_query_prepare ray_input ray_tested (VRef cl) return_buffer
              return_details render_per_obj_individual w)
    as [r1 w1] eqn:E1.
  pose proof E1 as E. unfold ray_query_prepare in E.
  assert ((match ray_tested with
           | VNone =>
               match ray_input with
               | VNone => raise (AssertionError "")
               | _ => ray_test_kw ray_input
               end
           | _ => mret ray_tested
           end) w = (Ok ray_tested, w)) as E0 by (by destruct ray_tested).
  rewrite (bind_ok _ _ _ _ _ E0) in E. clear E0.
  rewrite (bind_ok _ _ _ _ _ (getattr_run _ _ _ _ _ Hcl Hqm)) in E.
  rewrite (bind_ok _ _ _ _ _ (getattr_run _ _ _ _ _ Hcl Hrgb)) in E.
  rewrite (bind_ok _ _ _ _ _ (getattr_run _ _ _ _ _ Hcl Hnrm)) in E.
  apply bind_cases in E as [(dflt & w0 & Ec & E)|(e & Ec & ->)].
  - pose proof (call1_ok_inv _ _ _ _ Ec) as (f & Hf & -> & Hh0 & Ht0 & Hs0).
    match type of E with
    | ?rest w0 = _ => assert (grows rest) as Hrest
    end.
    { repeat first
        [ solve [ auto with grows ]
        | solve [ apply grows_reads; auto with reads ]
        | apply grows_prepare_details
        | apply grows_prepare_rendered
        | apply grows_bind; [|intros ?]
        | progress case_match ]. }
    destruct (Hrest w0) as [evs1 T1]. rewrite E in T1. simpl in T1.
    destruct (grows_after
                (ray_query_prepare ray_input ray_tested (VRef cl)
                   return_buffer return_details render_per_obj_individual)
                k w Hk) as [evs2 T2].
    rewrite E1 in T2. simpl in T2.
    split_and!.
    + exists (evs1 ++ evs2). rewrite T2, T1, Ht0, <- !app_assoc. done.
    + intros e He. congruence.
    + intros q w1' [= -> <-]. exists f. split; [done|].
      assert (heap w0 !! cl = Some (ODict cd)) as Hcl0.
      { rewrite Hh0. by apply lookup_app_l_Some. }
      apply bind_ok_inv in E as (fis & w2 & E2 & E).
      rewrite (cfg_get_run _ _ _ _ _ Hcl0) in E2.
      injection E2 as <- <-.
      clear -E. mrun; done.
  - pose proof (call1_inv _ _ _ _ Ec) as (Ht0 & _).
    rewrite (bind_raise _ _ _ _ _ E1). simpl.
    split_and!.
    + exists []. done.
    + intros e' He'. unfold call1, call_ext in Ec.
      unfold mbind, M_bind in Ec. rewrite He' in Ec. congruence.
    + intros q w1' [=].
Qed.
End shortcuts.

(** ** The details of a query *)

Section details.
Context `{FloatOps} `{Collaborators}.

Lemma recip_ok_inv v w sv w' :
  recip v w = (Ok sv, w') →
  ∃ q, number_of v = Some q ∧ ¬ (q == 0)%Q ∧ sv = VFloat (1 / q).
Proof.
  unfold recip. destruct v as [|b|n|q| | |]; try by inversion 1.
  - destruct b; inversion 1. exists 1%Q. split_and!; done.
  - destruct (n =? 0)%Z eqn:Hn; inversion 1.
    exists (inject_Z n). split_and!; try done.
    apply Z.eqb_neq in Hn. unfold Qeq. simpl. lia.
  - destruct (Qeq_bool q 0) eqn:Hq; inversion 1.
    exists q. split_and!; try done. by apply Qeq_bool_neq.
Qed.

Lemma item_or_self_run fis w b w1 x w2 :
  is_tensor fis w = (Ok b, w1) →
  (if b then item fis else mret fis) w1 = (Ok x, w2) →
  w2 = w ∧ item_or_self (heap w) fis = Some x.
Proof.
  rewrite is_tensor_run. intros [= <- <-].
  unfold item_or_self, tensor_shape, item, load.
  destruct fis as [| | | | | |l]; simpl;
    try (by intros [_ ->]%mret_inv; split; [done|]).
  all: try by (intros E; apply mret_inv in E as [[= ->] ->]).
  unfold mbind, M_bind.
  destruct (heap w !! l) as [[d|[sh [|x0 [|]]]|[sh [|n0 [|]]]]|] eqn:Hl;
    simpl; rewrite ?Hl; simpl; try (by inversion 1).
Qed.

(** X12.  When the details of a query are prepared, the new dict
    [details] holds under [inv_s] the value of [forward_inv_s], its single
    element when it is a tensor: a number that is not zero; and under [s]
    the float [1 / inv_s].  With [inv_s] zero the division raises, and
    the preparation does not return.  The dict has the key [accel]
    exactly when [self.accel] is there and has [debug_stats], and the key
    [radiance.lipshitz_bound] exactly when the radiance net has a
    Lipschitz bound. *)
Theorem details_hold_inverse raw_ret forward_inv_s w details w' :
  prepare_details raw_ret forward_inv_s w = (Ok details, w') →
  ∃ dd x q,
    dict_at (heap w') details = Some dd
    ∧ item_or_self (heap w') forward_inv_s = Some x
    ∧ number_of x = Some q ∧ ¬ (q == 0)%Q
    ∧ dd !! "inv_s" = Some x
    ∧ dd !! "s" = Some (VFloat (1 / q))
    ∧ (is_Some (dd !! "accel")
       ↔ from_option has_debug_stats false (accel (self w)) = true)
    ∧ (is_Some (dd !! "radiance.lipshitz_bound")
       ↔ has_lipshitz_bound (self w) = true).
Proof.
  unfold prepare_details. intros E.
  apply bind_ok_inv in E as (dv & w1 & E1 & E).
  apply alloc_inv in E1 as ([= ->] & Hh1 & Ht1 & Hs1).
  apply bind_ok_inv in E as ([] & w2 & E2 & E).
  apply setitem_inv in E2 as (rawl & rawd & -> & Hraw & Hh2 & Ht2 & Hs2).
  apply bind_ok_inv in E as (s & w0 & E0 & E).
  apply get_self_inv in E0 as [[= ->] ->].
  apply bind_ok_inv in E as ([] & w3 & E3 & E).
  apply bind_ok_inv in E as (b & w4 & E4 & E).
  apply bind_ok_inv in E as (x & w5 & E5 & E).
  destruct (item_or_self_run _ _ _ _ _ _ E4 E5) as [-> Hx]. clear E4 E5.
  apply bind_ok_inv in E as ([] & w6 & E6 & E).
  apply bind_ok_inv in E as (x' & w7 & E7 & E).
  apply bind_ok_inv in E as (sv & w8 & E8 & E).
  apply bind_ok_inv in E as ([] & w9 & E9 & E).
  apply bind_ok_inv in E as ([] & w10 & E10 & E).
  apply mret_inv in E as [[= ->] ->].
  set (dl := length (heap w)) in *.
  assert (∃ d2, heap w2 !! dl = Some (ODict d2)
                ∧ ∀ k, k ≠ "details" → d2 !! k = None) as (d2 & Hd2 & Hk2).
  { rewrite Hh2. destruct (decide (rawl = dl)) as [->|Hne].
    - rewrite Hh1, lookup_snoc_eq in Hraw by done. injection Hraw as <-.
      eexists. split.
      + apply list_lookup_insert_eq. rewrite Hh1, length_app. simpl. lia.
      + intros k ?. by rewrite lookup_insert_ne.
    - exists ∅. split; [|done]. rewrite list_lookup_insert_ne by done.
      rewrite Hh1. by apply lookup_snoc_eq. }
  clear Hraw Hh2 Hh1 Ht1 Ht2.
  assert (self w2 = self w) as Hs by congruence. clear Hs1 Hs2.
  rewrite Hs in E3, E10.
  assert (∃ d3, heap w3 !! dl = Some (ODict d3)
                ∧ (∀ k, k ≠ "details" → k ≠ "accel" → d3 !! k = None)
                ∧ (is_Some (d3 !! "accel")
                   ↔ from_option has_debug_stats false (accel (self w))
                     = true)) as (d3 & Hd3 & Hk3 & Ha3).
  { destruct (bool_decide (accel (self w) ≠ None)
              && from_option has_debug_stats false (accel (self w)))
      eqn:Hc.
    - apply bind_ok_inv in E3 as (st & w3' & E3' & E3).
      apply accel_call_ok_inv in E3' as [_ E3'].
      apply call1_ok_inv in E3' as (f & _ & _ & Hh & _).
      apply setitem_inv in E3 as (l & d & [= <-] & Hl & Hh' & _).
      rewrite Hh, lookup_app_l in Hl by (by eapply lookup_lt_Some).
      assert (d = d2) as -> by congruence.
      eexists. split_and!.
      + rewrite Hh'. apply list_lookup_insert_eq.
        rewrite Hh, length_app. apply lookup_lt_Some in Hd2. lia.
      + intros k ? ?. rewrite lookup_insert_ne by done. by apply Hk2.
      + rewrite lookup_insert_eq. apply andb_true_iff in Hc as [_ ->].
        split; eauto.
    - apply mret_inv in E3 as [_ ->]. exists d2. split_and!; try done.
      + intros k ? ?. by apply Hk2.
      + rewrite Hk2 by done. split; [by intros [? ?]|].
        intros Hd. rewrite Hd, andb_true_r in Hc.
        apply bool_decide_eq_false in Hc.
        destruct (accel (self w)); [by destruct Hc|done]. }
  clear E3 Hd2 Hk2.
  apply setitem_inv in E6 as (l & d & [= <-] & Hl & Hh6 & _).
  assert (d = d3) as -> by congruence. clear Hl.
  pose proof (lookup_lt_Some _ _ _ Hd3) as Hlt3.
  assert (heap w6 !! dl = Some (ODict (<["inv_s" := x]> d3))) as Hd6.
  { rewrite Hh6. by apply list_lookup_insert_eq. }
  apply getitem_inv in E7 as (-> & l & d & [= <-] & Hl & Hx').
  assert (d = <["inv_s" := x]> d3) as -> by congruence. clear Hl.
  rewrite lookup_insert_eq in Hx'. injection Hx' as <-.
  pose proof (reads_inv _ _ _ _ (reads_recip _) E8) as ->.
  apply recip_ok_inv in E8 as (q & Hq & Hq0 & ->).
  apply setitem_inv in E9 as (l & d & [= <-] & Hl & Hh9 & _).
  assert (d = <["inv_s" := x]> d3) as -> by congruence. clear Hl.
  assert (heap w9 !! dl
          = Some (ODict (<["s" := VFloat (1 / q)]> (<["inv_s" := x]> d3))))
    as Hd9.
  { rewrite Hh9. apply list_lookup_insert_eq. by rewrite Hh6, length_insert. }
  assert (item_or_self (heap w9) forward_inv_s = Some x) as Hx9.
  { unfold item_or_self in *.
    destruct forward_inv_s as [| | | | | |l]; try done.
    destruct (decide (l = dl)) as [->|Hne].
    { rewrite Hd3 in Hx. injection Hx as <-. done. }
    by rewrite Hh9, Hh6, !list_lookup_insert_ne. }
  assert (∃ dd, heap w10 !! dl = Some (ODict dd)
                ∧ (∀ k, k ≠ "radiance.lipshitz_bound" →
                        dd !! k
                        = (<["s" := VFloat (1 / q)]> (<["inv_s" := x]> d3))
                            !! k)
                ∧ (is_Some (dd !! "radiance.lipshitz_bound")
                   ↔ has_lipshitz_bound (self w) = true)
                ∧ item_or_self (heap w10) forward_inv_s = Some x)
    as (dd & Hdd & Hkd & Hld & Hx10).
  { destruct (has_lipshitz_bound (self w)).
    - apply bind_ok_inv in E10 as (lb & w10' & E10' & E10).
      apply call1_ok_inv in E10' as (f & _ & _ & Hh & _).
      apply bind_ok_inv in E10 as (lbv & w10'' & E10'' & E10).
      pose proof (reads_inv _ _ _ _ (reads_item _) E10'') as ->.
      apply setitem_inv in E10 as (l & d & [= <-] & Hl & Hh' & _).
      pose proof (lookup_lt_Some _ _ _ Hd9) as Hlt9.
      rewrite Hh, lookup_app_l in Hl by done.
      assert (d = <["s" := VFloat (1 / q)]> (<["inv_s" := x]> d3)) as ->
        by congruence.
      eexists. split_and!.
      + rewrite Hh'. apply list_lookup_insert_eq.
        rewrite Hh, length_app. lia.
      + intros k ?. by rewrite lookup_insert_ne.
      + rewrite lookup_insert_eq. split; eauto.
      + unfold item_or_self in *.
        destruct forward_inv_s as [| | | | | |l]; try done.
        destruct (decide (l = dl)) as [->|Hne].
        { rewrite Hd9 in Hx9. injection Hx9 as <-. done. }
        rewrite Hh', list_lookup_insert_ne by done. rewrite Hh.
        destruct (heap w9 !! l) as [o|] eqn:Ho.
        * by rewrite (lookup_app_l_Some _ _ _ _ Ho).
        * injection Hx9 as <-. done.
    - apply mret_inv in E10 as [_ ->]. eexists. split_and!; try done.
      rewrite !lookup_insert_ne by done. rewrite Hk3 by done.
      split; [by intros [? ?]|done]. }
  exists dd, x, q. unfold dict_at. rewrite Hdd.
  split_and!; try done.
  - rewrite Hkd by done. by simplify_map_eq.
  - rewrite Hkd by done. by simplify_map_eq.
  - rewrite Hkd by done. rewrite !lookup_insert_ne by done. done.
Qed.
End details.

(** ** The probe at the near bound *)

Section probe.
Context `{FloatOps} `{Collaborators}.

End probe.

(** In the scene, a query over two tested rays starts with the call of
    [forward_inv_s]. *)
Lemma forward_inv_s_is_always_evaluated_witness :
  let w := Scene.query_world "coarse_multi_upsample" 2 Scene.self_inference in
  ∃ evs,
    trace (@ray_query Scene.floats Scene.collaborators Scene.ray_input
             Scene.ray_tested Scene.config true false true w).2
    = NetForwardInvS :: evs.
Proof.
  intros w.
  pose (cd := default ∅ (dict_at (heap w) Scene.config)).
  assert (dict_at (heap w) Scene.config = Some cd) as Hcd
    by (vm_compute; reflexivity).
  assert (is_Some (cd !! "query_mode")) as H1 by (vm_compute; eauto).
  assert (is_Some (cd !! "with_rgb")) as H2 by (vm_compute; eauto).
  assert (is_Some (cd !! "with_normal")) as H3 by (vm_compute; eauto).
  assert (Scene.ray_tested ≠ VNone) as Hrt by done.
  assert (trace w = []) as Ht by reflexivity.
  clearbody cd w.
  destruct (@forward_inv_s_is_always_evaluated Scene.floats
              Scene.collaborators Scene.ray_input Scene.ray_tested
              Scene.config cd true false true w Hrt Hcd H1 H2 H3)
    as [[evs Hevs] _].
  exists evs. by rewrite Hevs, Ht.
Defined.

(** In the scene, the details of a query with [forward_inv_s] 64 hold
    [s] = 1/64. *)
Lemma details_hold_inverse_witness :
  let w := Scene.query_world "coarse_multi_upsample" 2 Scene.self_no_accel in
  let r := @prepare_details Scene.collaborators (VRef 4) (VFloat 64) w in
  ∃ dd, dict_at (heap r.2) (VRef 5) = Some dd
        ∧ dd !! "inv_s" = Some (VFloat 64)
        ∧ dd !! "s" = Some (VFloat (1 / 64)).
Proof.
  intros w r. pose (w' := r.2).
  assert (@prepare_details Scene.collaborators (VRef 4) (VFloat 64) w
          = (Ok (VRef 5), w')) as E by (vm_compute; reflexivity).
  change (r.2) with w'. clearbody w' w. clear r.
  destruct (@details_hold_inverse Scene.collaborators _ _ _ _ _ E)
    as (dd & x & q & Hdd & Hx & Hq & _ & Hi & Hs & _).
  simpl in Hx. injection Hx as <-. simpl in Hq. injection Hq as <-.
  by exists dd.
Defined.


(** ** The inputs of a query *)

Section inputs.
Context `{FloatOps} `{Collaborators}.

Lemma prepare_call_no_sample evs :
  Forall (λ c, prepare_call c = true) evs → no_sample_calls evs.
Proof.
  intros HF. eapply Forall_impl; [exact HF|]. by intros [].
Qed.

(** X14.  The per-object rendering needs [ray_input], also when
    [ray_tested] is given: the shape of the outputs is read from
    [ray_input['rays_o']].  A query with [render_per_obj_individual] and
    without [ray_input] never returns; it raises during the preparation,
    before any sampler is called. *)
Theorem rendering_without_ray_input_raises ray_tested config
    return_buffer return_details w :
  ∃ e w',
    ray_query VNone ray_tested config return_buffer return_details true w
    = (Raise e, w')
    ∧ ∃ evs, trace w' = trace w ++ evs ∧ no_sample_calls evs.
Proof.
  destruct (only_ray_query_prepare VNone ray_tested config return_buffer
              return_details true w) as (_ & evs & T & F).
  assert (no_sample_calls evs) as Hns.
  { apply prepare_call_no_sample. eapply Forall_impl; [exact F|].
    intros c. destruct ray_tested; try done; by destruct c. }
  destruct (ray_query_prepare VNone ray_tested config return_buffer
              return_details true w) as [[q|e] w1] eqn:E.
  - exfalso. unfold ray_query_prepare in E.
    destruct ray_tested; try (by apply bind_ok_inv in E as (? & ? & [=] & _)).
    all: mrun.
    all: match goal with
      | Ep : prepare_rendered _ VNone _ _ _ = (Ok _, _) |- _ =>
          unfold prepare_rendered in Ep;
          apply bind_ok_inv in Ep as (? & ? & Ep & _);
          apply getitem_inv in Ep as (_ & ? & ? & [=] & _)
      end.
  - exists e, w1. unfold ray_query. rewrite (bind_raise _ _ _ _ _ E).
    split; [done|]. by exists evs.
Qed.
End inputs.

(** ** The result of a query *)

Create HintDb keeps.

(** Take the run of a bind apart, when it raised. *)
Ltac bind_split E :=
  let a := fresh "a" in
  let w1 := fresh "w" in
  let E1 := fresh "E" in
  let e := fresh "e" in
  apply bind_cases in E as [(a & w1 & E1 & E) | (e & E1 & _)].

Section keeps.
Context `{FloatOps} `{Collaborators}.
Context (vb : val).

Lemma keeps_reads {A} (m : M A) : reads m → keeps_dicts vb m.
Proof. intros Hm w l d _ Hl. by rewrite Hm. Qed.

Lemma keeps_bind {A B} (m : M A) (f : A → M B) :
  keeps_dicts vb m → (∀ a, keeps_dicts vb (f a)) →
  keeps_dicts vb (m ≫= f).
Proof.
  intros Hm Hf w l d Hne Hl. unfold mbind, M_bind.
  specialize (Hm w l d Hne Hl).
  destruct (m w) as [[a|e] w1]; simpl in *; [|done].
  by apply Hf.
Qed.

Lemma keeps_alloc o : keeps_dicts vb (alloc o).
Proof. intros w l d _ Hl. simpl. by apply lookup_app_l_Some. Qed.

Lemma keeps_setitem k x : keeps_dicts vb (setitem vb k x).
Proof.
  intros w l d Hne Hl.
  destruct (setitem vb k x w) as [[u|e] w'] eqn:E; simpl.
  - apply setitem_inv in E as (l' & d' & -> & _ & -> & _).
    rewrite list_lookup_insert_ne; [done|congruence].
  - unfold setitem in E. bind_split E.
    + pose proof (reads_inv _ _ _ _ (reads_get_dict _) E0) as ->.
      unfold store in E. destruct vb; by inversion E.
    + by pose proof (reads_inv _ _ _ _ (reads_get_dict _) E0) as ->.
Qed.

Lemma keeps_assign_rendered r key inds vals :
  keeps_dicts vb (assign_rendered r key inds vals).
Proof.
  intros w l d Hne Hl.
  destruct (assign_rendered r key inds vals w) as [[u|e] w'] eqn:E; simpl.
  - apply assign_rendered_inv in E
      as (rl & rd & tl & t & t' & -> & _ & _ & Ht & _ & -> & _).
    rewrite list_lookup_insert_ne; [done|congruence].
  - unfold assign_rendered in E. bind_split E.
    2: { by pose proof (reads_inv _ _ _ _ (reads_getitem _ _) E0) as ->. }
    pose proof (reads_inv _ _ _ _ (reads_getitem _ _) E0) as ->.
    bind_split E.
    2: { by pose proof (reads_inv _ _ _ _ (reads_get_tensor _) E1) as ->. }
    pose proof (reads_inv _ _ _ _ (reads_get_tensor _) E1) as ->.
    bind_split E.
    2: { by apply lift_inv in E2 as [_ ->]. }
    apply lift_inv in E2 as [_ ->].
    unfold store in E. destruct a; by inversion E.
Qed.

Lemma keeps_clamp_nablas_ v : keeps_dicts vb (clamp_nablas_ v).
Proof.
  intros w l d Hne Hl.
  destruct (clamp_nablas_ v w) as [[u|e] w'] eqn:E; simpl.
  - apply clamp_nablas_inv in E
      as (vbl & bd & nl & n & -> & _ & _ & Hn & _ & -> & _).
    rewrite list_lookup_insert_ne; [done|congruence].
  - unfold clamp_nablas_ in E. bind_split E.
    2: { by pose proof (reads_inv _ _ _ _ (reads_getitem _ _) E0) as ->. }
    pose proof (reads_inv _ _ _ _ (reads_getitem _ _) E0) as ->.
    bind_split E.
    2: { by pose proof (reads_inv _ _ _ _ (reads_get_tensor _) E1) as ->. }
    pose proof (reads_inv _ _ _ _ (reads_get_tensor _) E1) as ->.
    bind_split E.
    + by apply mret_inv in E as [[=] _].
    + unfold store in E2. destruct a; by inversion E2.
Qed.
End keeps.

Global Hint Resolve keeps_alloc keeps_setitem keeps_assign_rendered
  keeps_clamp_nablas_ : keeps.

Ltac keeps_tac :=
  repeat first
    [ solve [ auto with keeps ]
    | solve [ apply keeps_reads; auto with reads ]
    | apply keeps_bind; [|intros ?]
    | progress case_match ].

Section result.
Context `{FloatOps} `{Collaborators}.

Lemma keeps_render_batched vb r i d rgb nrm :
  keeps_dicts vb (render_batched vb r i d rgb nrm).
Proof. unfold render_batched. keeps_tac. Qed.

Lemma keeps_render_packed vb r i d rgb nrm :
  keeps_dicts vb (render_packed vb r i d rgb nrm).
Proof. unfold render_packed. keeps_tac. Qed.

Lemma keeps_render_per_object vb r cfg rgb nrm :
  keeps_dicts vb (render_per_object vb r cfg rgb nrm).
Proof.
  unfold render_per_object.
  repeat first
    [ solve [ apply keeps_reads; auto with reads ]
    | apply keeps_render_batched
    | apply keeps_render_packed
    | apply keeps_bind; [|intros ?]
    | progress case_match ].
Qed.

(** The result of the preparation has the keys that were asked for. *)
Lemma prepare_keys ri rt config rb rd rp w q w1 :
  ray_query_prepare ri rt config rb rd rp w = (Ok q, w1) →
  ∃ rawl rawd,
    q_raw_ret q = VRef rawl ∧ heap w1 !! rawl = Some (ODict rawd)
    ∧ ∀ k, is_Some (rawd !! k) ↔ k ∈ result_keys rb rd rp.
Proof.
  unfold ray_query_prepare. intros E.
  apply bind_ok_inv in E as (rt' & w0 & _ & E).
  mrun.
  all: repeat match goal with
    | E : prepare_details _ _ _ = _ |- _ =>
        apply prepare_details_inv in E
          as (? & ? & ? & ? & ? & ? & ? & ? & ? & (? & ? & ?) & ?);
        [|heap_lengths; heap_solve]
    | E : prepare_rendered _ _ _ _ _ = _ |- _ =>
        apply prepare_rendered_inv in E
          as (? & ? & ? & ? & ? & ? & ? & ? & ? & ? & ? & ? & ? & ?);
        [|heap_lengths; heap_solve]
    end.
  all: heap_lengths; heap_facts; same_lookup; simpl.
  all: eexists _, _.
  all: split_and!; [done|first [eassumption|by heap_back]|].
  all: intros k; unfold result_keys; simpl.
  all: rewrite ?lookup_insert_is_Some, ?lookup_empty, ?elem_of_cons,
         ?elem_of_nil.
  all: try (split; [by intros [? ?]|done]).
  all: pose proof (@is_Some_None val); intuition (subst; try done).
Qed.

(** X15.  When a query returns, the result is a dict allocated by the
    query, and its keys are those that were asked for and no other:
    [volume_buffer] with [return_buffer], [details] with
    [return_details], [rendered] with [render_per_obj_individual]. *)
Theorem ray_query_returns_what_was_asked ray_input ray_tested config
    return_buffer return_details render_per_obj_individual w ret w' :
  ray_query ray_input ray_tested config return_buffer return_details
    render_per_obj_individual w = (Ok ret, w') →
  ∃ rawl rawd,
    ret = VRef rawl ∧ length (heap w) ≤ rawl
    ∧ heap w' !! rawl = Some (ODict rawd)
    ∧ ∀ k, is_Some (rawd !! k)
           ↔ k ∈ result_keys return_buffer return_details
                   render_per_obj_individual.
Proof.
  intros Eq. unfold ray_query in Eq.
  apply bind_ok_inv in Eq as (q & w1 & E & Eq).
  destruct (prepare_inv _ _ _ _ _ _ _ _ _ E)
    as (rawl & rawd & cd & lo & Hraw & Hrawl & Hlo & Hrd & Hfr & Htr & Hs
        & Hcd & _ & _ & _ & Hrb & Hrp & Hdet).
  destruct (prepare_keys _ _ _ _ _ _ _ _ _ E)
    as (rawl' & rawd' & Hraw' & Hrd' & Hkeys).
  rewrite Hraw in Hraw'. injection Hraw' as <-.
  rewrite Hrd in Hrd'. injection Hrd' as <-.
  destruct (q_no_rays q) eqn:Hn.
  { apply mret_inv in Eq as [[= ->] ->]. exists rawl, rawd.
    split_and!; try done. lia. }
  unfold ray_query_finish in Eq.
  apply bind_ok_inv in Eq as ([vb qd] & w2 & Ed & Eq).
  apply bind_ok_inv in Eq as (u & w3 & Ea & Eq).
  apply bind_ok_inv in Eq as (u' & w4 & Er & Eq).
  apply mret_inv in Eq as [[= ->] ->].
  destruct (dispatch_ok_inv _ _ _ _ _ _ _ _ _ _ Ed)
    as (f & smp & args & _ & Hvb & _ & Hh2 & Ht2 & Hs2).
  assert (∃ dl, (return_details = true → q_details q = VRef dl ∧ dl < lo)
                ∧ (return_details = true → rawl ≠ dl) ∧ dl < lo)
    as (dl & Hdl & Hne & Hdlo).
  { destruct return_details.
    - destruct Hdet as (dl & dd & ? & ? & ?). exists dl.
      split_and!; try lia; intros _; try lia. split; [done|lia].
    - exists rawl. split_and!; try done. lia. }
  assert (length (heap w2) = length (heap w1) + length (f_objs f)) as L2.
  { by rewrite Hh2, length_app, length_fmap. }
  eapply (attach_inv (length (heap w1)) _ _ _ _ _ _ rawl dl) in Ea
    as (L3 & Hf3 & Hraw3 & Hr3 & _); [|done|lia| |lia|]; cycle 1.
  { intros Hd. destruct (Hdl Hd). split; [done|lia]. }
  { rewrite Hh2. apply refs_above_app_fragment; [done|].
    apply refs_above_length. }
  assert (heap w2 !! rawl = Some (ODict rawd)) as Hrd2.
  { rewrite Hh2, lookup_app_l by lia. done. }
  specialize (Hraw3 _ Hrd2 Hne).
  assert (vb ≠ VRef rawl) as Hvbne.
  { rewrite Hvb. destruct (f_val f); simpl; try done. intros [=]. lia. }
  assert (heap w4 !! rawl
          = Some (ODict (if return_buffer
                         then <["volume_buffer" := vb]> rawd else rawd)))
    as Hraw4.
  { destruct render_per_obj_individual.
    - pose proof (keeps_render_per_object vb (q_rendered q) config
                    (q_with_rgb q) (q_with_normal q) w3 _ _ Hvbne Hraw3)
        as Hk.
      by rewrite Er in Hk.
    - by apply mret_inv in Er as [_ ->]. }
  rewrite Hraw. eexists _, _. split_and!; [done|lia|exact Hraw4|].
  intros k. rewrite <- Hkeys. destruct return_buffer; [|done].
  destruct (decide (k = "volume_buffer")) as [->|].
  - rewrite lookup_insert_eq. split; [intros _|by eauto].
    apply Hkeys. unfold result_keys. simpl. rewrite elem_of_cons. by left.
  - by rewrite lookup_insert_ne.
Qed.
End result.

(** In the scene, a query that asks for the buffer and the per-object
    rendering returns a dict with these two keys. *)
Lemma ray_query_returns_what_was_asked_witness :
  let w := Scene.query_world "coarse_multi_upsample" 2 Scene.self_inference in
  let r := @ray_query Scene.floats Scene.collaborators Scene.ray_input
             Scene.ray_tested Scene.config true false true w in
  ∃ rawd,
    heap r.2 !! 5 = Some (ODict rawd)
    ∧ is_Some (rawd !! "volume_buffer") ∧ rawd !! "details" = None
    ∧ is_Some (rawd !! "rendered").
Proof.
  intros w r. pose (w' := r.2).
  assert (@ray_query Scene.floats Scene.collaborators Scene.ray_input
            Scene.ray_tested Scene.config true false true w
          = (Ok (VRef 5), w')) as E by (vm_compute; reflexivity).
  change (r.2) with w'. clearbody w' w. clear r.
  destruct (@ray_query_returns_what_was_asked Scene.floats
              Scene.collaborators _ _ _ _ _ _ _ _ _ E)
    as (rawl & rawd & [= <-] & _ & Hd & Hk).
  exists rawd. unfold result_keys in Hk. simpl in Hk.
  split_and!; [done| | |].
  - apply Hk. rewrite elem_of_cons. by left.
  - destruct (rawd !! "details") as [v|] eqn:Hv; [|done].
    assert (is_Some (rawd !! "details")) as Hs by (by rewrite Hv).
    apply Hk in Hs. rewrite !elem_of_cons, elem_of_nil in Hs.
    by destruct Hs as [?|[?|?]].
  - apply Hk. rewrite !elem_of_cons. right. by left.
Defined.

(** ** The test of the input rays *)

Section tested.
Context `{FloatOps} `{Collaborators}.

(** X16.  A query that is not given [ray_tested], when its preparation
    succeeds, has tested the rays of [ray_input] itself, as its first
    call: [ray_input] is a dict with [rays_o] and [rays_d] that pass the
    checks of [ray_test]; [space.ray_test] got these two, [near] and
    [far] ([None] when [ray_input] has none) and the remaining entries
    of [ray_input] as extra ray data; and what it answered is the
    [ray_tested] the query goes on with. *)
Theorem ray_query_tests_its_input ray_input config return_buffer
    return_details render_per_obj_individual w q w1 :
  ray_query_prepare ray_input VNone config return_buffer return_details
    render_per_obj_individual w = (Ok q, w1) →
  ∃ d rays_o rays_d f evs,
    let extra :=
      delete "rays_o" (delete "rays_d" (delete "near" (delete "far" d))) in
    let c := SpaceRayTest rays_o rays_d (default VNone (d !! "near"))
               (default VNone (d !! "far")) extra in
    dict_at (heap w) ray_input = Some d
    ∧ d !! "rays_o" = Some rays_o ∧ d !! "rays_d" = Some rays_d
    ∧ passes_ray_test (heap w) rays_o rays_d extra = true
    ∧ respond w c = Ok f
    ∧ q_ray_tested q = shift_val (length (heap w)) (f_val f)
    ∧ trace w1 = trace w ++ c :: evs.
Proof.
  unfold ray_query_prepare. intros E.
  apply bind_ok_inv in E as (rt & w0 & E0 & E).
  assert (ray_test_kw ray_input w = (Ok rt, w0)) as Ek.
  { by destruct ray_input. }
  clear E0. unfold ray_test_kw in Ek.
  apply bind_ok_inv in Ek as (d & w0' & Ed & Ek).
  apply get_dict_inv in Ed as (-> & l & -> & Hl).
  destruct (d !! "rays_o") as [rays_o|] eqn:Hro;
    [|by apply raise_inv in Ek].
  destruct (d !! "rays_d") as [rays_d|] eqn:Hrd;
    [|by apply raise_inv in Ek].
  set (extra := delete "rays_o" (delete "rays_d" (delete "near"
                  (delete "far" d)))) in *.
  assert (passes_ray_test (heap w) rays_o rays_d extra = true) as Hp.
  { destruct (passes_ray_test (heap w) rays_o rays_d extra) eqn:Hp; [done|].
    destruct (ray_test_rejects rays_o rays_d (default VNone (d !! "near"))
                (default VNone (d !! "far")) extra w Hp) as [e He].
    congruence. }
  apply ray_test_ok_inv in Ek.
  apply call1_ok_inv in Ek as (f & Hf & -> & Hh0 & Ht0 & Hs0).
  match type of E with
  | ?rest w0 = _ => assert (grows rest) as Hrest
  end.
  { repeat first
      [ solve [ auto with grows ]
      | solve [ apply grows_reads; auto with reads ]
      | apply grows_prepare_details
      | apply grows_prepare_rendered
      | apply grows_bind; [|intros ?]
      | progress case_match ]. }
  destruct (Hrest w0) as [evs T1]. rewrite E in T1. simpl in T1.
  exists d, rays_o, rays_d, f, evs. cbv zeta. fold extra.
  split_and!; try done.
  - unfold dict_at. by rewrite Hl.
  - clear -E. mrun; done.
  - by rewrite T1, Ht0, <- app_assoc.
Qed.
End tested.

(** In the scene, a query without [ray_tested] starts with the test of
    the two rays of its input, and goes on with the answer of the
    space. *)
Lemma ray_query_tests_its_input_witness :
  let w := InputScene.world in
  let r := @ray_query_prepare InputScene.collaborators InputScene.ray_input
             VNone InputScene.config false false false w in
  ∃ q rays_o rays_d near far extra evs,
    r.1 = Ok q ∧ q_ray_tested q = VRef 5
    ∧ trace r.2 = SpaceRayTest rays_o rays_d near far extra :: evs.
Proof.
  intros w r.
  pose (q := Locals (VRef 5) (VStr "coarse_multi_upsample") (VBool false)
               (VBool false) (VFloat 64) (VRef 6) VNone VNone true).
  pose (w1 := r.2).
  assert (@ray_query_prepare InputScene.collaborators InputScene.ray_input
            VNone InputScene.config false false false w = (Ok q, w1)) as E
    by (vm_compute; reflexivity).
  assert (r.1 = Ok q) as Hr by (vm_compute; reflexivity).
  assert (trace w = []) as Ht by reflexivity.
  change (r.2) with w1. clearbody w1 w.
  destruct (@ray_query_tests_its_input InputScene.collaborators
              _ _ _ _ _ _ _ _ E)
    as (d & ro & rd & f & evs & _ & _ & _ & _ & _ & _ & Htr).
  rewrite Ht in Htr. simpl in Htr.
  by eexists q, _, _, _, _, _, _.
Defined.
